(** * Emotion Path Optimizer: graph store, personalized planner, text codec

    A shallow embedding of [emotion_final.c].

    - A C string ([char *], NUL-terminated) is the list of its characters
      before the terminator; the end of the list is where C reads NUL.
    - [float] is IEEE-754 binary32 with round-to-nearest-even; every operation
      is evaluated in binary32 (FLT_EVAL_METHOD = 0, as on x86-64 with SSE, and
      no contraction into fused multiply-add), through the Standard Library's
      [SpecFloat] at [prec = 24, emax = 128].
    - The node array [g->nodes[0..count)] is a list; [realloc] growth and the
      capacity fields are invisible to callers and are not modelled, and
      allocation never fails.
    - An [int] that is either an index or the sentinel [-1] is an
      [option nat] ([None] is [-1]).
    - Reading or writing an array out of bounds is undefined behaviour in C;
      the planner's model returns [None] there.
    - What a [float] is worth as a number is a rational ([Q]); it is used
      only to state how far a value read back from its text is from the
      value written. *)

From Stdlib Require Import ZArith Ascii String SpecFloat DecimalPos DecimalN.
From stdpp Require Import base tactics option list strings.
From Stdlib Require Import QArith Qabs Qpower Lqa.

Local Open Scope Z_scope.

(** ** C strings *)

Abbreviation cstring := (list ascii).

Definition lit (s : string) : cstring := list_ascii_of_string s.

(** [strcmp(a, b) == 0] *)
Definition streq (a b : cstring) : bool := bool_decide (a = b).

Definition MAX_NAME_LEN : nat := 48.
Definition MAX_LINE : nat := 1024.

(** ** binary32 arithmetic *)

Module F32.
Definition prec : Z := 24.
Definition emax : Z := 128.

Definition add : spec_float → spec_float → spec_float := SFadd prec emax.
Definition sub : spec_float → spec_float → spec_float := SFsub prec emax.
Definition mul : spec_float → spec_float → spec_float := SFmul prec emax.
Definition div : spec_float → spec_float → spec_float := SFdiv prec emax.
Definition ltb : spec_float → spec_float → bool := SFltb.
Definition eqb : spec_float → spec_float → bool := SFeqb.

(** The binary32 value of an integer, and of a quotient of two integers that
    binary32 holds exactly (a decimal literal such as [0.85f] is [85 / 100]),
    both correctly rounded. *)
Definition of_Z (z : Z) : spec_float := binary_normalize prec emax z 0 false.
Definition of_ratio (num : Z) (den : positive) : spec_float :=
  div (binary_normalize prec emax num 0 false)
      (binary_normalize prec emax (Zpos den) 0 false).

Definition zero : spec_float := S754_zero false.
Definition one : spec_float := Eval vm_compute in of_Z 1.
(** [FLT_MAX] = (2^24 - 1) * 2^104 *)
Definition FLT_MAX : spec_float := S754_finite false 16777215 104.
(** [0.85f] = 0x3F59999A, [0.8f] = 0x3F4CCCCD, [0.05f] = 0x3D4CCCCD *)
Definition c0_85 : spec_float := S754_finite false 14260634 (-24).
Definition c0_8 : spec_float := S754_finite false 13421773 (-24).
Definition c0_05 : spec_float := S754_finite false 13421773 (-28).
End F32.

Abbreviation float := spec_float.

(** ** Data model *)

Record Edge := mkEdge {
  to : nat;
  weight : float;
  procedure : option cstring   (* [None] is the NULL pointer *)
}.

Record EmotionNode := mkNode {
  name : cstring;
  valence : float;
  baseline_intensity : float;
  edges : list Edge;
  tips : list cstring
}.

Abbreviation EmotionGraph := (list EmotionNode).

Definition add_edge_to (e : Edge) (n : EmotionNode) : EmotionNode :=
  mkNode (name n) (valence n) (baseline_intensity n) (edges n ++ [e]) (tips n).

Definition add_tip_to (t : cstring) (n : EmotionNode) : EmotionNode :=
  mkNode (name n) (valence n) (baseline_intensity n) (edges n) (tips n ++ [t]).

(** ** Graph operations *)

Definition graph_new : EmotionGraph := [].

(** Index of the first node whose name equals [nm], [None] for [-1]. *)
Definition graph_find (g : EmotionGraph) (nm : cstring) : option nat :=
  fst <$> list_find (λ n, name n = nm) g.

(** [strncpy(n->name, name, MAX_NAME_LEN-1)] keeps at most 47 characters. *)
Definition graph_add_node (g : EmotionGraph) (nm : cstring) (val base : float)
  : EmotionGraph * nat :=
  match graph_find g nm with
  | Some idx => (g, idx)
  | None => (g ++ [mkNode (take (MAX_NAME_LEN - 1) nm) val base [] []], length g)
  end.

Definition positive_goals : list cstring :=
  [lit "happy"; lit "calm"; lit "hopeful"; lit "peaceful"].

Definition is_positive_goal_name (nm : cstring) : bool :=
  existsb (streq nm) positive_goals.

Definition overwhelmed : cstring := lit "overwhelmed".

(** [(weight < 0.0f) ? 0.0f : weight] *)
Definition clamp_weight (w : float) : float :=
  if F32.ltb w F32.zero then F32.zero else w.

(** [idx = graph_find(g, name); if (idx == -1) idx = graph_add_node(g, name, val, base);] *)
Definition find_or_add (g : EmotionGraph) (nm : cstring) (val base : float)
  : EmotionGraph * nat :=
  match graph_find g nm with
  | Some u => (g, u)
  | None => graph_add_node g nm val base
  end.

(** [-0.5f], [-0.2f], [5.0f] *)
Definition neg_half : float := Eval vm_compute in F32.of_ratio (-5) 10.
Definition neg_fifth : float := Eval vm_compute in F32.of_ratio (-2) 10.
Definition five : float := Eval vm_compute in F32.of_Z 5.

Definition graph_add_edge (g : EmotionGraph) (from to_ : cstring) (w : float)
    (proc : option cstring) : EmotionGraph :=
  if streq from overwhelmed && is_positive_goal_name to_ then g
  else
    let '(g1, u) := find_or_add g from neg_half five in
    let '(g2, v) := find_or_add g1 to_ F32.zero five in
    let g3 := alter (add_edge_to (mkEdge v (clamp_weight w) proc)) u g2 in
    alter (add_edge_to (mkEdge u (clamp_weight w) None)) v g3.

Definition graph_add_tip (g : EmotionGraph) (emotion tip_text : cstring)
  : EmotionGraph :=
  let '(g1, idx) := find_or_add g emotion neg_fifth five in
  alter (add_tip_to tip_text) idx g1.

(** ** Personalized Dijkstra *)

(** The weight the planner uses for edge [e] entering node [nv]:
    [w = e->weight; if (tips_count > 0) w *= 0.85f; if (e->procedure) w *= 0.8f;
     valence_bias = (1.0f - valence) * 0.05f; w = w * (1.0f - valence_bias)]. *)
Definition adjusted_weight (nv : EmotionNode) (e : Edge) : float :=
  let w := weight e in
  let w := if bool_decide (0 < length (tips nv))%nat then F32.mul w F32.c0_85 else w in
  let w := if procedure e is Some _ then F32.mul w F32.c0_8 else w in
  let valence_bias := F32.mul (F32.sub F32.one (valence nv)) F32.c0_05 in
  F32.mul w (F32.sub F32.one valence_bias).

(** The three local arrays [dist], [visited], [prev]. *)
Record dijkstra_state := mkDS {
  dist : list float;
  visited : list bool;
  prev : list (option nat)
}.

Definition init_state (n src : nat) : dijkstra_state :=
  mkDS (<[src := F32.zero]> (replicate n F32.FLT_MAX))
       (replicate n false)
       (replicate n None).

(** One pass of [for (i...) if (!visited[i] && dist[i] < best) { best = dist[i]; u = i; }] *)
Definition select_step (st : dijkstra_state) (acc : option nat * float) (i : nat)
  : option nat * float :=
  match visited st !! i, dist st !! i with
  | Some false, Some d => if F32.ltb d (snd acc) then (Some i, d) else acc
  | _, _ => acc
  end.

Definition select_min (n : nat) (st : dijkstra_state) : option nat :=
  fst (foldl (select_step st) (None, F32.FLT_MAX) (seq 0 n)).

(** The body of the edge loop for one edge [e] of the node [u]. *)
Definition relax_edge (g : EmotionGraph) (u : nat) (st : dijkstra_state) (e : Edge)
  : option dijkstra_state :=
  let v := to e in
  vis ← visited st !! v;
  if (vis : bool) then Some st
  else
    nv ← g !! v;
    du ← dist st !! u;
    dv ← dist st !! v;
    let alt := F32.add du (adjusted_weight nv e) in
    if F32.ltb alt dv
    then Some (mkDS (<[v := alt]> (dist st)) (visited st) (<[v := Some u]> (prev st)))
    else Some st.

Fixpoint relax_edges (g : EmotionGraph) (u : nat) (es : list Edge) (st : dijkstra_state)
  : option dijkstra_state :=
  match es with
  | [] => Some st
  | e :: es' => st' ← relax_edge g u st e; relax_edges g u es' st'
  end.

(** [iters] counts the remaining iterations of [for (iter = 0; iter < n; ++iter)]. *)
Fixpoint dijkstra_loop (g : EmotionGraph) (dest : nat) (iters : nat) (st : dijkstra_state)
  : option dijkstra_state :=
  match iters with
  | O => Some st
  | S k =>
    match select_min (length g) st with
    | None => Some st
    | Some u =>
      let st1 := mkDS (dist st) (<[u := true]> (visited st)) (prev st) in
      if bool_decide (u = dest) then Some st1
      else
        nu ← g !! u;
        st2 ← relax_edges g u (edges nu) st1;
        dijkstra_loop g dest k st2
    end
  end.

(** [for (cur = dest; cur != -1; cur = prev[cur]) temp[idx++] = cur;]
    [room] is the number of free slots of [temp]; writing past it is
    undefined. *)
Fixpoint walk_prev (prv : list (option nat)) (room : nat) (cur : option nat)
  : option (list nat) :=
  match cur with
  | None => Some []
  | Some c =>
    match room with
    | O => None
    | S r => p ← prv !! c; rest ← walk_prev prv r p; Some (c :: rest)
    end
  end.

(** The returned cost, and [out_path[0..*out_len)] when it was written. *)
Definition run_dijkstra_personalized (g : EmotionGraph) (src dest : Z)
  : option (float * option (list nat)) :=
  let n := length g in
  if bool_decide (src < 0 ∨ dest < 0) then Some (F32.FLT_MAX, None)
  else
    let s := Z.to_nat src in
    let d := Z.to_nat dest in
    if bool_decide (s < n)%nat then
      st ← dijkstra_loop g d n (init_state n s);
      dd ← dist st !! d;
      if F32.eqb dd F32.FLT_MAX then Some (F32.FLT_MAX, None)
      else
        temp ← walk_prev (prev st) n (Some d);
        Some (dd, Some (rev temp))
    else None.

(** The goal loop of the menu: keep the first strictly cheaper goal. *)
Definition plan_step (g : EmotionGraph) (src : Z)
    (acc : option (float * option Z * list nat)) (goal : Z)
  : option (float * option Z * list nat) :=
  '(best_cost, best_goal, best_path) ← acc;
  '(cost, path) ← run_dijkstra_personalized g src goal;
  if F32.ltb cost best_cost
  then Some (cost, Some goal, default best_path path)
  else Some (best_cost, best_goal, best_path).

Definition plan_route (g : EmotionGraph) (src : Z) (goals : list Z)
  : option (float * option Z * list nat) :=
  foldl (plan_step g src) (Some (F32.FLT_MAX, None, [])) goals.

(** ** The C library functions the codec relies on

    The file is the list of its characters.  [isspace], [fgets],
    [sscanf("%Ns")], [strchr], [strtok] and the number conversions are
    modelled after their C definitions in the "C" locale.  Numbers are read in
    decimal notation ([-12.5], [1e3], [inf], [nan]); hexadecimal floats, which
    [save_graph] never writes, are read as far as their leading [0]. *)

Definition ch_quote : ascii := "034"%char.
Definition ch_backslash : ascii := "\"%char.
Definition ch_newline : ascii := "010"%char.
Definition ch_tab : ascii := "009"%char.
Definition ch_space : ascii := " "%char.

Definition isspace (c : ascii) : bool :=
  bool_decide (c ∈ [ch_space; ch_tab; ch_newline; "011"%char; "012"%char; "013"%char]).

Fixpoint skip_ws (s : cstring) : cstring :=
  match s with
  | c :: s' => if isspace c then skip_ws s' else s
  | [] => []
  end.

(** At most [width] characters up to the next white space. *)
Fixpoint take_token (width : nat) (s : cstring) : cstring * cstring :=
  match width, s with
  | S k, c :: s' =>
      if isspace c then ([], s)
      else let '(t, r) := take_token k s' in (c :: t, r)
  | _, _ => ([], s)
  end.

(** The conversion [%Ns] of [sscanf]: the token and the unread input. *)
Definition scan_token (width : nat) (s : cstring) : option (cstring * cstring) :=
  let '(t, r) := take_token width (skip_ws s) in
  if bool_decide (t = []) then None else Some (t, r).

(** [strchr(s, c)]: the suffix of [s] that starts at the first [c]. *)
Fixpoint strchr (s : cstring) (c : ascii) : option cstring :=
  match s with
  | [] => None
  | d :: s' => if bool_decide (d = c) then Some s else strchr s' c
  end.

(** The tokens [strtok(s, " \t")] returns one after the other. *)
Definition is_blank (c : ascii) : bool := bool_decide (c = ch_space ∨ c = ch_tab).

Fixpoint strtok_from (cur : cstring) (s : cstring) : list cstring :=
  match s with
  | [] => if bool_decide (cur = []) then [] else [rev cur]
  | c :: s' =>
      if is_blank c
      then (if bool_decide (cur = []) then strtok_from [] s'
            else rev cur :: strtok_from [] s')
      else strtok_from (c :: cur) s'
  end.

Definition strtok_all (s : cstring) : list cstring := strtok_from [] s.

(** [fgets(buf, room + 1, f)]: at most [room] characters, through the first
    newline. *)
Fixpoint fgets (room : nat) (f : cstring) : cstring * cstring :=
  match room, f with
  | S k, c :: f' =>
      if bool_decide (c = ch_newline) then ([c], f')
      else let '(l, r) := fgets k f' in (c :: l, r)
  | _, _ => ([], f)
  end.

(** [if (ln > 0 && line[ln-1] == '\n') line[ln-1] = '\0'] *)
Definition chomp (l : cstring) : cstring :=
  match last l with
  | Some c => if bool_decide (c = ch_newline) then removelast l else l
  | None => l
  end.

(** *** Numbers as text *)

Definition is_digit (c : ascii) : bool :=
  bool_decide (c ∈ lit "0123456789").

Definition digit_val (c : ascii) : N := (N_of_ascii c - 48)%N.

Definition digit_char (d : N) : ascii := ascii_of_N (48 + d).

Fixpoint span_digits (s : cstring) : cstring * cstring :=
  match s with
  | c :: s' =>
      if is_digit c then let '(ds, r) := span_digits s' in (c :: ds, r)
      else ([], s)
  | [] => ([], [])
  end.

Definition N_of_digits (ds : cstring) : N :=
  foldl (λ acc c, acc * 10 + digit_val c)%N 0%N ds.

Fixpoint uint_chars (u : Decimal.uint) : cstring :=
  match u with
  | Decimal.Nil => []
  | Decimal.D0 u => "0"%char :: uint_chars u
  | Decimal.D1 u => "1"%char :: uint_chars u
  | Decimal.D2 u => "2"%char :: uint_chars u
  | Decimal.D3 u => "3"%char :: uint_chars u
  | Decimal.D4 u => "4"%char :: uint_chars u
  | Decimal.D5 u => "5"%char :: uint_chars u
  | Decimal.D6 u => "6"%char :: uint_chars u
  | Decimal.D7 u => "7"%char :: uint_chars u
  | Decimal.D8 u => "8"%char :: uint_chars u
  | Decimal.D9 u => "9"%char :: uint_chars u
  end.

Definition digits_of_N (n : N) : cstring := uint_chars (N.to_uint n).

(** [num / den] rounded to the nearest integer, ties to even. *)
Definition round_half_even_div (num : N) (den : positive) : N :=
  let q := (num / Npos den)%N in
  let r := (num mod Npos den)%N in
  match (2 * r ?= Npos den)%N with
  | Lt => q
  | Eq => if N.even q then q else (q + 1)%N
  | Gt => (q + 1)%N
  end.

(** [m * 2^e * 1000] rounded to an integer: the digits [%.3f] prints. *)
Definition thousandths (m : positive) (e : Z) : N :=
  match e with
  | Z0 => (Npos m * 1000)%N
  | Zpos p => (Npos m * 2 ^ Npos p * 1000)%N
  | Zneg p => round_half_even_div (Npos m * 1000) (2 ^ p)
  end.

Definition sign_chars (neg : bool) : cstring := if neg then ["-"%char] else [].

(** [printf("%.3f", x)] for a [float] argument (promoted to [double], which
    changes no value). *)
Definition fmt3 (x : float) : cstring :=
  match x with
  | S754_nan => lit "nan"
  | S754_infinity s => sign_chars s ++ lit "inf"
  | S754_zero s => sign_chars s ++ lit "0.000"
  | S754_finite s m e =>
      let q := thousandths m e in
      sign_chars s ++ digits_of_N (q / 1000) ++ "."%char ::
        [digit_char (q / 100 mod 10); digit_char (q / 10 mod 10); digit_char (q mod 10)]
  end.

(** What a decimal floating-point literal denotes. *)
Inductive numeral :=
  | Num_inf (neg : bool)
  | Num_nan
  | Num_dec (neg : bool) (mant : N) (exp10 : Z).

Definition scan_sign (s : cstring) : bool * cstring :=
  match s with
  | c :: r =>
      if bool_decide (c = "-"%char) then (true, r)
      else if bool_decide (c = "+"%char) then (false, r)
      else (false, s)
  | [] => (false, [])
  end.

Definition to_lower (c : ascii) : ascii :=
  let n := N_of_ascii c in
  if bool_decide (65 ≤ n ≤ 90)%N then ascii_of_N (n + 32) else c.

(** [s] without the prefix [pat], compared without regard to case. *)
Fixpoint strip_prefix_ci (pat s : cstring) : option cstring :=
  match pat, s with
  | [], _ => Some s
  | a :: pat', c :: s' =>
      if bool_decide (to_lower c = a) then strip_prefix_ci pat' s' else None
  | _ :: _, [] => None
  end.

Definition scan_exponent (s : cstring) : Z * cstring :=
  match s with
  | c :: r =>
      if bool_decide (to_lower c = "e"%char) then
        let '(neg, r1) := scan_sign r in
        let '(ds, r2) := span_digits r1 in
        if bool_decide (ds = []) then (0, s)
        else ((if neg then - Z.of_N (N_of_digits ds) else Z.of_N (N_of_digits ds)), r2)
      else (0, s)
  | [] => (0, [])
  end.

(** The longest numeric literal at the head of [s], after white space. *)
Definition scan_numeral (s : cstring) : option (numeral * cstring) :=
  let '(neg, s1) := scan_sign (skip_ws s) in
  match strip_prefix_ci (lit "inf") s1 with
  | Some r =>
      Some (Num_inf neg, default r (strip_prefix_ci (lit "inity") r))
  | None =>
    match strip_prefix_ci (lit "nan") s1 with
    | Some r => Some (Num_nan, r)
    | None =>
      let '(ip, s2) := span_digits s1 in
      let '(fp, s3) :=
        match s2 with
        | c :: r => if bool_decide (c = "."%char) then span_digits r else ([], s2)
        | [] => ([], s2)
        end in
      if bool_decide (ip = [] ∧ fp = []) then None
      else
        let '(ex, s4) := scan_exponent s3 in
        Some (Num_dec neg (N_of_digits (ip ++ fp)) (ex - Z.of_nat (length fp)), s4)
    end
  end.

(** The numeral correctly rounded to the format [(prec, emax)]. *)
Definition round_numeral (prec emax : Z) (x : numeral) : float :=
  match x with
  | Num_inf neg => S754_infinity neg
  | Num_nan => S754_nan
  | Num_dec neg N0 _ => S754_zero neg
  | Num_dec neg (Npos m) ex =>
      match ex with
      | Z0 => binary_round prec emax neg m 0
      | Zpos p => binary_round prec emax neg (m * 10 ^ p) 0
      | Zneg p => SFdiv prec emax (S754_finite neg m 0) (S754_finite false (10 ^ p) 0)
      end
  end.

(** The conversion [(float)] of a [double]. *)
Definition double_to_float (x : float) : float :=
  match x with
  | S754_finite s m e => binary_round F32.prec F32.emax s m e
  | _ => x
  end.

(** The conversion [%f] of [sscanf] ([strtof]). *)
Definition scan_float (s : cstring) : option (float * cstring) :=
  '(x, r) ← scan_numeral s; Some (round_numeral F32.prec F32.emax x, r).

(** [atof(s)], i.e. [strtod(s, NULL)]: binary64, and 0.0 when nothing converts. *)
Definition atof (s : cstring) : float :=
  match scan_numeral s with
  | Some (x, _) => round_numeral 53 1024 x
  | None => S754_zero false
  end.

(** ** Persistence codec *)

(** [fwrite_quoted]: the characters written to the file. *)
Definition escape_char (c : ascii) : cstring :=
  if bool_decide (c = ch_quote ∨ c = ch_backslash) then [ch_backslash; c] else [c].

Definition fwrite_quoted (s : cstring) : cstring :=
  ch_quote :: (s ≫= escape_char) ++ [ch_quote].

(** The loop of [parse_quoted]: [bi] characters are already in [buf]; the
    result is what the loop appends to [buf] and where [p] stops. *)
Fixpoint parse_quoted_loop (p : cstring) (bi : nat) : cstring * cstring :=
  match p with
  | [] => ([], [])
  | c :: p' =>
      if bool_decide (c = ch_quote) then ([], p)
      else
        match p' with
        | d :: p'' =>
            if bool_decide (c = ch_backslash) then
              (* an escape: [p++; buf[bi++] = *p++;] *)
              if bool_decide (MAX_LINE - 1 ≤ S bi)%nat then ([d], p'')
              else let '(b, r) := parse_quoted_loop p'' (S bi) in (d :: b, r)
            else
              if bool_decide (MAX_LINE - 1 ≤ S bi)%nat then ([c], p')
              else let '(b, r) := parse_quoted_loop p' (S bi) in (c :: b, r)
        | [] => ([c], [])
        end
  end.

(** [parse_quoted(s, &endptr)]: [None] is the NULL result; otherwise the
    decoded text and [endptr]. *)
Definition parse_quoted (s : cstring) : option (cstring * cstring) :=
  match s with
  | c :: p =>
      if bool_decide (c = ch_quote) then
        let '(b, r) := parse_quoted_loop p 0 in
        Some (b, match r with
                 | d :: r' => if bool_decide (d = ch_quote) then r' else r
                 | [] => r
                 end)
      else None
  | [] => None
  end.

(** The lines [save_graph] writes for one node and its tips. *)
Definition node_line (n : EmotionNode) : cstring :=
  lit "NODE " ++ name n ++ [ch_space] ++ fmt3 (valence n) ++ [ch_space]
    ++ fmt3 (baseline_intensity n) ++ [ch_newline].

Definition tip_line (n : EmotionNode) (t : cstring) : cstring :=
  lit "TIP " ++ name n ++ [ch_space] ++ fwrite_quoted t ++ [ch_newline].

Definition node_block (n : EmotionNode) : cstring :=
  node_line n ++ mjoin (tip_line n <$> tips n).

(** The procedure field of an EDGE record: [fwrite_quoted] of the procedure,
    or two quote characters when the pointer is NULL. *)
Definition quoted_procedure (proc : option cstring) : cstring :=
  match proc with
  | Some pr => fwrite_quoted pr
  | None => [ch_quote; ch_quote]
  end.

(** The EDGE record of an edge. *)
Definition edge_text (from to_ : cstring) (w : float) (proc : option cstring)
  : cstring :=
  lit "EDGE " ++ from ++ [ch_space] ++ to_ ++ [ch_space] ++ fmt3 w ++ [ch_space]
    ++ quoted_procedure proc ++ [ch_newline].

(** The body of the edge loop for edge [e] of node [n = g->nodes[i]]: a
    record is written only if [i < e->to]; reading [g->nodes[to]] out of
    bounds is undefined. *)
Definition edge_line (g : EmotionGraph) (i : nat) (n : EmotionNode) (e : Edge)
  : option cstring :=
  if bool_decide (i < to e)%nat then
    nt ← g !! (to e);
    Some (edge_text (name n) (name nt) (weight e) (procedure e))
  else Some [].

(** [for (e = 0; e < n->edges_count; ++e) ...] on the edges [es] still to do. *)
Fixpoint save_edges_of (g : EmotionGraph) (i : nat) (n : EmotionNode) (es : list Edge)
  : option cstring :=
  match es with
  | [] => Some []
  | e :: es' =>
      l ← edge_line g i n e; r ← save_edges_of g i n es'; Some (l ++ r)
  end.

(** The second loop [for (i = 0; i < g->count; ++i) ...], at index [i] with
    the nodes [ns] still to do. *)
Fixpoint save_edges_from (g : EmotionGraph) (i : nat) (ns : list EmotionNode)
  : option cstring :=
  match ns with
  | [] => Some []
  | n :: ns' =>
      b ← save_edges_of g i n (edges n); r ← save_edges_from g (S i) ns';
      Some (b ++ r)
  end.

(** [save_graph]: the content of the file ([fopen] is taken to succeed). *)
Definition save_graph (g : EmotionGraph) : option cstring :=
  es ← save_edges_from g 0 g;
  Some (mjoin (node_block <$> g) ++ es).

(** [g->nodes[idx].valence = ...] and [... baseline_intensity = ...] *)
Definition set_valence (v : float) (n : EmotionNode) : EmotionNode :=
  mkNode (name n) v (baseline_intensity n) (edges n) (tips n).

Definition set_baseline (b : float) (n : EmotionNode) : EmotionNode :=
  mkNode (name n) (valence n) b (edges n) (tips n).

(** The branch of [load_graph] for a NODE record; [p] is the text after the
    keyword and the white space that follows it. *)
Definition load_node (p : cstring) (g : EmotionGraph) : EmotionGraph :=
  match scan_token (MAX_NAME_LEN - 1) p with
  | None => g
  | Some (nm, r1) =>
      let '(val, base) :=
        match scan_float r1 with
        | None => (F32.zero, five)
        | Some (v, r2) =>
            match scan_float r2 with
            | None => (v, five)
            | Some (b, _) => (v, b)
            end
        end in
      let g1 := fst (graph_add_node g nm val base) in
      match graph_find g1 nm with
      | None => g1
      | Some idx =>
          match strtok_all p with
          | _ :: tok2 :: rest =>
              let g2 := alter (set_valence (double_to_float (atof tok2))) idx g1 in
              match rest with
              | tok3 :: _ => alter (set_baseline (double_to_float (atof tok3))) idx g2
              | [] => g2
              end
          | _ => g1
          end
      end
  end.

Definition load_tip (p : cstring) (g : EmotionGraph) : EmotionGraph :=
  match scan_token (MAX_NAME_LEN - 1) p with
  | None => g
  | Some (emo, _) =>
      match strchr p ch_quote ≫= parse_quoted with
      | Some (tip, _) => graph_add_tip g emo tip
      | None => g
      end
  end.

Definition load_edge (p : cstring) (g : EmotionGraph) : EmotionGraph :=
  match scan_token (MAX_NAME_LEN - 1) p with
  | None => g
  | Some (from, r1) =>
      match scan_token (MAX_NAME_LEN - 1) r1 with
      | None => g
      | Some (to_, r2) =>
          let w := match scan_float r2 with Some (w, _) => w | None => F32.one end in
          let proc := fst <$> (strchr p ch_quote ≫= parse_quoted) in
          graph_add_edge g from to_ w proc
      end
  end.

(** One iteration of the reading loop on the buffer [line] that [fgets]
    filled. *)
Definition load_line (line : cstring) (g : EmotionGraph) : EmotionGraph :=
  let p := skip_ws (chomp line) in
  match p with
  | [] => g
  | c :: _ =>
      if bool_decide (c = "#"%char) then g
      else
        match scan_token 31 p with
        | None => g
        | Some (token, _) =>
            if streq token (lit "NODE") then load_node (skip_ws (drop 4 p)) g
            else if streq token (lit "TIP") then load_tip (skip_ws (drop 3 p)) g
            else if streq token (lit "EDGE") then load_edge (skip_ws (drop 4 p)) g
            else g
        end
  end.

(** [while (fgets(line, sizeof(line), f)) ...]; every call of [fgets] on a
    non-empty rest reads at least one character, so [length f] rounds
    exhaust the file. *)
Fixpoint load_lines (rounds : nat) (f : cstring) (g : EmotionGraph) : EmotionGraph :=
  match rounds, f with
  | S k, _ :: _ =>
      let '(line, rest) := fgets (MAX_LINE - 1) f in
      load_lines k rest (load_line line g)
  | _, _ => g
  end.

(** [load_graph] on a file that exists and holds the characters [f]. *)
Definition load_graph (g : EmotionGraph) (f : cstring) : EmotionGraph :=
  load_lines (length f) f g.

(** ** Observations on a graph *)

Definition node_of (g : EmotionGraph) (nm : cstring) : option EmotionNode :=
  graph_find g nm ≫= (g !!.).

Definition edges_of (g : EmotionGraph) (nm : cstring) : list Edge :=
  from_option edges [] (node_of g nm).

Definition edge_count (g : EmotionGraph) : nat :=
  sum_list (length ∘ edges <$> g).

Definition forbidden (from to_ : cstring) : bool :=
  streq from overwhelmed && is_positive_goal_name to_.

Definition valid_name (nm : cstring) : Prop := (length nm < MAX_NAME_LEN)%nat.

(** [n] identical calls of [graph_add_edge] in a row. *)
Definition add_edge_times (n : nat) (g : EmotionGraph) (from to_ : cstring)
    (w : float) (proc : option cstring) : EmotionGraph :=
  Nat.iter n (λ g, graph_add_edge g from to_ w proc) g.

(** How many edges of the node named [nm] point at index [v]. *)
Definition parallel_count (g : EmotionGraph) (nm : cstring) (v : nat) : nat :=
  length (filter (λ e, to e = v) (edges_of g nm)).

(** ** Planner: notions used by the statements *)

(** [reach g s v]: [v] can be reached from [s] along stored edges. *)
Inductive reach (g : EmotionGraph) (s : nat) : nat → Prop :=
  | reach_refl : reach g s s
  | reach_step u nu e :
      reach g s u → g !! u = Some nu → e ∈ edges nu → reach g s (to e).

(** Every edge points at an existing node, as [graph_add_edge] ensures. *)
Definition graph_wf (g : EmotionGraph) : Prop :=
  ∀ u nu e, g !! u = Some nu → e ∈ edges nu → (to e < length g)%nat.

(** The personalized cost in the words of the design: the base weight times
    0.85 when the target has a tip, times 0.80 when the edge has a procedure,
    times [1 - (1 - valence) * 0.05], multiplied in that order. *)
Definition personalized_cost (base : float) (has_tip has_proc : bool) (val : float)
  : float :=
  let by_tip := if has_tip then F32.mul base F32.c0_85 else base in
  let by_proc := if has_proc then F32.mul by_tip F32.c0_8 else by_tip in
  F32.mul by_proc (F32.sub F32.one (F32.mul (F32.sub F32.one val) F32.c0_05)).

Definition has_procedure (e : Edge) : bool :=
  if procedure e is Some _ then true else false.

(** The state after relaxing [v] through [u] at cost [alt]. *)
Definition relaxed (st : dijkstra_state) (u v : nat) (alt : float) : dijkstra_state :=
  mkDS (<[v := alt]> (dist st)) (visited st) (<[v := Some u]> (prev st)).

Definition dijkstra_inv (g : EmotionGraph) (s : nat) (st : dijkstra_state) : Prop :=
  length (dist st) = length g ∧ length (visited st) = length g ∧
  ∀ v d, dist st !! v = Some d → d = F32.FLT_MAX ∨ reach g s v.

(** The chain A - B - C - D of unit edges, every node at valence 0. *)
Definition chain (b1 b2 b3 b4 : float) : EmotionGraph :=
  let g := fst (graph_add_node graph_new (lit "A") F32.zero b1) in
  let g := fst (graph_add_node g (lit "B") F32.zero b2) in
  let g := fst (graph_add_node g (lit "C") F32.zero b3) in
  let g := fst (graph_add_node g (lit "D") F32.zero b4) in
  let g := graph_add_edge g (lit "A") (lit "B") F32.one None in
  let g := graph_add_edge g (lit "B") (lit "C") F32.one None in
  graph_add_edge g (lit "C") (lit "D") F32.one None.

(** [2.85f] and [3.0f] *)
Definition c2_85 : float := Eval vm_compute in F32.of_ratio 285 100.
Definition three : float := Eval vm_compute in F32.of_Z 3.
Definition two : float := Eval vm_compute in F32.of_Z 2.

(** A triangle S - U - V at valence 1 (no valence discount), with
    S-U of weight 2, S-V of weight 3 and U-V of weight 2. *)
Definition detour : EmotionGraph :=
  let g := fst (graph_add_node graph_new (lit "S") F32.one five) in
  let g := fst (graph_add_node g (lit "U") F32.one five) in
  let g := fst (graph_add_node g (lit "V") F32.one five) in
  let g := graph_add_edge g (lit "S") (lit "U") two None in
  let g := graph_add_edge g (lit "S") (lit "V") three None in
  graph_add_edge g (lit "U") (lit "V") two None.

(** Two nodes and no edge. *)
Definition isolated : EmotionGraph :=
  fst (graph_add_node (fst (graph_add_node graph_new (lit "sad") neg_half five))
         (lit "calm") F32.zero five).

(** The state of the planner on [detour], started at S with goal V, at the
    moment it takes U and relaxes the edge U - V: dist = [0; 2; 3]. *)
Definition detour_state : dijkstra_state :=
  mkDS [F32.zero; two; three] [true; true; false] [None; Some 0%nat; Some 0%nat].

Definition detour_edge : Edge := mkEdge 2 two None.

(** ** Persistence: notions used by the statements *)

(** A character that is neither white space nor the double quote. *)
Definition plain (c : ascii) : Prop := isspace c = false ∧ c ≠ ch_quote.

(** A name that one [%47s] conversion reads back whole. *)
Definition good_name (nm : cstring) : Prop :=
  nm ≠ [] ∧ valid_name nm ∧ Forall plain nm.

(** The text after a field: the end of the line or a space. *)
Definition field_end (rest : cstring) : Prop :=
  rest = [] ∨ ∃ r, rest = ch_space :: r.

(** A line that one call of [fgets] reads whole. *)
Definition fits_line (l : cstring) : Prop := (length l ≤ MAX_LINE - 1)%nat.

(** A number after [%.3f] and [%f] ([strtof]), and after [%.3f] and
    [(float) atof]. *)
Definition reread (x : float) : float :=
  from_option fst F32.zero (scan_float (fmt3 x)).

Definition reread_atof (x : float) : float := double_to_float (atof (fmt3 x)).

(** The edges [save_graph] writes, in file order: those stored at their
    lower-index end. *)
Fixpoint saved_edges_from (i : nat) (ns : list EmotionNode) : list (nat * Edge) :=
  match ns with
  | [] => []
  | n :: ns' =>
      (pair i <$> filter (λ e, i < to e)%nat (edges n)) ++ saved_edges_from (S i) ns'
  end.

Definition saved_edges (g : EmotionGraph) : list (nat * Edge) :=
  saved_edges_from 0 g.

(** The two edges [graph_add_edge] stores when it reads a saved edge back:
    the weight goes through [%.3f], [%f] and the clamp; an absent procedure
    was written as two quote characters and comes back as the empty text. *)
Definition reloaded_forward (ie : nat * Edge) : Edge :=
  mkEdge (to ie.2) (clamp_weight (reread (weight ie.2)))
    (Some (default [] (procedure ie.2))).

Definition reloaded_mirror (ie : nat * Edge) : Edge :=
  mkEdge ie.1 (clamp_weight (reread (weight ie.2))) None.

(** What a saved edge puts into the edge list of node [k] on reload. *)
Definition reloaded_at (k : nat) (ie : nat * Edge) : list Edge :=
  (if decide (ie.1 = k) then [reloaded_forward ie] else []) ++
  (if decide (to ie.2 = k) then [reloaded_mirror ie] else []).

(** A node as its NODE and TIP records are read back. *)
Definition loaded_node (n : EmotionNode) : EmotionNode :=
  mkNode (name n) (reread_atof (valence n)) (reread_atof (baseline_intensity n))
    [] (tips n).

(** The graph a saved file is read back as. *)
Definition reload_image (g : EmotionGraph) : EmotionGraph :=
  imap (λ k n, mkNode (name n) (reread_atof (valence n))
                 (reread_atof (baseline_intensity n))
                 (saved_edges g ≫= reloaded_at k) (tips n)) g.

(** The file as the list of its lines. *)
Definition node_lines (n : EmotionNode) : list cstring :=
  node_line n :: (tip_line n <$> tips n).

Definition name_at (g : EmotionGraph) (i : nat) : cstring :=
  from_option name [] (g !! i).

Definition saved_edge_text (g : EmotionGraph) (ie : nat * Edge) : cstring :=
  edge_text (name_at g ie.1) (name_at g (to ie.2)) (weight ie.2) (procedure ie.2).

Definition proper_line (l : cstring) : Prop :=
  ∃ body, l = body ++ [ch_newline] ∧ (ch_newline ∉ body) ∧ fits_line l.

(** [graph_add_edge] on two nodes that exist, by their indices. *)
Definition add_edge_at (g : EmotionGraph) (u v : nat) (w : float)
    (proc : option cstring) : EmotionGraph :=
  alter (add_edge_to (mkEdge u (clamp_weight w) None)) v
    (alter (add_edge_to (mkEdge v (clamp_weight w) proc)) u g).

Definition add_saved_edge (g : EmotionGraph) (ie : nat * Edge) : EmotionGraph :=
  add_edge_at g ie.1 (to ie.2) (reread (weight ie.2))
    (Some (default [] (procedure ie.2))).

Definition all_procedures (g : EmotionGraph) : list (option cstring) :=
  procedure <$> (g ≫= edges).

(** What [save_graph] and [load_graph] need of a node and of a saved edge
    for the text to be read back record by record. *)
Definition tip_ok (n : EmotionNode) (t : cstring) : Prop :=
  (ch_newline ∉ t) ∧ fits_line (tip_line n t).

Definition node_ok (n : EmotionNode) : Prop :=
  good_name (name n) ∧ fits_line (node_line n) ∧ Forall (tip_ok n) (tips n).

Definition saved_edge_ok (g : EmotionGraph) (ie : nat * Edge) : Prop :=
  (to ie.2 < length g)%nat ∧
  forbidden (name_at g ie.1) (name_at g (to ie.2)) = false ∧
  fits_line (saved_edge_text g ie) ∧
  (ch_newline ∉ default [] (procedure ie.2)).

Definition persistable (g : EmotionGraph) : Prop :=
  NoDup (name <$> g) ∧ Forall node_ok g ∧ Forall (saved_edge_ok g) (saved_edges g).

Definition edges_at (g : EmotionGraph) (k : nat) : list Edge :=
  from_option edges [] (g !! k).

#[global] Instance plain_dec c : Decision (plain c).
Proof. unfold plain. apply _. Defined.

#[global] Instance good_name_dec nm : Decision (good_name nm).
Proof. unfold good_name, valid_name. apply _. Defined.

#[global] Instance fits_line_dec l : Decision (fits_line l).
Proof. unfold fits_line. apply _. Defined.

#[global] Instance tip_ok_dec n t : Decision (tip_ok n t).
Proof. unfold tip_ok. apply _. Defined.

#[global] Instance node_ok_dec n : Decision (node_ok n).
Proof. unfold node_ok. apply _. Defined.

#[global] Instance saved_edge_ok_dec g ie : Decision (saved_edge_ok g ie).
Proof. unfold saved_edge_ok. apply _. Defined.

#[global] Instance persistable_dec g : Decision (persistable g).
Proof. unfold persistable. apply _. Defined.

(** Built through the store: nodes a then b, then the edge b -> a with the
    procedure "walk"; the edge carrying the text sits at the higher index. *)
Definition back_edge : EmotionGraph :=
  let g := fst (graph_add_node graph_new (lit "a") F32.zero five) in
  let g := fst (graph_add_node g (lit "b") F32.zero five) in
  graph_add_edge g (lit "b") (lit "a") F32.one (Some (lit "walk")).


(** One edge a - b of weight 0.0004 with the procedure "walk". *)
Definition w0_0004 : float := Eval vm_compute in F32.of_ratio 4 10000.

Definition fine_weight : EmotionGraph :=
  graph_add_edge graph_new (lit "a") (lit "b") w0_0004 (Some (lit "walk")).

Definition all_weights (g : EmotionGraph) : list float :=
  weight <$> (g ≫= edges).

(** Nodes A and B at valence 0 joined by one unit edge without procedure. *)
Definition plain_pair : EmotionGraph :=
  let g := fst (graph_add_node graph_new (lit "A") F32.zero five) in
  let g := fst (graph_add_node g (lit "B") F32.zero five) in
  graph_add_edge g (lit "A") (lit "B") F32.one None.

(** [seed_defaults_if_empty] on the empty graph: the data the program starts
    with when there is no save file. *)
Definition seed_nodes : list (string * float * float) :=
  Eval vm_compute in
  [ ("overwhelmed", F32.of_ratio (-95) 100, F32.of_ratio 85 10);
    ("anxious", F32.of_ratio (-7) 10, F32.of_Z 7);
    ("frustrated", F32.of_ratio (-6) 10, F32.of_Z 6);
    ("angry", F32.of_ratio (-7) 10, F32.of_ratio 65 10);
    ("sad", F32.of_ratio (-8) 10, F32.of_Z 6);
    ("lonely", F32.of_ratio (-5) 10, F32.of_Z 5);
    ("grounded", F32.of_ratio (-1) 10, F32.of_Z 3);
    ("calm", F32.of_ratio 6 10, F32.of_Z 3);
    ("hopeful", F32.of_ratio 7 10, F32.of_ratio 25 10);
    ("happy", F32.of_Z 1, F32.of_ratio 15 10);
    ("peaceful", F32.of_ratio 9 10, F32.of_ratio 15 10) ]%string.

Definition seed_tips : list (string * string) :=
  [ ("overwhelmed", "Put your phone away and take 3 big slow breaths.");
    ("overwhelmed", "Try: press your feet firmly into the ground for 30 seconds.");
    ("anxious", "5 slow breaths (inhale 4s, hold 2s, exhale 6s).");
    ("anxious", "Name 5 things you can see right now.");
    ("frustrated", "Step away for 2 minutes and stretch.");
    ("frustrated", "Count backwards from 20 slowly.");
    ("angry", "Take a 60-second walk or do physical movement.");
    ("sad", "Write 3 small things that went okay today.");
    ("sad", "Call or message someone you trust - say 'I need a small favor'.");
    ("lonely", "Try a brief message to a friend or online community.");
    ("grounded", "Place an object in your hand and describe it slowly.");
    ("calm", "Listen to a favorite 3-minute song.");
    ("hopeful", "List one small goal for the next 24 hours.");
    ("happy", "Celebrate: do one small reward for yourself.");
    ("peaceful", "Try a 2-minute body scan relaxation.") ]%string.

Definition seed_edges : list (string * string * float * option string) :=
  Eval vm_compute in
  [ ("overwhelmed", "grounded", F32.of_Z 1, Some "5 grounding breaths & plant feet");
    ("grounded", "calm", F32.of_ratio 15 10, Some "2-minute breathing");
    ("calm", "happy", F32.of_ratio 15 10, Some "play a mood-lifting song");
    ("calm", "peaceful", F32.of_Z 1, Some "gentle stretching");
    ("anxious", "grounded", F32.of_ratio 12 10, Some "5 slow breaths");
    ("anxious", "frustrated", F32.of_ratio 18 10, None);
    ("frustrated", "calm", F32.of_ratio 15 10, Some "count to 10 and stretch");
    ("frustrated", "angry", F32.of_Z 2, Some "step away and breathe");
    ("angry", "grounded", F32.of_Z 2, Some "walk for 2 minutes");
    ("sad", "hopeful", F32.of_Z 2, Some "write 3 small wins");
    ("lonely", "hopeful", F32.of_ratio 25 10, Some "reach out to one person");
    ("anxious", "sad", F32.of_ratio 17 10, None);
    ("sad", "calm", F32.of_ratio 25 10, Some "sit with feelings and breathe");
    ("hopeful", "happy", F32.of_Z 1, None) ]%string.

Definition seed_defaults : EmotionGraph :=
  let g := foldl (λ g '(nm, v, b), fst (graph_add_node g (lit nm) v b))
             graph_new seed_nodes in
  let g := foldl (λ g '(nm, t), graph_add_tip g (lit nm) (lit t)) g seed_tips in
  foldl (λ g '(a, b, w, pr), graph_add_edge g (lit a) (lit b) w (lit <$> pr))
    g seed_edges.

(** ** Store invariants *)

(** Every stored name fits the name buffer. *)
Definition names_bounded (g : EmotionGraph) : Prop :=
  Forall (λ n, valid_name (name n)) g.

Definition store_inv (g : EmotionGraph) : Prop := graph_wf g ∧ names_bounded g.

#[global] Instance spec_float_eq_dec : EqDecision spec_float.
Proof. solve_decision. Defined.

(** How many edges of node [u] point at [v] with stored weight [w]. *)
Definition link_count (g : EmotionGraph) (u v : nat) (w : float) : nat :=
  length (filter (λ e, to e = v ∧ weight e = w) (edges_at g u)).

(** Every edge has as many mirror images as copies. *)
Definition mirrored (g : EmotionGraph) : Prop :=
  ∀ u v w, link_count g u v w = link_count g v u w.

(** [k] calls of [graph_add_node] with the same name in a row. *)
Definition add_node_times (k : nat) (g : EmotionGraph) (nm : cstring)
    (val base : float) : EmotionGraph :=
  Nat.iter k (λ g, (graph_add_node g nm val base).1) g.

(** The edges that [graph_add_edge] appends to node [k] when its endpoints
    have the indices [u] and [v]. *)
Definition added_at (u v : nat) (w : float) (proc : option cstring) (k : nat)
  : list Edge :=
  (if decide (u = k) then [mkEdge v (clamp_weight w) proc] else []) ++
  (if decide (v = k) then [mkEdge u (clamp_weight w) None] else []).

(** The node [graph_add_edge] and [graph_add_tip] create for a name that is
    not in the graph. *)
Definition fresh_node (nm : cstring) (val : float) : EmotionNode :=
  mkNode (take (MAX_NAME_LEN - 1) nm) val five [] [].

(** A graph extends another: the same nodes at the same indices, with the
    same name, and with tips and edges only added at the end. *)
Definition node_extends (n n' : EmotionNode) : Prop :=
  name n' = name n ∧ tips n `prefix_of` tips n' ∧ edges n `prefix_of` edges n'.

Definition graph_extends (g g' : EmotionGraph) : Prop :=
  (length g ≤ length g')%nat ∧
  ∀ i n, g !! i = Some n → ∃ n', g' !! i = Some n' ∧ node_extends n n'.

(** ** Reading the keyboard *)

(** [read_line_trim(buf, size)] on the characters [stdin] still to read:
    the content of [buf] and what is left of the input.  At the end of the
    input [fgets] returns NULL and [buf] is the empty string. *)
Definition read_line_trim (size : nat) (stdin : cstring) : cstring * cstring :=
  match stdin with
  | [] => ([], [])
  | _ :: _ =>
      let '(line, rest) := fgets (size - 1) stdin in
      (skip_ws (chomp line), rest)
  end.

(** [sscanf(buf, "%d", &val)]: white space, an optional sign, decimal
    digits.  [Some (Some v)] is the return value 1 with [val = v];
    [Some None] is any other return value; a number that [int] cannot hold
    is undefined, which is [None]. *)
Definition INT_MAX : Z := 2147483647.
Definition INT_MIN : Z := -2147483648.

Definition sscanf_d (buf : cstring) : option (option Z) :=
  let '(neg, s1) := scan_sign (skip_ws buf) in
  let '(ds, _) := span_digits s1 in
  if bool_decide (ds = []) then Some None
  else
    let v := if (neg : bool) then (- Z.of_N (N_of_digits ds))%Z
             else Z.of_N (N_of_digits ds) in
    if bool_decide (INT_MIN ≤ v ∧ v ≤ INT_MAX) then Some (Some v) else None.

(** How [read_int_in_range] ends within a number of rounds of its
    [while (1)]: it returns, it runs into undefined behaviour, or it is
    still asking. *)
Inductive outcome :=
  | Returned (val : Z) (rest : cstring)
  | Undefined
  | Asking.

Fixpoint read_int_in_range (rounds : nat) (lo hi : Z) (stdin : cstring) : outcome :=
  match rounds with
  | O => Asking
  | S k =>
      let '(buf, rest) := read_line_trim 128 stdin in
      match sscanf_d buf with
      | None => Undefined
      | Some (Some val) =>
          if bool_decide (lo ≤ val ∧ val ≤ hi) then Returned val rest
          else read_int_in_range k lo hi rest
      | Some None => read_int_in_range k lo hi rest
      end
  end.

(** ** Menu option 5: add or edit the action of a transition *)

(** [(strlen(proc_buf) > 0) ? proc_buf : NULL] *)
Definition entered (buf : cstring) : option cstring :=
  if bool_decide (buf = []) then None else Some buf.

(** [yn[0] == 'y' || yn[0] == 'Y'] *)
Definition says_yes (yn : cstring) : bool :=
  match yn with
  | c :: _ => bool_decide (c = "y"%char ∨ c = "Y"%char)
  | [] => false
  end.

(** [for (e...) if (nu->edges[e].to == v) { found = e; break; }] *)
Definition find_edge (es : list Edge) (v : nat) : option nat :=
  fst <$> list_find (λ e, to e = v) es.

(** The old procedure is freed and replaced by the new one. *)
Definition set_procedure (proc : option cstring) (e : Edge) : Edge :=
  mkEdge (to e) (weight e) proc.

Definition edit_edge (found : nat) (proc : option cstring) (n : EmotionNode)
  : EmotionNode :=
  mkNode (name n) (valence n) (baseline_intensity n)
    (alter (set_procedure proc) found (edges n)) (tips n).

Definition grounded : cstring := lit "grounded".
Definition grounding_action : cstring := lit "5 grounding breaths & plant feet".
(** [1.5f] *)
Definition c1_5 : float := Eval vm_compute in F32.of_ratio 15 10.

(** The branch [choice == 5] of [interactive_menu] once the lines are read:
    [from] and [to_] are the two names, [yn] the answer to the question asked
    for a blocked pair, [w] the difficulty and [proc_buf] the action typed
    (the last three are read only on the branches that use them). *)
Definition menu_action (g : EmotionGraph) (from to_ yn : cstring) (w : Z)
    (proc_buf : cstring) : option EmotionGraph :=
  if bool_decide (from = [] ∨ to_ = []) then Some g
  else if streq from overwhelmed && is_positive_goal_name to_ then
    if says_yes yn then
      let g1 := graph_add_edge g overwhelmed grounded F32.one (Some grounding_action) in
      Some (graph_add_edge g1 grounded to_ c1_5 None)
    else Some g
  else
    let '(g1, u) := find_or_add g from neg_fifth five in
    let '(g2, v) := find_or_add g1 to_ neg_fifth five in
    nu ← g2 !! u;
    match find_edge (edges nu) v with
    | None => Some (graph_add_edge g2 from to_ (F32.of_Z w) (entered proc_buf))
    | Some found => Some (alter (edit_edge found (entered proc_buf)) u g2)
    end.

(** ** Menu options 1 and 2: from an emotion to a plan *)

(** [0.9f] *)
Definition c0_9 : float := Eval vm_compute in F32.of_ratio 9 10.

(** The array [goals] of the menu. *)
Definition goal_names : list cstring :=
  [lit "happy"; lit "calm"; lit "peaceful"; lit "hopeful"].

(** [graph_find] as the C integer it returns. *)
Definition index_of (g : EmotionGraph) (nm : cstring) : Z :=
  from_option Z.of_nat (-1) (graph_find g nm).

(** [if (graph_find(g, nm) == -1) graph_add_node(g, nm, val, base);] *)
Definition ensure_node (g : EmotionGraph) (nm : cstring) (val base : float)
  : EmotionGraph :=
  match graph_find g nm with
  | None => (graph_add_node g nm val base).1
  | Some _ => g
  end.

(** One round of the loop that fills [goal_idx]. *)
Definition ensure_goal (acc : EmotionGraph * list Z) (nm : cstring)
  : EmotionGraph * list Z :=
  let g := ensure_node acc.1 nm c0_9 two in
  (g, acc.2 ++ [index_of g nm]).

(** What options 1 and 2 do once the emotion [emo] is known ([base] is the
    baseline given to a node created for it): the graph afterwards and the
    result of the goal loop. *)
Definition menu_plan (g : EmotionGraph) (emo : cstring) (base : float)
  : EmotionGraph * option (float * option Z * list nat) :=
  let g1 := ensure_node g emo neg_fifth base in
  let src_idx := index_of g1 emo in
  let '(g2, goal_idx) := foldl ensure_goal (g1, []) goal_names in
  (g2, plan_route g2 src_idx goal_idx).

(** ** Assessment prototypes *)

Record Prototype := mkPrototype {
  proto_name : cstring;
  stress : float;
  overwhelm : float;
  anger : float;
  sadness : float
}.

(** [ds*ds + doo*doo + da*da + dsd*dsd], each operation rounded to binary32. *)
Definition proto_dist (s o a sd : float) (p : Prototype) : float :=
  let ds := F32.sub s (stress p) in
  let doo := F32.sub o (overwhelm p) in
  let da := F32.sub a (anger p) in
  let dsd := F32.sub sd (sadness p) in
  F32.add (F32.add (F32.add (F32.mul ds ds) (F32.mul doo doo)) (F32.mul da da))
          (F32.mul dsd dsd).

(** The loop of [choose_closest_prototype] at index [i], with the prototypes
    [protos] still to look at. *)
Fixpoint choose_loop (s o a sd : float) (protos : list Prototype) (i : nat)
    (bestd : float) (best : nat) : nat :=
  match protos with
  | [] => best
  | p :: rest =>
      let d := proto_dist s o a sd p in
      if F32.ltb d bestd then choose_loop s o a sd rest (S i) d i
      else choose_loop s o a sd rest (S i) bestd best
  end.

(** [protos] holds the [pcount] prototypes of the array. *)
Definition choose_closest_prototype (s o a sd : float) (protos : list Prototype)
  : nat :=
  choose_loop s o a sd protos 0 F32.FLT_MAX 0.

(** ** Planner: routes and the invariant of the main loop *)

(** What the planner charges for the edge [e]: its weight adjusted for the
    node it enters. *)
Definition edge_cost (g : EmotionGraph) (e : Edge) : float :=
  from_option (λ nv, adjusted_weight nv e) F32.zero (g !! (to e)).

(** [dist[u] + w] accumulated from [0.0f] along the edges [es], in order. *)
Definition route_cost (g : EmotionGraph) (es : list Edge) : float :=
  foldl (λ d e, F32.add d (edge_cost g e)) F32.zero es.

(** The nodes met when walking from [s] along [es]. *)
Definition route_nodes (s : nat) (es : list Edge) : list nat := s :: (to <$> es).

(** [route g s v es]: [es] is a chain of stored edges leading from [s] to [v]. *)
Inductive route (g : EmotionGraph) (s : nat) : nat → list Edge → Prop :=
  | route_nil : route g s s []
  | route_snoc u nu es e :
      route g s u es → g !! u = Some nu → e ∈ edges nu →
      route g s (to e) (es ++ [e]).

(** [tr v] is the route along which [dist[v]] was computed, when [v] has been
    given a cost.  The route ends at [v], [dist[v]] is its cost, its nodes are
    distinct and all visited except possibly [v], and [prev[v]] is the node
    before [v] on it. *)
Definition route_ok (g : EmotionGraph) (s : nat) (st : dijkstra_state)
    (tr : nat → option (list Edge)) (v : nat) (es : list Edge) : Prop :=
  route g s v es ∧
  dist st !! v = Some (route_cost g es) ∧
  NoDup (route_nodes s es) ∧
  (∀ x, x ∈ route_nodes s es → x ≠ v → visited st !! x = Some true) ∧
  (es = [] → prev st !! v = Some None) ∧
  (∀ es0 e, es = es0 ++ [e] →
     ∃ u, prev st !! v = Some (Some u) ∧ tr u = Some es0 ∧
          visited st !! u = Some true).

Definition planner_inv (g : EmotionGraph) (s : nat) (st : dijkstra_state)
    (tr : nat → option (list Edge)) : Prop :=
  length (dist st) = length g ∧ length (visited st) = length g ∧
  length (prev st) = length g ∧
  (∀ v d, dist st !! v = Some d → d = F32.FLT_MAX ∨ is_Some (tr v)) ∧
  (∀ v es, tr v = Some es → route_ok g s st tr v es) ∧
  tr s = Some [] ∧
  (visited st !! s = Some true ∨ ∀ v, v ≠ s → tr v = None).

(** ** Numbers as rationals: notions used by the round-trip statements *)

(** [2^e] as a rational. *)
Definition bpow (e : Z) : Q := (2 ^ e)%Q.

(** Where the real [t] lies between the integers [m] and [m + 1], as the
    rounding functions of [SpecFloat] record it. *)
Definition inbetween (m : Z) (l : location) (t : Q) : Prop :=
  match l with
  | loc_Exact => (t == inject_Z m)%Q
  | loc_Inexact Lt => (inject_Z m < t ∧ t < inject_Z m + (1 # 2))%Q
  | loc_Inexact Eq => (t == inject_Z m + (1 # 2))%Q
  | loc_Inexact Gt => (inject_Z m + (1 # 2) < t ∧ t < inject_Z m + 1)%Q
  end.

(** [T] is [z] rounded to the nearest integer, ties to even. *)
Definition nearest_even (z : Q) (T : Z) : Prop :=
  (Qabs (z - inject_Z T) < 1 # 2)%Q ∨
  ((Qabs (z - inject_Z T) == 1 # 2)%Q ∧ Z.even T = true).

(** The number a finite [float] stands for: the mantissa times [2^e], with
    its sign; 0 for the values that are no number. *)
Definition float_value (x : float) : Q :=
  match x with
  | S754_finite s m e => (if s then -1 else 1) * (inject_Z (Zpos m) * bpow e)
  | _ => 0
  end.

(** The numeral [%.3f] prints for [x]. *)
Definition printed_numeral (x : float) : numeral :=
  match x with
  | S754_nan => Num_nan
  | S754_infinity s => Num_inf s
  | S754_zero s => Num_dec s 0 (-3)
  | S754_finite s m e => Num_dec s (thousandths m e) (-3)
  end.

(** A value of the C type [float]: a finite value has a mantissa of at most
    24 bits and an exponent in the range of binary32, as [SpecFloat] keeps
    them. *)
Definition is_binary32 (x : float) : Prop :=
  valid_binary F32.prec F32.emax x = true.

(** Every valence, baseline and weight of the graph is a [float]. *)
Definition binary32_numbers (g : EmotionGraph) : Prop :=
  Forall (λ n, is_binary32 (valence n) ∧ is_binary32 (baseline_intensity n) ∧
               Forall (λ e, is_binary32 (weight e)) (edges n)) g.

#[global] Instance is_binary32_dec x : Decision (is_binary32 x).
Proof. unfold is_binary32. apply _. Defined.

#[global] Instance binary32_numbers_dec g : Decision (binary32_numbers g).
Proof. unfold binary32_numbers. apply _. Defined.

(** [x] and [y] are the same up to rounding at three decimals: [%.3f]
    prints the same text for both, so both are NaN, or the same infinity, or
    numbers at most 0.001 apart. *)
Definition same_to_3_decimals (x y : float) : Prop :=
  fmt3 x = fmt3 y ∧ (Qabs (float_value x - float_value y) <= 1 # 1000)%Q.




(** * Graph store: lemmas *)

Section graph_lemmas.
Implicit Types (g : EmotionGraph) (nm : cstring) (n : EmotionNode) (e : Edge).

Lemma streq_true a b : streq a b = true ↔ a = b.
Proof. unfold streq. by rewrite bool_decide_eq_true. Qed.

Lemma is_positive_goal_name_spec nm :
  is_positive_goal_name nm = true ↔ nm ∈ positive_goals.
Proof.
  unfold is_positive_goal_name. rewrite existsb_exists. split.
  - intros (x & Hin & Heq). apply streq_true in Heq. subst.
    by apply list_elem_of_In.
  - intros Hin. exists nm. split; [by apply list_elem_of_In | by apply streq_true].
Qed.

Lemma graph_find_cons g n nm :
  graph_find (n :: g) nm =
  if decide (name n = nm) then Some O else S <$> graph_find g nm.
Proof.
  unfold graph_find. simpl. case_decide; [done|].
  by destruct (list_find _ g) as [[??]|].
Qed.

Lemma graph_find_same_names g g' nm :
  name <$> g = name <$> g' → graph_find g nm = graph_find g' nm.
Proof.
  revert g'. induction g as [|n g IH]; intros [|n' g'] [=]; [done|].
  rewrite !graph_find_cons. rewrite (IH g') by done.
  repeat case_decide; congruence.
Qed.

Lemma graph_find_Some g nm i :
  graph_find g nm = Some i ↔
  ∃ n, g !! i = Some n ∧ name n = nm ∧
       ∀ j m, g !! j = Some m → (j < i)%nat → name m ≠ nm.
Proof.
  unfold graph_find. split.
  - destruct (list_find _ g) as [[j n]|] eqn:E; [|done].
    intros [= <-]. apply list_find_Some in E as (E1 & E2 & E3).
    exists n. split_and!; [done|done|]. intros k m Hk Hlt. by apply (E3 k m).
  - intros (n & H1 & H2 & H3).
    assert (list_find (λ n, name n = nm) g = Some (i, n)) as ->; [|done].
    apply list_find_Some. split_and!; [done|done|].
    intros k m Hk Hlt. by apply (H3 k m).
Qed.

Lemma graph_find_None g nm :
  graph_find g nm = None ↔ ∀ n, n ∈ g → name n ≠ nm.
Proof.
  unfold graph_find. destruct (list_find _ g) as [[j n]|] eqn:E; simpl.
  - split; [done|]. intros H. apply list_find_Some in E as (E1 & E2 & _).
    exfalso. eapply H; [|done]. by eapply list_elem_of_lookup_2.
  - split; [|done]. intros _. apply list_find_None in E.
    intros n Hin. by eapply Forall_forall in E.
Qed.

Lemma graph_find_lt g nm i : graph_find g nm = Some i → (i < length g)%nat.
Proof.
  intros (n & H & _)%graph_find_Some. by eapply lookup_lt_Some.
Qed.

Lemma graph_find_snoc g n nm :
  graph_find (g ++ [n]) nm =
  match graph_find g nm with
  | Some i => Some i
  | None => if decide (name n = nm) then Some (length g) else None
  end.
Proof.
  destruct (graph_find g nm) as [i|] eqn:E.
  - apply graph_find_Some in E as (m & H1 & H2 & H3).
    apply graph_find_Some. exists m. split_and!; [by apply lookup_app_l_Some|done|].
    intros j m' Hj Hlt. apply (H3 j m'); [|done].
    rewrite lookup_app_l in Hj; [done|].
    apply lookup_lt_Some in H1. lia.
  - pose proof (proj1 (graph_find_None _ _) E) as HN. case_decide as Hn.
    + apply graph_find_Some. exists n. split_and!; [|done|].
      * by rewrite lookup_app_r, Nat.sub_diag by lia.
      * intros j m Hj Hlt. rewrite lookup_app_l in Hj by done.
        apply HN. by eapply list_elem_of_lookup_2.
    + apply graph_find_None. intros m [Hm|Hm%list_elem_of_singleton]%elem_of_app;
        [by apply HN | by subst].
Qed.

Lemma names_alter_edge g e i :
  name <$> alter (add_edge_to e) i g = name <$> g.
Proof.
  apply list_eq. intros j. rewrite !list_lookup_fmap.
  destruct (decide (i = j)) as [->|Hne].
  - rewrite list_lookup_alter_eq. by destruct (g !! j).
  - by rewrite list_lookup_alter_ne.
Qed.

Lemma names_alter_tip g t i :
  name <$> alter (add_tip_to t) i g = name <$> g.
Proof.
  apply list_eq. intros j. rewrite !list_lookup_fmap.
  destruct (decide (i = j)) as [->|Hne].
  - rewrite list_lookup_alter_eq. by destruct (g !! j).
  - by rewrite list_lookup_alter_ne.
Qed.

(** What [find_or_add] returns for a name that fits the name buffer. *)
Lemma find_or_add_cases g nm val base :
  valid_name nm →
  (graph_find g nm = None ∧
   find_or_add g nm val base = (g ++ [mkNode nm val base [] []], length g)) ∨
  (∃ i, graph_find g nm = Some i ∧ find_or_add g nm val base = (g, i)).
Proof.
  intros Hv. unfold find_or_add, graph_add_node.
  destruct (graph_find g nm) as [i|] eqn:E; [right; eauto|left].
  split; [done|]. rewrite take_ge; [done|].
  unfold valid_name, MAX_NAME_LEN in *. lia.
Qed.

Lemma find_or_add_find g nm val base g' i :
  valid_name nm → find_or_add g nm val base = (g', i) →
  graph_find g' nm = Some i.
Proof.
  intros Hv H. destruct (find_or_add_cases g nm val base Hv)
    as [[E1 E2]|(j & E1 & E2)]; rewrite E2 in H; simplify_eq; [|done].
  rewrite graph_find_snoc, E1. simpl. by rewrite decide_True.
Qed.

Lemma find_or_add_node_of g nm val base g' i nm' :
  valid_name nm → find_or_add g nm val base = (g', i) →
  from_option edges [] (node_of g' nm') = from_option edges [] (node_of g nm') ∧
  from_option tips [] (node_of g' nm') = from_option tips [] (node_of g nm') ∧
  (∀ j, graph_find g nm' = Some j → graph_find g' nm' = Some j).
Proof.
  intros Hv H. destruct (find_or_add_cases g nm val base Hv)
    as [[E1 E2]|(j & E1 & E2)]; rewrite E2 in H; simplify_eq; [|done].
  unfold node_of. rewrite graph_find_snoc.
  destruct (graph_find g nm') as [j|] eqn:E; simpl.
  - rewrite lookup_app_l by by eapply graph_find_lt. naive_solver.
  - case_decide; simpl; [|done].
    by rewrite lookup_app_r, Nat.sub_diag by lia.
Qed.

Lemma node_of_graph_find g nm i n :
  graph_find g nm = Some i → g !! i = Some n → node_of g nm = Some n.
Proof. unfold node_of. intros -> H. done. Qed.

(** The edge lists after a call that is not refused: the forward edge is
    appended to the source node and the mirror edge to the target node. *)
Lemma graph_add_edge_edges g A B w proc :
  valid_name A → valid_name B → forbidden A B = false →
  ∃ u v,
    graph_find (graph_add_edge g A B w proc) A = Some u ∧
    graph_find (graph_add_edge g A B w proc) B = Some v ∧
    (∀ i, graph_find g A = Some i → i = u) ∧
    (∀ i, graph_find g B = Some i → i = v) ∧
    (A = B ↔ u = v) ∧
    edges_of (graph_add_edge g A B w proc) A =
      edges_of g A ++ mkEdge v (clamp_weight w) proc ::
        (if decide (A = B) then [mkEdge u (clamp_weight w) None] else []) ∧
    edges_of (graph_add_edge g A B w proc) B =
      edges_of g B ++
        (if decide (A = B) then [mkEdge v (clamp_weight w) proc] else []) ++
        [mkEdge u (clamp_weight w) None] ∧
    (∀ C, C ≠ A → C ≠ B →
       edges_of (graph_add_edge g A B w proc) C = edges_of g C).
Proof.
  intros HA HB Hf. unfold graph_add_edge. fold (forbidden A B). rewrite Hf.
  destruct (find_or_add g A neg_half five) as [g1 u] eqn:E1.
  destruct (find_or_add g1 B F32.zero five) as [g2 v] eqn:E2.
  pose proof (find_or_add_find _ _ _ _ _ _ HA E1) as Fu1.
  pose proof (find_or_add_find _ _ _ _ _ _ HB E2) as Fv.
  pose proof (λ nm', find_or_add_node_of _ _ _ _ _ _ nm' HA E1) as K1.
  pose proof (λ nm', find_or_add_node_of _ _ _ _ _ _ nm' HB E2) as K2.
  pose proof (proj2 (proj2 (K2 A)) _ Fu1) as Fu.
  set (fwd := mkEdge v (clamp_weight w) proc).
  set (rv := mkEdge u (clamp_weight w) None).
  set (g' := alter (add_edge_to rv) v (alter (add_edge_to fwd) u g2)).
  assert (∀ nm, graph_find g' nm = graph_find g2 nm) as Hfind.
  { intros nm. apply graph_find_same_names. unfold g'.
    by rewrite !names_alter_edge. }
  assert (A = B ↔ u = v) as Huv.
  { split; [intros ->; congruence|intros ->].
    apply graph_find_Some in Fu as (n & ? & ? & _).
    apply graph_find_Some in Fv as (n' & ? & ? & _). congruence. }
  assert (∀ nm i, graph_find g2 nm = Some i →
            edges_of g' nm = edges_of g2 nm ++
              (if decide (i = u) then [fwd] else []) ++
              (if decide (i = v) then [rv] else [])) as Hed.
  { intros nm i Hi. unfold edges_of, node_of. rewrite Hfind, Hi. simpl.
    destruct (g2 !! i) as [n|] eqn:En;
      [|by apply graph_find_lt, lookup_lt_is_Some in Hi as [? ?]; congruence].
    unfold g'. destruct (decide (i = v)) as [->|Hv].
    - rewrite list_lookup_alter_eq. destruct (decide (v = u)) as [->|Hu].
      + rewrite list_lookup_alter_eq, En. simpl. by rewrite <-app_assoc.
      + rewrite list_lookup_alter_ne, En by done. done.
    - rewrite list_lookup_alter_ne by done. destruct (decide (i = u)) as [->|Hu].
      + rewrite list_lookup_alter_eq, En. by simpl.
      + rewrite list_lookup_alter_ne, En by done. simpl. by rewrite !app_nil_r. }
  assert (∀ nm, edges_of g2 nm = edges_of g nm) as Hold.
  { intros nm. unfold edges_of.
    rewrite (proj1 (K2 nm)). apply (proj1 (K1 nm)). }
  exists u, v. fold g'. split_and!.
  - by rewrite Hfind.
  - by rewrite Hfind.
  - intros i Hi. apply (proj2 (proj2 (K1 A))) in Hi. congruence.
  - intros i Hi. apply (proj2 (proj2 (K1 B))), (proj2 (proj2 (K2 B))) in Hi.
    congruence.
  - done.
  - rewrite (Hed A u Fu), Hold, decide_True by done.
    destruct (decide (A = B)) as [HAB|HAB].
    + by rewrite decide_True by by apply Huv.
    + rewrite decide_False by (intros ->; by apply HAB, Huv). done.
  - rewrite (Hed B v Fv), Hold, (decide_True (P := v = v)) by done.
    destruct (decide (A = B)) as [HAB|HAB].
    + by rewrite decide_True by (symmetry; by apply Huv).
    + rewrite decide_False by (intros ->; by apply HAB, Huv). done.
  - intros C HCA HCB. destruct (graph_find g2 C) as [i|] eqn:EC.
    + rewrite (Hed C i EC), Hold.
      rewrite !decide_False, app_nil_r; [done| |].
      * intros ->. apply HCB.
        apply graph_find_Some in EC as (n & ? & ? & _).
        apply graph_find_Some in Fv as (n' & ? & ? & _). congruence.
      * intros ->. apply HCA.
        apply graph_find_Some in EC as (n & ? & ? & _).
        apply graph_find_Some in Fu as (n' & ? & ? & _). congruence.
    + rewrite <-Hold. unfold edges_of, node_of. by rewrite Hfind, EC.
Qed.

Lemma forbidden_spec A B :
  forbidden A B = true ↔ A = overwhelmed ∧ B ∈ positive_goals.
Proof.
  unfold forbidden. rewrite andb_true_iff, streq_true.
  by rewrite is_positive_goal_name_spec.
Qed.

Lemma positive_goal_not_overwhelmed P : P ∈ positive_goals → P ≠ overwhelmed.
Proof.
  unfold positive_goals. rewrite !elem_of_cons, elem_of_nil.
  intros [->|[->|[->|[->|[]]]]]; by vm_compute.
Qed.

Lemma positive_goal_valid P : P ∈ positive_goals → valid_name P.
Proof.
  unfold positive_goals. rewrite !elem_of_cons, elem_of_nil.
  intros [->|[->|[->|[->|[]]]]]; vm_compute; lia.
Qed.
End graph_lemmas.

(** * Graph store: the edge-creation policy *)

Section add_edge_claims.
Implicit Types (g : EmotionGraph) (w : float) (proc : option cstring).

Lemma clamp_weight_not_negative w : F32.ltb (clamp_weight w) F32.zero = false.
Proof.
  unfold clamp_weight. destruct (F32.ltb w F32.zero) eqn:E; [done|exact E].
Qed.

(** C4. A call with source "overwhelmed" and a target in
    {happy, calm, hopeful, peaceful} returns the graph unchanged: no edge in
    either direction, the same edge count, and no endpoint is created. *)
Theorem forbidden_transition_is_noop g to_ w proc :
  to_ ∈ positive_goals →
  graph_add_edge g overwhelmed to_ w proc = g ∧
  edge_count (graph_add_edge g overwhelmed to_ w proc) = edge_count g ∧
  length (graph_add_edge g overwhelmed to_ w proc) = length g ∧
  graph_find (graph_add_edge g overwhelmed to_ w proc) overwhelmed
    = graph_find g overwhelmed ∧
  graph_find (graph_add_edge g overwhelmed to_ w proc) to_ = graph_find g to_ ∧
  edges_of (graph_add_edge g overwhelmed to_ w proc) overwhelmed
    = edges_of g overwhelmed ∧
  edges_of (graph_add_edge g overwhelmed to_ w proc) to_ = edges_of g to_.
Proof.
  intros Hin.
  assert (graph_add_edge g overwhelmed to_ w proc = g) as ->; [|done].
  unfold graph_add_edge. fold (forbidden overwhelmed to_).
  by rewrite (proj2 (forbidden_spec _ _) (conj eq_refl Hin)).
Qed.

Lemma forbidden_transition_is_noop_witness :
  graph_add_edge [] overwhelmed (lit "happy") F32.one (Some (lit "sing")) = [].
Proof.
  apply (forbidden_transition_is_noop [] (lit "happy") F32.one (Some (lit "sing"))).
  apply is_positive_goal_name_spec. reflexivity.
Defined.

(** C5. For names that fit the name buffer and a pair the policy does not
    refuse, the call appends the forward edge A→B (with the procedure) to A's
    edge list and the reverse edge B→A (without procedure) to B's, both with
    the weight clamped at zero; a weight of -5 is stored as 0. *)
Theorem add_edge_mirrors_with_clamped_weight g A B w proc :
  valid_name A → valid_name B → forbidden A B = false →
  ∃ u v,
    graph_find (graph_add_edge g A B w proc) A = Some u ∧
    graph_find (graph_add_edge g A B w proc) B = Some v ∧
    edges_of (graph_add_edge g A B w proc) A =
      edges_of g A ++ mkEdge v (clamp_weight w) proc ::
        (if decide (A = B) then [mkEdge u (clamp_weight w) None] else []) ∧
    edges_of (graph_add_edge g A B w proc) B =
      edges_of g B ++
        (if decide (A = B) then [mkEdge v (clamp_weight w) proc] else []) ++
        [mkEdge u (clamp_weight w) None] ∧
    clamp_weight w = (if F32.ltb w F32.zero then F32.zero else w) ∧
    F32.ltb (clamp_weight w) F32.zero = false ∧
    clamp_weight (F32.of_Z (-5)) = F32.zero.
Proof.
  intros HA HB Hf.
  destruct (graph_add_edge_edges g A B w proc HA HB Hf)
    as (u & v & Hu & Hv & _ & _ & _ & EA & EB & _).
  exists u, v. split_and!; try done. apply clamp_weight_not_negative.
Qed.

Lemma add_edge_mirrors_with_clamped_weight_witness :
  ∃ u v,
    graph_find (graph_add_edge [] (lit "sad") (lit "calm") (F32.of_Z (-5)) None)
      (lit "sad") = Some u ∧
    graph_find (graph_add_edge [] (lit "sad") (lit "calm") (F32.of_Z (-5)) None)
      (lit "calm") = Some v ∧
    edges_of (graph_add_edge [] (lit "sad") (lit "calm") (F32.of_Z (-5)) None)
      (lit "calm") = [mkEdge u F32.zero None].
Proof.
  destruct (add_edge_mirrors_with_clamped_weight [] (lit "sad") (lit "calm")
              (F32.of_Z (-5)) None)
    as (u & v & Hu & Hv & _ & EB & _ & _ & Hc).
  - vm_compute. lia.
  - vm_compute. lia.
  - reflexivity.
  - exists u, v. split_and!; [done|done|]. rewrite EB, Hc. reflexivity.
Defined.

(** C9. With the roles swapped the policy check does not fire: for P in
    {happy, calm, hopeful, peaceful} the call from P to "overwhelmed" appends
    P→overwhelmed and, as its mirror, the direct edge overwhelmed→P with the
    same clamped weight and no procedure. *)
Theorem mirror_edge_bypasses_policy g P w proc :
  P ∈ positive_goals →
  forbidden overwhelmed P = true ∧ forbidden P overwhelmed = false ∧
  ∃ u v,
    graph_find (graph_add_edge g P overwhelmed w proc) P = Some u ∧
    graph_find (graph_add_edge g P overwhelmed w proc) overwhelmed = Some v ∧
    edges_of (graph_add_edge g P overwhelmed w proc) P =
      edges_of g P ++ [mkEdge v (clamp_weight w) proc] ∧
    edges_of (graph_add_edge g P overwhelmed w proc) overwhelmed =
      edges_of g overwhelmed ++ [mkEdge u (clamp_weight w) None].
Proof.
  intros HP. pose proof (positive_goal_not_overwhelmed P HP) as Hne.
  assert (forbidden P overwhelmed = false) as Hf.
  { apply not_true_is_false. rewrite forbidden_spec. by intros [? _]. }
  split; [by apply forbidden_spec|]. split; [done|].
  destruct (graph_add_edge_edges g P overwhelmed w proc) as
    (u & v & Hu & Hv & _ & _ & _ & EA & EB & _);
    [by apply positive_goal_valid|vm_compute; lia|done|].
  exists u, v. rewrite decide_False in EA, EB by done. done.
Qed.

Lemma mirror_edge_bypasses_policy_witness :
  ∃ u v,
    graph_find (graph_add_edge [] (lit "calm") overwhelmed F32.one None)
      (lit "calm") = Some u ∧
    graph_find (graph_add_edge [] (lit "calm") overwhelmed F32.one None)
      overwhelmed = Some v ∧
    edges_of (graph_add_edge [] (lit "calm") overwhelmed F32.one None) overwhelmed
      = edges_of [] overwhelmed ++ [mkEdge u (clamp_weight F32.one) None].
Proof.
  destruct (mirror_edge_bypasses_policy [] (lit "calm") F32.one None)
    as (_ & _ & u & v & Hu & Hv & _ & E).
  - apply is_positive_goal_name_spec. reflexivity.
  - exists u, v. done.
Defined.

Lemma join_replicate_S_end {A} n (l : list A) :
  mjoin (replicate (S n) l) = mjoin (replicate n l) ++ l.
Proof.
  induction n as [|n IH]; simpl in *; [by rewrite app_nil_r|].
  rewrite <-app_assoc. f_equal. exact IH.
Qed.

Lemma add_edge_times_found n g A B w proc u v :
  valid_name A → valid_name B → forbidden A B = false →
  graph_find g A = Some u → graph_find g B = Some v →
  graph_find (add_edge_times n g A B w proc) A = Some u ∧
  graph_find (add_edge_times n g A B w proc) B = Some v ∧
  edges_of (add_edge_times n g A B w proc) A =
    edges_of g A ++ mjoin (replicate n
      (mkEdge v (clamp_weight w) proc ::
        (if decide (A = B) then [mkEdge u (clamp_weight w) None] else []))) ∧
  edges_of (add_edge_times n g A B w proc) B =
    edges_of g B ++ mjoin (replicate n
      ((if decide (A = B) then [mkEdge v (clamp_weight w) proc] else []) ++
        [mkEdge u (clamp_weight w) None])).
Proof.
  intros HA HB Hf Fu Fv. induction n as [|n (IH1 & IH2 & IH3 & IH4)].
  - simpl. by rewrite !app_nil_r.
  - rewrite !join_replicate_S_end. unfold add_edge_times in *. simpl.
    set (gn := Nat.iter n _ g) in *.
    destruct (graph_add_edge_edges gn A B w proc HA HB Hf)
      as (u' & v' & Hu & Hv & Hu' & Hv' & _ & EA & EB & _).
    rewrite <-(Hu' _ IH1) in *. rewrite <-(Hv' _ IH2) in *.
    split_and!; [done|done| |].
    + by rewrite EA, IH3, <-app_assoc.
    + by rewrite EB, IH4, <-app_assoc.
Qed.

Lemma filter_join_replicate_length {A} (P : A → Prop) `{∀ x, Decision (P x)}
    n (l k : list A) :
  length (filter P (l ++ mjoin (replicate n k))) =
  (length (filter P l) + n * length (filter P k))%nat.
Proof.
  rewrite filter_app, length_app. f_equal.
  induction n as [|n IH]; simpl; [done|].
  by rewrite filter_app, length_app, IH.
Qed.

(** C10. Every call that is not refused appends one more forward edge to
    the source node and one more mirror edge to the target node, whatever
    edges are already there: [n] identical calls leave [n] more parallel
    copies in each direction (for a self-loop both copies land in the same
    list, so it grows by [2 * n]). *)
Theorem add_edge_is_not_idempotent g A B w proc :
  valid_name A → valid_name B → forbidden A B = false →
  ∃ u v, ∀ n,
    (0 < n →
      graph_find (add_edge_times n g A B w proc) A = Some u ∧
      graph_find (add_edge_times n g A B w proc) B = Some v)%nat ∧
    edges_of (add_edge_times n g A B w proc) A =
      edges_of g A ++ mjoin (replicate n
        (mkEdge v (clamp_weight w) proc ::
          (if decide (A = B) then [mkEdge u (clamp_weight w) None] else []))) ∧
    edges_of (add_edge_times n g A B w proc) B =
      edges_of g B ++ mjoin (replicate n
        ((if decide (A = B) then [mkEdge v (clamp_weight w) proc] else []) ++
          [mkEdge u (clamp_weight w) None])) ∧
    parallel_count (add_edge_times n g A B w proc) A v =
      (parallel_count g A v + n * (if decide (A = B) then 2 else 1))%nat ∧
    parallel_count (add_edge_times n g A B w proc) B u =
      (parallel_count g B u + n * (if decide (A = B) then 2 else 1))%nat.
Proof.
  intros HA HB Hf.
  destruct (graph_add_edge_edges g A B w proc HA HB Hf)
    as (u & v & Hu & Hv & _ & _ & Huv & EA & EB & _).
  exists u, v. intros n.
  set (FW := mkEdge v (clamp_weight w) proc ::
          (if decide (A = B) then [mkEdge u (clamp_weight w) None] else [])).
  set (RV := (if decide (A = B) then [mkEdge v (clamp_weight w) proc] else []) ++
          [mkEdge u (clamp_weight w) None]).
  assert ((0 < n →
      graph_find (add_edge_times n g A B w proc) A = Some u ∧
      graph_find (add_edge_times n g A B w proc) B = Some v)%nat ∧
    edges_of (add_edge_times n g A B w proc) A =
      edges_of g A ++ mjoin (replicate n FW) ∧
    edges_of (add_edge_times n g A B w proc) B =
      edges_of g B ++ mjoin (replicate n RV)) as (Hfind & E1 & E2).
  { destruct n as [|n]; [simpl; rewrite !app_nil_r; split_and!; [lia|done|done]|].
    unfold add_edge_times. rewrite Nat.iter_succ_r.
    destruct (add_edge_times_found n (graph_add_edge g A B w proc) A B w proc u v
                HA HB Hf Hu Hv) as (F1 & F2 & F3 & F4).
    unfold add_edge_times in *. fold FW RV in F3, F4, EA, EB.
    split_and!; [done| |].
    - rewrite F3, EA. simpl. by rewrite <-app_assoc.
    - rewrite F4, EB. simpl. by rewrite <-app_assoc. }
  split_and!; [done|done|done| |].
  - unfold parallel_count. rewrite E1, filter_join_replicate_length.
    do 2 f_equal. unfold FW. case_decide as HAB; simpl.
    + apply Huv in HAB. subst. by rewrite !filter_cons_True.
    + by rewrite filter_cons_True.
  - unfold parallel_count. rewrite E2, filter_join_replicate_length.
    do 2 f_equal. unfold RV. case_decide as HAB; simpl.
    + apply Huv in HAB. subst. by rewrite !filter_cons_True.
    + by rewrite filter_cons_True.
Qed.

Lemma add_edge_is_not_idempotent_witness :
  ∃ u v,
    edges_of (add_edge_times 3 [] (lit "sad") (lit "calm") F32.one None) (lit "sad")
      = replicate 3 (mkEdge v F32.one None) ∧
    edges_of (add_edge_times 3 [] (lit "sad") (lit "calm") F32.one None) (lit "calm")
      = replicate 3 (mkEdge u F32.one None).
Proof.
  destruct (add_edge_is_not_idempotent [] (lit "sad") (lit "calm") F32.one None)
    as (u & v & H).
  - vm_compute. lia.
  - vm_compute. lia.
  - reflexivity.
  - exists u, v. destruct (H 3%nat) as (_ & E1 & E2 & _). split; assumption.
Defined.
End add_edge_claims.

(** * Planner *)

Section float_order.
Lemma SFltb_trans a b c :
  SFltb a b = true → SFltb b c = true → SFltb a c = true.
Proof.
  unfold SFltb, SFcompare.
  destruct a as [[]|[]| |[] ma ea], b as [[]|[]| |[] mb eb],
           c as [[]|[]| |[] mc ec]; try done;
    change (Pos.compare_cont Eq) with Pos.compare;
    destruct (Z.compare_spec ea eb), (Z.compare_spec eb ec),
             (Z.compare_spec ea ec); try done; try lia; subst;
    destruct (Pos.compare_spec ma mb), (Pos.compare_spec mb mc),
             (Pos.compare_spec ma mc); simpl; try done; try lia.
Qed.

Lemma SFltb_irrefl a : SFltb a a = false.
Proof.
  unfold SFltb, SFcompare. destruct a as [[]|[]| |[] m e]; try done;
    by rewrite Z.compare_refl, Pos.compare_cont_refl.
Qed.
End float_order.

Section planner.
Implicit Types (g : EmotionGraph) (st : dijkstra_state) (e : Edge).

Lemma FLT_MAX_eqb : F32.eqb F32.FLT_MAX F32.FLT_MAX = true.
Proof. reflexivity. Qed.

(** The selection loop returns an unvisited index whose tentative cost is
    strictly below [FLT_MAX]. *)
Lemma select_step_inv st acc i :
  (acc = (None, F32.FLT_MAX) ∨
   ∃ j d, acc = (Some j, d) ∧ dist st !! j = Some d ∧
          F32.ltb d F32.FLT_MAX = true) →
  select_step st acc i = (None, F32.FLT_MAX) ∨
  ∃ j d, select_step st acc i = (Some j, d) ∧ dist st !! j = Some d ∧
         F32.ltb d F32.FLT_MAX = true.
Proof.
  intros Hacc. unfold select_step.
  destruct (visited st !! i) as [[]|]; [done| |done].
  destruct (dist st !! i) as [d|] eqn:Ed; [|done].
  destruct (F32.ltb d acc.2) eqn:Elt; [|done].
  right. exists i, d. split_and!; [done|done|].
  destruct Hacc as [->|(j & d' & -> & _ & Hd')]; [done|].
  by eapply SFltb_trans.
Qed.

Lemma select_min_Some n st u :
  select_min n st = Some u →
  ∃ d, dist st !! u = Some d ∧ F32.ltb d F32.FLT_MAX = true.
Proof.
  unfold select_min.
  assert (∀ l acc,
    (acc = (None, F32.FLT_MAX) ∨
     ∃ j d, acc = (Some j, d) ∧ dist st !! j = Some d ∧
            F32.ltb d F32.FLT_MAX = true) →
    foldl (select_step st) acc l = (None, F32.FLT_MAX) ∨
    ∃ j d, foldl (select_step st) acc l = (Some j, d) ∧ dist st !! j = Some d ∧
           F32.ltb d F32.FLT_MAX = true) as Hfold.
  { induction l as [|i l IH]; intros acc Hacc; [done|].
    simpl. by apply IH, select_step_inv. }
  destruct (Hfold (seq 0 n) (None, F32.FLT_MAX)) as [->|(j & d & -> & ? & ?)];
    [by left|done|]. simpl. intros [= <-]. eauto.
Qed.

Lemma relax_edge_inv g s u nu st e :
  graph_wf g → dijkstra_inv g s st → reach g s u →
  g !! u = Some nu → e ∈ edges nu →
  ∃ st', relax_edge g u st e = Some st' ∧ dijkstra_inv g s st'.
Proof.
  intros Hwf (Hd & Hv & Hreach) Hu Hnu He.
  pose proof (Hwf _ _ _ Hnu He) as Hlt.
  unfold relax_edge.
  destruct (lookup_lt_is_Some_2 (visited st) (to e)) as [vis ->]; [lia|].
  destruct (lookup_lt_is_Some_2 g (to e)) as [nv ->]; [lia|].
  destruct (lookup_lt_is_Some_2 (dist st) u) as [du ->];
    [apply lookup_lt_Some in Hnu; lia|].
  destruct (lookup_lt_is_Some_2 (dist st) (to e)) as [dv ->]; [lia|].
  simpl. destruct vis; [by eexists|].
  destruct (F32.ltb _ dv); [|by eexists].
  eexists. split; [done|]. split_and!; simpl; [by rewrite length_insert|done|].
  intros v d Hvd. destruct (decide (v = to e)) as [->|Hne].
  - right. by eapply reach_step.
  - rewrite list_lookup_insert_ne in Hvd by done. by eapply Hreach.
Qed.

Lemma relax_edges_inv g s u nu es st :
  graph_wf g → dijkstra_inv g s st → reach g s u →
  g !! u = Some nu → es ⊆ edges nu →
  ∃ st', relax_edges g u es st = Some st' ∧ dijkstra_inv g s st'.
Proof.
  intros Hwf Hinv Hu Hnu. revert st Hinv.
  induction es as [|e es IH]; intros st Hinv Hsub; [by eexists|].
  simpl.
  destruct (relax_edge_inv g s u nu st e) as (st1 & -> & Hinv1); try done.
  { apply Hsub. by left. }
  simpl. apply IH; [done|]. intros x Hx. apply Hsub. by right.
Qed.

Lemma dijkstra_loop_inv g s dest iters st :
  graph_wf g → dijkstra_inv g s st →
  ∃ st', dijkstra_loop g dest iters st = Some st' ∧ dijkstra_inv g s st'.
Proof.
  intros Hwf. revert st. induction iters as [|k IH]; intros st Hinv; [by eexists|].
  simpl. destruct (select_min (length g) st) as [u|] eqn:Esel; [|by eexists].
  apply select_min_Some in Esel as (d & Hd & Hlt).
  destruct Hinv as (Hd1 & Hd2 & Hreach).
  assert (dijkstra_inv g s (mkDS (dist st) (<[u:=true]> (visited st)) (prev st)))
    as Hinv1.
  { split_and!; simpl; [done|by rewrite length_insert|done]. }
  case_bool_decide; [by eexists|].
  destruct (lookup_lt_is_Some_2 g u) as [nu Hnu];
    [apply lookup_lt_Some in Hd; lia|]. rewrite Hnu. simpl.
  assert (reach g s u) as Hu.
  { destruct (Hreach _ _ Hd) as [->|]; [|done].
    by rewrite SFltb_irrefl in Hlt. }
  destruct (relax_edges_inv g s u nu (edges nu) _ Hwf Hinv1 Hu Hnu)
    as (st2 & -> & Hinv2); [done|].
  simpl. by apply IH.
Qed.

Lemma init_state_inv g s :
  (s < length g)%nat → dijkstra_inv g s (init_state (length g) s).
Proof.
  intros Hs. split_and!; simpl.
  - by rewrite length_insert, length_replicate.
  - by rewrite length_replicate.
  - intros v d Hv. destruct (decide (v = s)) as [->|Hne]; [right; constructor|].
    rewrite list_lookup_insert_ne in Hv by done.
    apply lookup_replicate in Hv as [-> _]. by left.
Qed.

(** A goal that cannot be reached yields [FLT_MAX] and no path. *)
Lemma unreachable_no_path g (src dest : Z) :
  graph_wf g →
  0 ≤ src < Z.of_nat (length g) → 0 ≤ dest < Z.of_nat (length g) →
  ¬ reach g (Z.to_nat src) (Z.to_nat dest) →
  run_dijkstra_personalized g src dest = Some (F32.FLT_MAX, None).
Proof.
  intros Hwf Hs Hd Hnr. unfold run_dijkstra_personalized.
  rewrite bool_decide_false by lia. rewrite bool_decide_true by lia.
  destruct (dijkstra_loop_inv g (Z.to_nat src) (Z.to_nat dest) (length g)
              (init_state (length g) (Z.to_nat src)) Hwf)
    as (st & -> & (Hl & _ & Hreach)); [apply init_state_inv; lia|].
  simpl. destruct (lookup_lt_is_Some_2 (dist st) (Z.to_nat dest)) as [dd Hdd];
    [lia|]. rewrite Hdd. simpl.
  destruct (Hreach _ _ Hdd) as [->|]; [|done]. by rewrite FLT_MAX_eqb.
Qed.

Lemma negative_index_no_path g (src dest : Z) :
  src < 0 ∨ dest < 0 →
  run_dijkstra_personalized g src dest = Some (F32.FLT_MAX, None).
Proof.
  intros H. unfold run_dijkstra_personalized. by rewrite bool_decide_true.
Qed.
End planner.

Section planner_claims.
Implicit Types (g : EmotionGraph) (st : dijkstra_state) (e : Edge).

(** C2 as stated fails: on the chain the planner does not return cost 3. *)
Lemma chain_cost_is_not_three :
  run_dijkstra_personalized (chain five five five five) 0 3
    ≠ Some (three, Some [0; 1; 2; 3]%nat).
Proof. vm_compute. discriminate. Qed.

(** C2, amended. On the chain A - B - C - D (valence 0 everywhere, no tips,
    no procedures, unit weights) the planner run from A to D returns the
    path [A, B, C, D]; each unit edge costs 0.95 because valence 0 still
    earns the 5 percent valence discount, and the total is the binary32
    number 2.85, not 3. *)
Theorem chain_path_and_cost (b1 b2 b3 b4 : float) :
  run_dijkstra_personalized (chain b1 b2 b3 b4) 0 3
    = Some (c2_85, Some [0; 1; 2; 3]%nat) ∧
  plan_route (chain b1 b2 b3 b4) 0 [3] = Some (c2_85, Some 3, [0; 1; 2; 3]%nat) ∧
  (name <$> chain b1 b2 b3 b4) = [lit "A"; lit "B"; lit "C"; lit "D"] ∧
  (valence <$> chain b1 b2 b3 b4) = replicate 4 F32.zero ∧
  F32.ltb c2_85 three = true.
Proof. by vm_compute. Qed.

Lemma adjusted_weight_personalized_cost (nv : EmotionNode) e :
  adjusted_weight nv e =
  personalized_cost (weight e) (bool_decide (0 < length (tips nv))%nat)
    (has_procedure e) (valence nv).
Proof.
  unfold adjusted_weight, personalized_cost, has_procedure.
  by destruct (procedure e).
Qed.

(** C3 as stated fails: in the planner's run on [detour] from S to V, when U
    is expanded the adjusted weight of U - V is 2, below the best known cost
    3 of V, and yet V is not relaxed, because the path cost 2 + 2 is not
    below 3; the run ends with the direct path S, V of cost 3. *)
Lemma weight_below_best_cost_but_no_relaxation :
  dijkstra_loop detour 2 1 (init_state 3 0)
    = Some (mkDS (dist detour_state) [true; false; false] (prev detour_state)) ∧
  select_min 3 (mkDS (dist detour_state) [true; false; false] (prev detour_state))
    = Some 1%nat ∧
  (∃ nu, detour !! 1%nat = Some nu ∧ detour_edge ∈ edges nu) ∧
  (∃ nv, detour !! 2%nat = Some nv ∧ adjusted_weight nv detour_edge = two) ∧
  dist detour_state !! 2%nat = Some three ∧
  F32.ltb two three = true ∧
  relax_edge detour 1 detour_state detour_edge = Some detour_state ∧
  run_dijkstra_personalized detour 0 2 = Some (three, Some [0; 2]%nat).
Proof.
  split_and!; try by vm_compute.
  - eexists. split; [reflexivity|]. vm_compute. apply list_elem_of_In.
    simpl. auto.
  - eexists. split; [reflexivity|]. by vm_compute.
Qed.

(** C3, amended. When the planner relaxes an edge [e] of [u] into an
    unvisited node V, the adjusted weight is the stored weight times 0.85 if
    V has a tip, then times 0.80 if [e] has a procedure, then times
    [1 - (1 - valence V) * 0.05]; this weight is added to the tentative cost
    of [u], and the sum is what is compared against the best known cost of
    V (and stored, with [u] as predecessor, when strictly smaller). *)
Theorem relax_edge_uses_personalized_cost g u st e nv du dv :
  visited st !! (to e) = Some false →
  g !! (to e) = Some nv →
  dist st !! u = Some du →
  dist st !! (to e) = Some dv →
  adjusted_weight nv e =
    personalized_cost (weight e) (bool_decide (0 < length (tips nv))%nat)
      (has_procedure e) (valence nv) ∧
  relax_edge g u st e =
    Some (if F32.ltb (F32.add du (adjusted_weight nv e)) dv
          then relaxed st u (to e) (F32.add du (adjusted_weight nv e))
          else st).
Proof.
  intros Hvis Hnv Hdu Hdv. split; [apply adjusted_weight_personalized_cost|].
  unfold relax_edge. rewrite Hvis, Hnv, Hdu, Hdv. simpl.
  by destruct (F32.ltb _ dv).
Qed.

Lemma relax_edge_uses_personalized_cost_witness :
  relax_edge detour 1 detour_state detour_edge = Some detour_state.
Proof.
  destruct (relax_edge_uses_personalized_cost detour 1 detour_state detour_edge
              (mkNode (lit "V") F32.one five
                      [mkEdge 0 three None; mkEdge 1 two None] [])
              two three) as [_ ->]; reflexivity.
Defined.

(** C7 as stated fails: a negative (invalid) source index is answered with
    the very value that signals "no path"; nothing fails fast. *)
Lemma invalid_index_reported_as_no_path :
  run_dijkstra_personalized isolated (-1) 1 = Some (F32.FLT_MAX, None) ∧
  run_dijkstra_personalized isolated 0 1 = Some (F32.FLT_MAX, None) ∧
  run_dijkstra_personalized isolated 0 (-1)
    = run_dijkstra_personalized isolated 0 1.
Proof. by vm_compute. Qed.

(** C7, amended. When the goal cannot be reached from the source the
    planner returns [FLT_MAX] and writes no path; a negative source or
    destination index is reported by the same signal and is not told apart
    from "no path". *)
Theorem no_path_signal g (src dest : Z) :
  (src < 0 ∨ dest < 0) ∨
  (graph_wf g ∧ 0 ≤ src < Z.of_nat (length g) ∧ 0 ≤ dest < Z.of_nat (length g) ∧
   ¬ reach g (Z.to_nat src) (Z.to_nat dest)) →
  run_dijkstra_personalized g src dest = Some (F32.FLT_MAX, None).
Proof.
  intros [Hneg|(Hwf & Hs & Hd & Hnr)];
    [by apply negative_index_no_path|by apply unreachable_no_path].
Qed.

Lemma isolated_unreachable : graph_wf isolated ∧ ¬ reach isolated 0 1.
Proof.
  split.
  - intros u nu e Hu He. destruct u as [|[|u]]; simpl in Hu; simplify_eq;
      by apply elem_of_nil in He.
  - intros H. inversion H as [|u nu e _ Hu He]; subst.
    destruct u as [|[|u]]; simpl in Hu; simplify_eq; by apply elem_of_nil in He.
Qed.

Lemma no_path_signal_witness :
  run_dijkstra_personalized isolated 0 1 = Some (F32.FLT_MAX, None).
Proof.
  apply (no_path_signal isolated 0 1). right.
  split; [apply isolated_unreachable|]. split; [vm_compute; split; congruence|].
  split; [vm_compute; split; congruence|]. apply isolated_unreachable.
Defined.

(** With every goal unreachable, the goal loop of the menu ends with
    [best_cost == FLT_MAX], which is the "no available path" branch. *)
Lemma plan_route_no_path g (src : Z) (goals : list Z) :
  graph_wf g → 0 ≤ src < Z.of_nat (length g) →
  (∀ goal, goal ∈ goals →
     0 ≤ goal < Z.of_nat (length g) ∧ ¬ reach g (Z.to_nat src) (Z.to_nat goal)) →
  plan_route g src goals = Some (F32.FLT_MAX, None, []).
Proof.
  intros Hwf Hs. unfold plan_route. induction goals as [|goal goals IH]; [done|].
  intros Hall. simpl.
  rewrite unreachable_no_path; [|done|done|apply Hall; by left..].
  simpl. apply IH. intros x Hx. apply Hall. by right.
Qed.
End planner_claims.

(** * Persistence codec *)

Section quoting.
Implicit Types (s p rest : cstring).

Lemma parse_quoted_loop_escape d p bi :
  parse_quoted_loop (ch_backslash :: d :: p) bi =
  if bool_decide (MAX_LINE - 1 ≤ S bi)%nat then ([d], p)
  else let '(b, r) := parse_quoted_loop p (S bi) in (d :: b, r).
Proof. done. Qed.

Lemma parse_quoted_loop_plain c q bi :
  c ≠ ch_quote → c ≠ ch_backslash → q ≠ [] →
  parse_quoted_loop (c :: q) bi =
  if bool_decide (MAX_LINE - 1 ≤ S bi)%nat then ([c], q)
  else let '(b, r) := parse_quoted_loop q (S bi) in (c :: b, r).
Proof.
  intros H1 H2 Hq. destruct q as [|d q]; [done|].
  cbn [parse_quoted_loop]. by rewrite !bool_decide_false by done.
Qed.

Lemma parse_quoted_loop_escaped s rest bi :
  (bi + length s ≤ MAX_LINE - 1)%nat →
  parse_quoted_loop ((s ≫= escape_char) ++ ch_quote :: rest) bi
    = (s, ch_quote :: rest).
Proof.
  unfold MAX_LINE. simpl (1024 - 1)%nat.
  revert bi. induction s as [|c s IH]; intros bi Hlen; [done|].
  assert (∃ d q, (s ≫= escape_char) ++ ch_quote :: rest = d :: q) as (d & q & Hq).
  { destruct ((s ≫= escape_char) ++ ch_quote :: rest) eqn:E; [|by eauto].
    by destruct (s ≫= escape_char). }
  assert ((if bool_decide (MAX_LINE - 1 ≤ S bi)%nat then ([c], d :: q)
           else let '(b, r) := parse_quoted_loop (d :: q) (S bi) in (c :: b, r))
          = (c :: s, ch_quote :: rest)) as Hstore.
  { simpl in Hlen. case_bool_decide as Hfull.
    - unfold MAX_LINE in Hfull.
      assert (s = []) as -> by (apply nil_length_inv; lia).
      simpl in Hq. by simplify_eq.
    - unfold MAX_LINE in Hfull. rewrite <-Hq, IH by lia. done. }
  rewrite bind_cons. unfold escape_char at 1.
  destruct (decide (c = ch_quote ∨ c = ch_backslash)) as [Hc|Hc].
  - rewrite bool_decide_true by done. cbn [app].
    rewrite parse_quoted_loop_escape. by rewrite <-Hq in Hstore.
  - rewrite bool_decide_false by done. cbn [app].
    rewrite parse_quoted_loop_plain.
    + by rewrite <-Hq in Hstore.
    + intros ->. apply Hc. by left.
    + intros ->. apply Hc. by right.
    + by rewrite Hq.
Qed.

Lemma parse_quoted_fwrite_quoted s rest :
  (length s ≤ MAX_LINE - 1)%nat →
  parse_quoted (fwrite_quoted s ++ rest) = Some (s, rest).
Proof.
  intros Hlen. unfold parse_quoted, fwrite_quoted. simpl.
  rewrite <-app_assoc. simpl.
  rewrite parse_quoted_loop_escaped by done. done.
Qed.

Lemma length_fwrite_quoted s : (length s + 2 ≤ length (fwrite_quoted s))%nat.
Proof.
  unfold fwrite_quoted. simpl. rewrite length_app. simpl.
  assert (length s ≤ length (s ≫= escape_char))%nat; [|lia].
  induction s as [|c s IH]; [done|]. rewrite bind_cons, length_app.
  unfold escape_char at 1. case_bool_decide; simpl; lia.
Qed.
End quoting.

Section text_lemmas.
Implicit Types (s tok rest : cstring) (c : ascii).

Lemma field_end_nil : field_end [].
Proof. by left. Qed.

Lemma field_end_space r : field_end (ch_space :: r).
Proof. right. by eexists. Qed.

Lemma skip_ws_plain tok rest :
  tok ≠ [] → Forall plain tok → skip_ws (tok ++ rest) = tok ++ rest.
Proof.
  intros Hne Hp. destruct tok as [|c tok]; [done|].
  apply Forall_cons in Hp as [[Hc _] _]. simpl. by rewrite Hc.
Qed.

Lemma skip_ws_space s : skip_ws (ch_space :: s) = skip_ws s.
Proof. done. Qed.

Lemma take_token_field tok rest width :
  Forall plain tok → (length tok ≤ width)%nat → field_end rest →
  take_token width (tok ++ rest) = (tok, rest).
Proof.
  intros Hp. revert width. induction Hp as [|c tok [Hc _] Hp IH]; intros width Hlen Hr.
  - simpl. destruct width; [done|]. by destruct Hr as [->|[r ->]].
  - simpl in Hlen. destruct width as [|width]; [lia|]. simpl.
    rewrite Hc, IH by (done || lia). done.
Qed.

Lemma scan_token_field tok rest width :
  tok ≠ [] → Forall plain tok → (length tok ≤ width)%nat → field_end rest →
  scan_token width (tok ++ rest) = Some (tok, rest).
Proof.
  intros Hne Hp Hlen Hr. unfold scan_token.
  rewrite skip_ws_plain, take_token_field by done.
  by rewrite bool_decide_false.
Qed.

Lemma scan_token_space s width :
  scan_token width (ch_space :: s) = scan_token width s.
Proof. done. Qed.

Lemma strchr_first pre rest c :
  c ∉ pre → strchr (pre ++ c :: rest) c = Some (c :: rest).
Proof.
  induction pre as [|d pre IH]; intros Hnin; simpl.
  - by rewrite bool_decide_true.
  - apply not_elem_of_cons in Hnin as [Hne Hnin].
    rewrite bool_decide_false by done. by apply IH.
Qed.

Lemma plain_not_blank c : plain c → is_blank c = false.
Proof.
  intros [Hc _]. unfold is_blank. apply bool_decide_eq_false.
  intros [-> | ->]; done.
Qed.

Lemma strtok_from_token cur tok s :
  Forall plain tok → strtok_from cur (tok ++ s) = strtok_from (rev tok ++ cur) s.
Proof.
  intros Hp. revert cur. induction Hp as [|c tok Hc Hp IH]; intros cur; [done|].
  simpl. rewrite (plain_not_blank _ Hc), IH. by rewrite <-app_assoc.
Qed.

Lemma strtok_all_three t1 t2 t3 :
  t1 ≠ [] → t2 ≠ [] → t3 ≠ [] → Forall plain t1 → Forall plain t2 → Forall plain t3 →
  strtok_all (t1 ++ ch_space :: t2 ++ ch_space :: t3) = [t1; t2; t3].
Proof.
  intros N1 N2 N3 P1 P2 P3. unfold strtok_all.
  assert (∀ t : cstring, t ≠ [] → bool_decide (rev t ++ [] = []) = false) as Hnil.
  { intros t Ht. apply bool_decide_eq_false. rewrite app_nil_r.
    intros Hr. apply Ht. by rewrite <-(rev_involutive t), Hr. }
  rewrite strtok_from_token by done. simpl. rewrite Hnil by done.
  rewrite strtok_from_token by done. simpl. rewrite Hnil by done.
  rewrite <-(app_nil_r t3), strtok_from_token by done. simpl.
  rewrite Hnil by done. by rewrite !app_nil_r, !rev_involutive.
Qed.

Lemma fgets_line l rest room :
  ch_newline ∉ l → (length l < room)%nat →
  fgets room (l ++ ch_newline :: rest) = (l ++ [ch_newline], rest).
Proof.
  revert room. induction l as [|c l IH]; intros room Hnin Hlen.
  - by destruct room; [simpl in Hlen; lia|].
  - simpl in Hlen. destruct room as [|room]; [lia|].
    apply not_elem_of_cons in Hnin as [Hne Hnin]. simpl.
    rewrite bool_decide_false by done. rewrite IH by (done || lia). done.
Qed.

Lemma chomp_line l : chomp (l ++ [ch_newline]) = l.
Proof.
  unfold chomp. rewrite last_snoc, bool_decide_true by done.
  apply removelast_last.
Qed.
End text_lemmas.

Section number_text.
Implicit Types (s rest D F : cstring) (c : ascii) (x : float).

Local Ltac digit_cases H :=
  unfold is_digit in H; apply bool_decide_eq_true in H; unfold lit in H;
  cbn [list_ascii_of_string] in H;
  repeat (apply elem_of_cons in H as [->|H]); [..|by apply elem_of_nil in H].

Lemma is_digit_plain c : is_digit c = true → plain c.
Proof. intros H. digit_cases H; by split. Qed.

Lemma digits_plain D : Forall (λ c, is_digit c = true) D → Forall plain D.
Proof. intros H. eapply Forall_impl; [done|apply is_digit_plain]. Qed.

Lemma digit_head c :
  is_digit c = true →
  isspace c = false ∧ bool_decide (c = "-"%char) = false ∧
  bool_decide (c = "+"%char) = false ∧
  bool_decide (to_lower c = "i"%char) = false ∧
  bool_decide (to_lower c = "n"%char) = false.
Proof. intros H. digit_cases H; by vm_compute. Qed.

Lemma uint_chars_digits u : Forall (λ c, is_digit c = true) (uint_chars u).
Proof. induction u; simpl; by constructor. Qed.

Lemma uint_chars_nonempty u : u ≠ Decimal.Nil → uint_chars u ≠ [].
Proof. by destruct u. Qed.

Lemma digits_of_N_digits n : Forall (λ c, is_digit c = true) (digits_of_N n).
Proof. apply uint_chars_digits. Qed.

Lemma digits_of_N_nonempty n : digits_of_N n ≠ [].
Proof.
  unfold digits_of_N. apply uint_chars_nonempty. destruct n as [|p]; [done|].
  apply Unsigned.to_uint_nonnil.
Qed.

Lemma digit_char_digit d : (d mod 10 < 10)%N → is_digit (digit_char (d mod 10)) = true.
Proof.
  generalize (d mod 10)%N. intros r Hr.
  assert (r ∈ [0; 1; 2; 3; 4; 5; 6; 7; 8; 9]%N) as Hin.
  { rewrite !elem_of_cons. lia. }
  repeat (apply elem_of_cons in Hin as [->|Hin]); try done.
  by apply elem_of_nil in Hin.
Qed.

Lemma span_digits_field D rest :
  Forall (λ c, is_digit c = true) D →
  match rest with c :: _ => is_digit c = false | [] => True end →
  span_digits (D ++ rest) = (D, rest).
Proof.
  intros HD Hr. induction HD as [|c D Hc HD IH]; cbn [span_digits app].
  - destruct rest as [|c r]; [done|]. cbn [span_digits]. by rewrite Hr.
  - by rewrite Hc, IH.
Qed.

(** Reading back a printed decimal: sign, integer digits, a point and
    fraction digits, followed by the end of the field. *)
Lemma scan_numeral_decimal neg D F rest :
  D ≠ [] → Forall (λ c, is_digit c = true) D → Forall (λ c, is_digit c = true) F →
  field_end rest →
  scan_numeral (sign_chars neg ++ D ++ "."%char :: F ++ rest)
    = Some (Num_dec neg (N_of_digits (D ++ F)) (0 - Z.of_nat (length F)), rest).
Proof.
  intros HDne HD HF Hrest. unfold scan_numeral.
  destruct D as [|d D]; [done|]. apply Forall_cons in HD as [Hd HD].
  destruct (digit_head d Hd) as (Hsp & Hminus & Hplus & Hi & Hn).
  assert (scan_sign (skip_ws (sign_chars neg ++ (d :: D) ++ "."%char :: F ++ rest))
          = (neg, d :: D ++ "."%char :: F ++ rest)) as ->.
  { destruct neg; cbn [sign_chars app skip_ws].
    - change (isspace "-"%char) with false. cbn [scan_sign].
      by rewrite bool_decide_true.
    - rewrite Hsp. cbn [scan_sign]. by rewrite Hminus, Hplus. }
  cbn [strip_prefix_ci lit list_ascii_of_string]. rewrite Hi, Hn.
  change (d :: D ++ "."%char :: F ++ rest) with ((d :: D) ++ "."%char :: F ++ rest).
  rewrite span_digits_field; [|by constructor|done].
  rewrite bool_decide_true by done.
  rewrite span_digits_field; [|done|by destruct Hrest as [->|[r ->]]].
  rewrite bool_decide_false by by intros [[=] _].
  assert (scan_exponent rest = (0, rest)) as ->;
    [by destruct Hrest as [->|[r ->]]|]. done.
Qed.

Lemma scan_numeral_inf neg rest :
  field_end rest →
  scan_numeral (sign_chars neg ++ lit "inf" ++ rest) = Some (Num_inf neg, rest).
Proof. intros [->|[r ->]]; by destruct neg. Qed.

Lemma scan_numeral_nan rest :
  field_end rest → scan_numeral (lit "nan" ++ rest) = Some (Num_nan, rest).
Proof. by intros [->|[r ->]]. Qed.

(** The shapes [%.3f] prints. *)
Lemma fmt3_shape x :
  (∃ neg D F, fmt3 x = sign_chars neg ++ D ++ "."%char :: F ∧ D ≠ [] ∧
      Forall (λ c, is_digit c = true) D ∧ Forall (λ c, is_digit c = true) F) ∨
  (∃ neg, fmt3 x = sign_chars neg ++ lit "inf") ∨
  fmt3 x = lit "nan".
Proof.
  destruct x as [neg|neg| |neg m e]; simpl.
  - left. exists neg, (lit "0"), (lit "000"). split_and!; [done|done|..];
      by repeat constructor.
  - right. left. by exists neg.
  - by right; right.
  - left. eexists neg, _, _. split; [done|].
    split; [apply digits_of_N_nonempty|]. split; [apply digits_of_N_digits|].
    repeat constructor; apply digit_char_digit; by apply N.mod_lt.
Qed.

Lemma fmt3_plain x : fmt3 x ≠ [] ∧ Forall plain (fmt3 x).
Proof.
  destruct (fmt3_shape x) as [(neg & D & F & -> & HD & HDd & HFd)|[[neg ->]| ->]].
  - split; [by destruct neg, D|].
    rewrite !Forall_app, Forall_cons. split_and!;
      [destruct neg; by repeat constructor|by apply digits_plain|done|
       by apply digits_plain].
  - split; [by destruct neg|]. destruct neg; by repeat constructor.
  - split; [done|]. by repeat constructor.
Qed.

Lemma scan_numeral_fmt3 x :
  ∃ nu, ∀ rest, field_end rest → scan_numeral (fmt3 x ++ rest) = Some (nu, rest).
Proof.
  destruct (fmt3_shape x) as [(neg & D & F & -> & HD & HDd & HFd)|[[neg ->]| ->]].
  - eexists. intros rest Hrest. rewrite <-!app_assoc. cbn [app].
    by apply scan_numeral_decimal.
  - eexists. intros rest Hrest. rewrite <-!app_assoc. by apply scan_numeral_inf.
  - eexists. intros rest Hrest. by apply scan_numeral_nan.
Qed.

Lemma scan_float_fmt3 x rest :
  field_end rest → scan_float (fmt3 x ++ rest) = Some (reread x, rest).
Proof.
  intros Hrest. destruct (scan_numeral_fmt3 x) as [nu Hnu].
  unfold reread, scan_float. rewrite (Hnu rest Hrest).
  rewrite <-(app_nil_r (fmt3 x)) at 1. by rewrite (Hnu [] field_end_nil).
Qed.

Lemma scan_float_space s : scan_float (ch_space :: s) = scan_float s.
Proof. done. Qed.
End number_text.

Ltac norm_app := repeat (rewrite <-app_assoc || rewrite <-app_comm_cons).

Section line_lemmas.
Implicit Types (g : EmotionGraph) (nm body : cstring) (n : EmotionNode).

Lemma keyword_plain kw :
  kw ∈ [lit "NODE"; lit "TIP"; lit "EDGE"] →
  kw ≠ [] ∧ Forall plain kw ∧ (length kw ≤ 31)%nat ∧ (ch_quote ∉ kw) ∧
  ∀ rest, ∃ c r, kw ++ rest = c :: r ∧ c ≠ "#"%char.
Proof.
  rewrite !elem_of_cons, elem_of_nil. intros [->|[->|[->|[]]]].
  all: split_and!; [done|by repeat constructor|vm_compute; lia| |
                    intros rest; eexists _, _; split; [reflexivity|done]].
  all: unfold lit; cbn [list_ascii_of_string];
    rewrite !not_elem_of_cons, elem_of_nil; unfold ch_quote;
    repeat split; (discriminate || tauto).
Qed.

(** A record line reaches the branch of its keyword with [p] at the body. *)
Lemma load_line_record kw body g :
  kw ∈ [lit "NODE"; lit "TIP"; lit "EDGE"] →
  load_line (kw ++ ch_space :: body ++ [ch_newline]) g =
  if streq kw (lit "NODE") then load_node (skip_ws body) g
  else if streq kw (lit "TIP") then load_tip (skip_ws body) g
  else load_edge (skip_ws body) g.
Proof.
  intros Hkw. destruct (keyword_plain kw Hkw) as (Hne & Hpl & Hlen & _ & Hhead).
  unfold load_line.
  replace (kw ++ ch_space :: body ++ [ch_newline])
    with ((kw ++ ch_space :: body) ++ [ch_newline]) by by rewrite <-app_assoc.
  rewrite chomp_line, skip_ws_plain by done.
  destruct (Hhead (ch_space :: body)) as (c & r & Hcr & Hc).
  rewrite Hcr, bool_decide_false by done. rewrite <-Hcr.
  rewrite scan_token_field by (done || apply field_end_space).
  revert Hkw. rewrite !elem_of_cons, elem_of_nil. by intros [->|[->|[->|[]]]].
Qed.

Lemma node_line_body n :
  node_line n = lit "NODE" ++ ch_space ::
    (name n ++ ch_space :: fmt3 (valence n) ++ ch_space :: fmt3 (baseline_intensity n))
    ++ [ch_newline].
Proof. unfold node_line, lit. cbn [list_ascii_of_string]. by norm_app. Qed.

Lemma tip_line_body n t :
  tip_line n t = lit "TIP" ++ ch_space ::
    (name n ++ ch_space :: fwrite_quoted t) ++ [ch_newline].
Proof. unfold tip_line, lit. cbn [list_ascii_of_string]. by norm_app. Qed.

Lemma edge_text_body from to_ w proc :
  edge_text from to_ w proc = lit "EDGE" ++ ch_space ::
    (from ++ ch_space :: to_ ++ ch_space :: fmt3 w ++ ch_space :: quoted_procedure proc)
    ++ [ch_newline].
Proof. unfold edge_text, lit. cbn [list_ascii_of_string]. by norm_app. Qed.

Lemma good_name_take nm : good_name nm → take (MAX_NAME_LEN - 1) nm = nm.
Proof.
  intros (_ & Hv & _). apply take_ge. unfold valid_name, MAX_NAME_LEN in *. lia.
Qed.

Lemma good_name_width nm : good_name nm → (length nm ≤ MAX_NAME_LEN - 1)%nat.
Proof. intros (_ & Hv & _). unfold valid_name, MAX_NAME_LEN in *. lia. Qed.

(** Reading a NODE record of a name not yet in the graph. *)
Lemma load_node_fresh g nm v b :
  good_name nm → graph_find g nm = None →
  load_node (skip_ws (nm ++ ch_space :: fmt3 v ++ ch_space :: fmt3 b)) g
    = g ++ [mkNode nm (reread_atof v) (reread_atof b) [] []].
Proof.
  intros Hgood Hfresh. pose proof Hgood as (Hne & Hvalid & Hplain).
  destruct (fmt3_plain v) as [Hv1 Hv2]. destruct (fmt3_plain b) as [Hb1 Hb2].
  rewrite skip_ws_plain by done. unfold load_node.
  rewrite scan_token_field;
    [|done|done|by apply good_name_width|apply field_end_space].
  rewrite scan_float_space, scan_float_fmt3 by apply field_end_space.
  rewrite scan_float_space. rewrite <-(app_nil_r (fmt3 b)) at 1.
  rewrite scan_float_fmt3 by apply field_end_nil.
  unfold graph_add_node. rewrite Hfresh. cbn [fst].
  rewrite good_name_take by done.
  rewrite graph_find_snoc, Hfresh. cbn [name]. rewrite decide_True by done.
  rewrite strtok_all_three by done.
  rewrite <-(Nat.add_0_r (length g)), !alter_app_r. done.
Qed.

Lemma plain_not_quote (tok : cstring) : Forall plain tok → ch_quote ∉ tok.
Proof.
  intros Hp Hin. eapply Forall_forall in Hp as [_ Hq]; [|done]. done.
Qed.

Lemma quoted_procedure_default proc :
  quoted_procedure proc = fwrite_quoted (default [] proc).
Proof. by destruct proc. Qed.

Lemma strchr_quoted (pre t : cstring) :
  ch_quote ∉ pre →
  strchr (pre ++ fwrite_quoted t) ch_quote = Some (fwrite_quoted t).
Proof. intros Hpre. unfold fwrite_quoted. by apply strchr_first. Qed.

Lemma load_tip_line g nm t :
  good_name nm → (length t ≤ MAX_LINE - 1)%nat →
  load_tip (skip_ws (nm ++ ch_space :: fwrite_quoted t)) g = graph_add_tip g nm t.
Proof.
  intros (Hne & Hvalid & Hplain) Hlen.
  rewrite skip_ws_plain by done. unfold load_tip.
  rewrite scan_token_field;
    [|done|done|by apply good_name_width|apply field_end_space].
  replace (nm ++ ch_space :: fwrite_quoted t)
    with ((nm ++ [ch_space]) ++ fwrite_quoted t) by by rewrite <-app_assoc.
  rewrite strchr_quoted.
  - cbn [mbind option_bind]. rewrite <-(app_nil_r (fwrite_quoted t)).
    by rewrite parse_quoted_fwrite_quoted.
  - rewrite not_elem_of_app, not_elem_of_cons, elem_of_nil.
    split; [by apply plain_not_quote|]. split; [done|tauto].
Qed.

Lemma load_edge_line g from to_ w proc :
  good_name from → good_name to_ → (length (default [] proc) ≤ MAX_LINE - 1)%nat →
  load_edge (skip_ws (from ++ ch_space :: to_ ++ ch_space :: fmt3 w
                        ++ ch_space :: quoted_procedure proc)) g
    = graph_add_edge g from to_ (reread w) (Some (default [] proc)).
Proof.
  intros (Hne1 & Hvalid1 & Hplain1) (Hne2 & Hvalid2 & Hplain2) Hlen.
  destruct (fmt3_plain w) as [Hw1 Hw2].
  rewrite skip_ws_plain by done. unfold load_edge.
  rewrite scan_token_field;
    [|done|done|by apply good_name_width|apply field_end_space].
  rewrite scan_token_space, scan_token_field;
    [|done|done|by apply good_name_width|apply field_end_space].
  rewrite scan_float_space, scan_float_fmt3 by apply field_end_space.
  rewrite quoted_procedure_default.
  replace (from ++ ch_space :: to_ ++ ch_space :: fmt3 w
             ++ ch_space :: fwrite_quoted (default [] proc))
    with ((from ++ ch_space :: to_ ++ ch_space :: fmt3 w ++ [ch_space])
            ++ fwrite_quoted (default [] proc))
    by by repeat (rewrite <-app_assoc || rewrite <-app_comm_cons).
  rewrite strchr_quoted.
  - cbn [mbind option_bind]. rewrite <-(app_nil_r (fwrite_quoted _)).
    by rewrite parse_quoted_fwrite_quoted.
  - repeat (rewrite not_elem_of_app || rewrite not_elem_of_cons).
    split_and!; try (by apply plain_not_quote); try done; apply not_elem_of_nil.
Qed.
End line_lemmas.

Section file_lemmas.
Implicit Types (g acc : EmotionGraph) (n : EmotionNode) (l body : cstring).

Lemma load_lines_step rounds c f g :
  load_lines (S rounds) (c :: f) g =
  load_lines rounds (fgets (MAX_LINE - 1) (c :: f)).2
    (load_line (fgets (MAX_LINE - 1) (c :: f)).1 g).
Proof. cbn [load_lines]. by destruct (fgets _ _). Qed.

(** More rounds than the file has characters change nothing: the reading
    loop has ended by then. *)
Lemma fgets_rest_length room c f :
  (length (fgets (S room) (c :: f)).2 ≤ length f)%nat.
Proof.
  cbn [fgets]. case_bool_decide; [done|].
  assert (∀ k (l : cstring), length (fgets k l).2 ≤ length l)%nat as Hle.
  { induction k as [|k IH]; intros [|d l]; cbn [fgets]; try done.
    case_bool_decide; cbn; [lia|]. specialize (IH l).
    destruct (fgets k l). cbn in *. lia. }
  specialize (Hle room f). by destruct (fgets room f).
Qed.

Lemma load_lines_enough r1 r2 f g :
  (length f ≤ r1)%nat → (length f ≤ r2)%nat →
  load_lines r1 f g = load_lines r2 f g.
Proof.
  revert r2 f g. induction r1 as [|r1 IH]; intros r2 f g H1 H2.
  - destruct f; [|simpl in H1; lia]. by destruct r2.
  - destruct f as [|c f]; [by destruct r2|].
    destruct r2 as [|r2]; [simpl in H2; lia|].
    rewrite !load_lines_step. simpl in H1, H2.
    pose proof (fgets_rest_length (MAX_LINE - 2) c f) as Hle.
    change (S (MAX_LINE - 2)) with (MAX_LINE - 1)%nat in Hle.
    apply IH; lia.
Qed.

(** A file made of proper lines is read line by line. *)
Lemma load_lines_join ls rounds g :
  Forall proper_line ls → (length (mjoin ls) ≤ rounds)%nat →
  load_lines rounds (mjoin ls) g = foldl (λ g l, load_line l g) g ls.
Proof.
  intros Hls. revert rounds g.
  induction Hls as [|l ls (body & -> & Hnl & Hfit) Hls IH]; intros rounds g Hlen.
  - by destruct rounds.
  - change (mjoin ((body ++ [ch_newline]) :: ls))
      with ((body ++ [ch_newline]) ++ mjoin ls) in *.
    cbn [foldl]. rewrite <-app_assoc in *. cbn [app] in *.
    rewrite length_app in Hlen. cbn [length] in Hlen.
    destruct rounds as [|rounds]; [lia|].
    assert (fgets (MAX_LINE - 1) (body ++ ch_newline :: mjoin ls)
            = (body ++ [ch_newline], mjoin ls)) as Hfgets.
    { apply fgets_line; [done|]. unfold fits_line in Hfit.
      rewrite length_app in Hfit. simpl in Hfit. unfold MAX_LINE. lia. }
    destruct (body ++ ch_newline :: mjoin ls) as [|c f] eqn:E;
      [by destruct body|].
    rewrite load_lines_step, Hfgets. cbn [fst snd]. apply IH. lia.
Qed.

Lemma plain_not_newline (tok : cstring) : Forall plain tok → ch_newline ∉ tok.
Proof.
  intros Hp Hin. rewrite Forall_forall in Hp.
  destruct (Hp _ Hin) as [Hs _]. by vm_compute in Hs.
Qed.

Lemma escaped_no_newline (t : cstring) :
  ch_newline ∉ t → ch_newline ∉ fwrite_quoted t.
Proof.
  intros Ht. unfold fwrite_quoted.
  rewrite not_elem_of_cons, not_elem_of_app, not_elem_of_cons.
  split_and!; [done| |done|apply not_elem_of_nil].
  induction t as [|c t IH]; [apply not_elem_of_nil|].
  apply not_elem_of_cons in Ht as [Hc Ht].
  rewrite bind_cons, not_elem_of_app. split; [|by apply IH].
  unfold escape_char. case_bool_decide;
    rewrite !not_elem_of_cons; split_and!; try done; apply not_elem_of_nil.
Qed.

Lemma node_line_proper n :
  good_name (name n) → fits_line (node_line n) → proper_line (node_line n).
Proof.
  intros (_ & _ & Hp) Hfit.
  exists (lit "NODE" ++ ch_space :: name n ++ ch_space :: fmt3 (valence n)
            ++ ch_space :: fmt3 (baseline_intensity n)).
  split; [rewrite node_line_body; by norm_app|]. split; [|done].
  destruct (fmt3_plain (valence n)) as [_ Hv].
  destruct (fmt3_plain (baseline_intensity n)) as [_ Hb].
  unfold lit. cbn [list_ascii_of_string].
  repeat (rewrite not_elem_of_app || rewrite not_elem_of_cons).
  split_and!; try (by apply plain_not_newline); try done.
Qed.

Lemma tip_line_proper n t :
  good_name (name n) → ch_newline ∉ t → fits_line (tip_line n t) →
  proper_line (tip_line n t).
Proof.
  intros (_ & _ & Hp) Ht Hfit.
  exists (lit "TIP" ++ ch_space :: name n ++ ch_space :: fwrite_quoted t).
  split; [rewrite tip_line_body; by norm_app|]. split; [|done].
  unfold lit. cbn [list_ascii_of_string].
  repeat (rewrite not_elem_of_app || rewrite not_elem_of_cons).
  split_and!; try (by apply plain_not_newline); try done.
  by apply escaped_no_newline.
Qed.

Lemma edge_text_proper from to_ w proc :
  good_name from → good_name to_ →
  (∀ pr, proc = Some pr → ch_newline ∉ pr) →
  fits_line (edge_text from to_ w proc) →
  proper_line (edge_text from to_ w proc).
Proof.
  intros (_ & _ & Hp1) (_ & _ & Hp2) Hproc Hfit.
  exists (lit "EDGE" ++ ch_space :: from ++ ch_space :: to_ ++ ch_space :: fmt3 w
            ++ ch_space :: quoted_procedure proc).
  split; [rewrite edge_text_body; by norm_app|]. split; [|done].
  destruct (fmt3_plain w) as [_ Hw].
  unfold lit. cbn [list_ascii_of_string].
  repeat (rewrite not_elem_of_app || rewrite not_elem_of_cons).
  split_and!; try (by apply plain_not_newline); try done.
  rewrite quoted_procedure_default. apply escaped_no_newline.
  destruct proc as [pr|]; [by apply Hproc|apply not_elem_of_nil].
Qed.

Lemma fits_tip_length n t :
  fits_line (tip_line n t) → (length t ≤ MAX_LINE - 1)%nat.
Proof.
  unfold fits_line, tip_line. rewrite !length_app.
  pose proof (length_fwrite_quoted t). lia.
Qed.

Lemma fits_edge_length from to_ w proc :
  fits_line (edge_text from to_ w proc) →
  (length (default [] proc) ≤ MAX_LINE - 1)%nat.
Proof.
  unfold fits_line, edge_text. rewrite !length_app, quoted_procedure_default.
  pose proof (length_fwrite_quoted (default [] proc)). lia.
Qed.

Lemma load_line_node g n :
  good_name (name n) → graph_find g (name n) = None →
  load_line (node_line n) g =
    g ++ [mkNode (name n) (reread_atof (valence n))
            (reread_atof (baseline_intensity n)) [] []].
Proof.
  intros Hgood Hfresh. rewrite node_line_body, load_line_record;
    [|rewrite !elem_of_cons; by left].
  change (streq (lit "NODE") (lit "NODE")) with true. cbn match.
  by apply load_node_fresh.
Qed.

Lemma load_line_tip g n t :
  good_name (name n) → fits_line (tip_line n t) →
  load_line (tip_line n t) g = graph_add_tip g (name n) t.
Proof.
  intros Hgood Hfit. rewrite tip_line_body, load_line_record;
    [|rewrite !elem_of_cons; by right; left].
  change (streq (lit "TIP") (lit "NODE")) with false.
  change (streq (lit "TIP") (lit "TIP")) with true. cbn match.
  apply load_tip_line; [done|by eapply fits_tip_length].
Qed.

Lemma load_line_edge g from to_ w proc :
  good_name from → good_name to_ → fits_line (edge_text from to_ w proc) →
  load_line (edge_text from to_ w proc) g =
    graph_add_edge g from to_ (reread w) (Some (default [] proc)).
Proof.
  intros Hfrom Hto Hfit. rewrite edge_text_body, load_line_record;
    [|rewrite !elem_of_cons; by right; right; left].
  change (streq (lit "EDGE") (lit "NODE")) with false.
  change (streq (lit "EDGE") (lit "TIP")) with false. cbn match.
  apply load_edge_line; [done|done|by eapply fits_edge_length].
Qed.
End file_lemmas.

Section reload_nodes.
Implicit Types (g acc : EmotionGraph) (n : EmotionNode).

Lemma graph_add_tip_last acc n t :
  graph_find acc (name n) = None →
  graph_add_tip (acc ++ [n]) (name n) t = acc ++ [add_tip_to t n].
Proof.
  intros Hfresh. unfold graph_add_tip, find_or_add.
  rewrite graph_find_snoc, Hfresh, decide_True by done.
  by rewrite <-(Nat.add_0_r (length acc)), alter_app_r.
Qed.

Lemma load_tip_lines acc n ts n0 :
  name n0 = name n → good_name (name n) → graph_find acc (name n) = None →
  (∀ t, t ∈ ts → fits_line (tip_line n t)) →
  foldl (λ g l, load_line l g) (acc ++ [n0]) (tip_line n <$> ts)
    = acc ++ [mkNode (name n0) (valence n0) (baseline_intensity n0) (edges n0)
                (tips n0 ++ ts)].
Proof.
  intros Hname Hgood Hfresh. revert n0 Hname.
  induction ts as [|t ts IH]; intros n0 Hname Hfit.
  - simpl. rewrite app_nil_r. by destruct n0.
  - cbn [fmap list_fmap foldl]. rewrite load_line_tip; [|done|apply Hfit; by left].
    rewrite <-Hname, graph_add_tip_last by by rewrite Hname.
    rewrite IH; [|by rewrite <-Hname|intros t' Ht'; apply Hfit; by right].
    cbn [add_tip_to name valence baseline_intensity edges tips].
    by rewrite <-app_assoc.
Qed.

Lemma load_node_lines acc n :
  good_name (name n) → graph_find acc (name n) = None →
  (∀ t, t ∈ tips n → fits_line (tip_line n t)) →
  foldl (λ g l, load_line l g) acc (node_lines n) = acc ++ [loaded_node n].
Proof.
  intros Hgood Hfresh Hfit. unfold node_lines. cbn [foldl].
  rewrite load_line_node by done. by rewrite load_tip_lines.
Qed.

Lemma load_all_nodes g acc :
  NoDup ((name <$> acc) ++ (name <$> g)) →
  (∀ n, n ∈ g → good_name (name n) ∧
                 ∀ t, t ∈ tips n → fits_line (tip_line n t)) →
  foldl (λ g l, load_line l g) acc (g ≫= node_lines) = acc ++ (loaded_node <$> g).
Proof.
  revert acc. induction g as [|n g IH]; intros acc Hnd Hall.
  - simpl. by rewrite app_nil_r.
  - rewrite bind_cons, foldl_app.
    destruct (Hall n) as [Hgood Hfit]; [by left|].
    assert (graph_find acc (name n) = None) as Hfresh.
    { apply graph_find_None. intros m Hm Heq.
      apply NoDup_app in Hnd as (_ & Hdisj & _).
      apply (Hdisj (name m)); [by apply list_elem_of_fmap_2|].
      rewrite Heq, fmap_cons. by left. }
    rewrite load_node_lines by done.
    rewrite IH.
    + rewrite fmap_cons, <-app_assoc. done.
    + rewrite fmap_app, <-app_assoc. done.
    + intros m Hm. apply Hall. by right.
Qed.
End reload_nodes.

Section reload_edges.
Implicit Types (g acc : EmotionGraph) (n : EmotionNode) (ie : nat * Edge).

Lemma graph_find_NoDup g i n :
  NoDup (name <$> g) → g !! i = Some n → graph_find g (name n) = Some i.
Proof.
  intros Hnd Hi. apply graph_find_Some. exists n. split_and!; [done|done|].
  intros j m Hj Hlt Heq.
  assert (j = i); [|lia].
  eapply (NoDup_lookup _ _ _ (name n) Hnd); rewrite list_lookup_fmap.
  - by rewrite Hj, <-Heq.
  - by rewrite Hi.
Qed.

Lemma graph_add_edge_at g A B u v w proc :
  forbidden A B = false → graph_find g A = Some u → graph_find g B = Some v →
  graph_add_edge g A B w proc = add_edge_at g u v w proc.
Proof.
  intros Hf Hu Hv. unfold graph_add_edge. fold (forbidden A B). rewrite Hf.
  unfold find_or_add. by rewrite Hu, Hv.
Qed.

Lemma names_add_saved_edge acc ie : name <$> add_saved_edge acc ie = name <$> acc.
Proof. unfold add_saved_edge, add_edge_at. by rewrite !names_alter_edge. Qed.

Lemma load_saved_edges g L acc :
  NoDup (name <$> g) → name <$> acc = name <$> g →
  (∀ ie, ie ∈ L → ∃ n nt,
      g !! ie.1 = Some n ∧ g !! (to ie.2) = Some nt ∧
      good_name (name n) ∧ good_name (name nt) ∧
      forbidden (name n) (name nt) = false ∧
      fits_line (edge_text (name n) (name nt) (weight ie.2) (procedure ie.2))) →
  foldl (λ g l, load_line l g) acc (saved_edge_text g <$> L)
    = foldl add_saved_edge acc L.
Proof.
  intros Hnd. revert acc. induction L as [|ie L IH]; intros acc Hnames Hall; [done|].
  cbn [fmap list_fmap foldl].
  destruct (Hall ie) as (n & nt & Hn & Hnt & Hg1 & Hg2 & Hforb & Hfit); [by left|].
  assert (load_line (saved_edge_text g ie) acc = add_saved_edge acc ie) as ->.
  { unfold saved_edge_text, name_at. rewrite Hn, Hnt. cbn [from_option].
    rewrite load_line_edge by done.
    apply graph_add_edge_at; [done|..];
      rewrite (graph_find_same_names acc g) by done; by apply graph_find_NoDup. }
  apply IH; [by rewrite names_add_saved_edge|].
  intros ie' Hie'. apply Hall. by right.
Qed.

Lemma add_saved_edge_lookup acc ie k :
  add_saved_edge acc ie !! k =
  (λ n, mkNode (name n) (valence n) (baseline_intensity n)
          (edges n ++ reloaded_at k ie) (tips n)) <$> acc !! k.
Proof.
  unfold add_saved_edge, add_edge_at, reloaded_at.
  fold (reloaded_forward ie). fold (reloaded_mirror ie).
  destruct (decide (to ie.2 = k)) as [<-|Hk1].
  - rewrite list_lookup_alter_eq. destruct (decide (ie.1 = to ie.2)) as [->|Hk2].
    + rewrite list_lookup_alter_eq. destruct (acc !! _) as [n|]; [|done].
      unfold add_edge_to. simpl. by rewrite <-app_assoc.
    + rewrite list_lookup_alter_ne by done. by destruct (acc !! _).
  - rewrite list_lookup_alter_ne by done. destruct (decide (ie.1 = k)) as [<-|Hk2].
    + rewrite list_lookup_alter_eq. by destruct (acc !! _).
    + rewrite list_lookup_alter_ne by done. destruct (acc !! _) as [n|]; [|done].
      simpl. rewrite app_nil_r. by destruct n.
Qed.

Lemma add_saved_edges_spec L acc :
  foldl add_saved_edge acc L =
  imap (λ k n, mkNode (name n) (valence n) (baseline_intensity n)
                 (edges n ++ (L ≫= reloaded_at k)) (tips n)) acc.
Proof.
  revert acc. induction L as [|ie L IH]; intros acc; apply list_eq; intros k.
  - rewrite list_lookup_imap. simpl. destruct (acc !! k) as [n|]; [|done].
    simpl. rewrite app_nil_r. by destruct n.
  - cbn [foldl]. rewrite IH, !list_lookup_imap, add_saved_edge_lookup.
    destruct (acc !! k) as [n|]; [|done]. simpl.
    by rewrite <-app_assoc.
Qed.

Lemma saved_edges_from_elem k ns i e :
  (i, e) ∈ saved_edges_from k ns ↔
  ∃ j n, i = (k + j)%nat ∧ ns !! j = Some n ∧ e ∈ edges n ∧ (i < to e)%nat.
Proof.
  revert k. induction ns as [|n ns IH]; intros k; cbn [saved_edges_from].
  - rewrite elem_of_nil. split; [done|]. by intros (j & n & _ & Hn & _).
  - rewrite elem_of_app, list_elem_of_fmap, IH. split.
    + intros [(e' & [= -> ->] & [Hlt He]%list_elem_of_filter)|
              (j & m & -> & Hm & He & Hlt)].
      * exists 0%nat, n. rewrite Nat.add_0_r. by split_and!.
      * exists (S j), m. split_and!; [lia|done|done|lia].
    + intros ([|j] & m & -> & Hm & He & Hlt).
      * left. simplify_eq/=. exists e. rewrite Nat.add_0_r in *.
        split; [done|]. by apply list_elem_of_filter.
      * right. exists j, m. simpl in Hm. split_and!; [lia|done|done|lia].
Qed.

Lemma saved_edges_elem g i e :
  (i, e) ∈ saved_edges g ↔ ∃ n, g !! i = Some n ∧ e ∈ edges n ∧ (i < to e)%nat.
Proof.
  unfold saved_edges. rewrite saved_edges_from_elem. split.
  - intros (j & n & -> & H). by exists n.
  - intros (n & H). by exists i, n.
Qed.
End reload_edges.

Section save_load.
Implicit Types (g : EmotionGraph) (n : EmotionNode).

Lemma save_edges_of_spec g i n es :
  g !! i = Some n →
  (∀ e, e ∈ es → (i < to e)%nat → (to e < length g)%nat) →
  save_edges_of g i n es =
    Some (mjoin (saved_edge_text g <$> (pair i <$> filter (λ e, i < to e)%nat es))).
Proof.
  intros Hn. induction es as [|e es IH]; intros Hwf; [done|].
  cbn [save_edges_of]. rewrite IH by (intros e' He'; apply Hwf; by right).
  unfold edge_line. case_bool_decide as Hlt.
  - destruct (lookup_lt_is_Some_2 g (to e)) as [nt Hnt]; [by apply Hwf; [left|]|].
    rewrite Hnt, filter_cons_True by done. cbn.
    unfold saved_edge_text, name_at. cbn [fst snd]. by rewrite Hn, Hnt.
  - by rewrite filter_cons_False by done.
Qed.

Lemma save_edges_from_spec g i ns :
  drop i g = ns →
  (∀ j n e, g !! j = Some n → e ∈ edges n → (j < to e)%nat → (to e < length g)%nat) →
  save_edges_from g i ns =
    Some (mjoin (saved_edge_text g <$> saved_edges_from i ns)).
Proof.
  intros Hdrop Hwf. revert i Hdrop. induction ns as [|n ns IH]; intros i Hdrop; [done|].
  assert (g !! i = Some n) as Hn.
  { rewrite <-(Nat.add_0_r i), <-lookup_drop, Hdrop. done. }
  cbn [save_edges_from saved_edges_from].
  rewrite (save_edges_of_spec g i n (edges n) Hn) by (intros e He; by eapply Hwf).
  rewrite IH.
  - cbn. by rewrite fmap_app, join_app.
  - rewrite (drop_S _ _ _ Hn) in Hdrop. by simplify_eq.
Qed.

Lemma join_node_blocks g : mjoin (node_block <$> g) = mjoin (g ≫= node_lines).
Proof.
  induction g as [|n g IH]; [done|].
  rewrite bind_cons, join_app, <-IH. done.
Qed.

Lemma persistable_wf g :
  persistable g →
  ∀ j n e, g !! j = Some n → e ∈ edges n → (j < to e)%nat → (to e < length g)%nat.
Proof.
  intros (_ & _ & Hedges) j n e Hn He Hlt.
  rewrite Forall_forall in Hedges.
  destruct (Hedges (j, e)) as [H _]; [|done].
  apply saved_edges_elem. eauto.
Qed.

Lemma save_graph_lines g :
  persistable g →
  save_graph g =
    Some (mjoin ((g ≫= node_lines) ++ (saved_edge_text g <$> saved_edges g))).
Proof.
  intros Hp. unfold save_graph, saved_edges.
  rewrite (save_edges_from_spec g 0 g) by (done || by apply persistable_wf).
  cbn. by rewrite join_node_blocks, join_app.
Qed.

Lemma saved_edge_facts g i e :
  persistable g → (i, e) ∈ saved_edges g →
  ∃ n nt,
    g !! i = Some n ∧ g !! (to e) = Some nt ∧ e ∈ edges n ∧ (i < to e)%nat ∧
    good_name (name n) ∧ good_name (name nt) ∧
    forbidden (name n) (name nt) = false ∧
    fits_line (edge_text (name n) (name nt) (weight e) (procedure e)) ∧
    (ch_newline ∉ default [] (procedure e)) ∧
    saved_edge_text g (i, e) = edge_text (name n) (name nt) (weight e) (procedure e).
Proof.
  intros (Hnd & Hnodes & Hedges) Hie.
  rewrite Forall_forall in Hnodes. rewrite Forall_forall in Hedges.
  destruct (Hedges _ Hie) as (Hto & Hforb & Hfit & Hnl).
  apply saved_edges_elem in Hie as (n & Hn & He & Hlt).
  destruct (lookup_lt_is_Some_2 g (to e)) as [nt Hnt]; [done|].
  unfold saved_edge_text, name_at in *. cbn [fst snd] in *.
  rewrite Hn, Hnt in *. cbn [from_option] in *.
  exists n, nt. split_and!; try done.
  - eapply Hnodes. by eapply list_elem_of_lookup_2.
  - eapply Hnodes. by eapply list_elem_of_lookup_2.
Qed.

Lemma persistable_lines_proper g :
  persistable g →
  Forall proper_line ((g ≫= node_lines) ++ (saved_edge_text g <$> saved_edges g)).
Proof.
  intros Hp. pose proof Hp as (Hnd & Hnodes & Hedges).
  rewrite Forall_forall in Hnodes.
  apply Forall_app. split.
  - apply Forall_forall. intros l (n & Hl & Hn)%list_elem_of_bind.
    destruct (Hnodes n Hn) as (Hgood & Hfit & Htips).
    unfold node_lines in Hl. apply elem_of_cons in Hl as [->|Hl].
    + by apply node_line_proper.
    + apply list_elem_of_fmap in Hl as (t & -> & Ht).
      rewrite Forall_forall in Htips. destruct (Htips t Ht) as [Hnl Hft].
      by apply tip_line_proper.
  - apply Forall_forall. intros l ([i e] & -> & Hie)%list_elem_of_fmap.
    destruct (saved_edge_facts g i e Hp Hie)
      as (n & nt & _ & _ & _ & _ & Hg1 & Hg2 & _ & Hfit & Hnl & ->).
    apply edge_text_proper; [done|done| |done].
    intros pr Hpr. by rewrite Hpr in Hnl.
Qed.

(** Save then load: the text is read back as [reload_image]. *)
Lemma load_saved_graph g :
  persistable g →
  ∃ f, save_graph g = Some f ∧ load_graph [] f = reload_image g.
Proof.
  intros Hp. eexists. split; [by apply save_graph_lines|].
  pose proof Hp as (Hnd & Hnodes & Hedges). rewrite Forall_forall in Hnodes.
  unfold load_graph. rewrite load_lines_join;
    [|by apply persistable_lines_proper|done].
  rewrite foldl_app, (load_all_nodes g []).
  - rewrite app_nil_l. rewrite (load_saved_edges g).
    + rewrite add_saved_edges_spec. unfold reload_image, loaded_node.
      by rewrite imap_fmap.
    + done.
    + rewrite <-list_fmap_compose. done.
    + intros [i e] Hie.
      destruct (saved_edge_facts g i e Hp Hie)
        as (n & nt & Hn & Hnt & _ & _ & Hg1 & Hg2 & Hforb & Hfit & _ & _).
      exists n, nt. by split_and!.
  - done.
  - intros n Hn. destruct (Hnodes n Hn) as (Hgood & _ & Htips).
    split; [done|]. intros t Ht. rewrite Forall_forall in Htips.
    by destruct (Htips t Ht).
Qed.

Lemma reload_image_lookup g k :
  reload_image g !! k =
  (λ n, mkNode (name n) (reread_atof (valence n))
          (reread_atof (baseline_intensity n))
          (saved_edges g ≫= reloaded_at k) (tips n)) <$> g !! k.
Proof. unfold reload_image. by rewrite list_lookup_imap. Qed.

Lemma reload_image_fields g :
  name <$> reload_image g = name <$> g ∧
  tips <$> reload_image g = tips <$> g ∧
  valence <$> reload_image g = reread_atof ∘ valence <$> g ∧
  baseline_intensity <$> reload_image g = reread_atof ∘ baseline_intensity <$> g.
Proof.
  split_and!; apply list_eq; intros k;
    rewrite !list_lookup_fmap, reload_image_lookup; by destruct (g !! k).
Qed.

Lemma reload_image_edges g k e' :
  e' ∈ edges_at (reload_image g) k ↔
  (k < length g)%nat ∧
  ∃ i n e, g !! i = Some n ∧ e ∈ edges n ∧ (i < to e)%nat ∧
    ((i = k ∧ e' = reloaded_forward (i, e)) ∨
     (to e = k ∧ e' = reloaded_mirror (i, e))).
Proof.
  unfold edges_at. rewrite reload_image_lookup.
  destruct (g !! k) as [nk|] eqn:Hk; simpl.
  - apply lookup_lt_Some in Hk as Hlt.
    rewrite list_elem_of_bind. split.
    + intros ([i e] & Hin & (n & Hn & He & Hie)%saved_edges_elem).
      split; [done|]. exists i, n, e. split_and!; [done..|].
      unfold reloaded_at in Hin. simpl in Hin.
      apply elem_of_app in Hin as [Hin|Hin]; case_decide;
        try (by apply elem_of_nil in Hin);
        apply list_elem_of_singleton in Hin; eauto.
    + intros (_ & i & n & e & Hn & He & Hie & Hcase).
      exists (i, e). split; [|apply saved_edges_elem; eauto].
      unfold reloaded_at. simpl. apply elem_of_app.
      destruct Hcase as [[-> ->]|[<- ->]]; [left|right];
        rewrite decide_True by done; by apply list_elem_of_singleton.
  - apply lookup_ge_None in Hk. rewrite elem_of_nil. split; [done|]. lia.
Qed.
End save_load.


(** * Persistence: the claims *)

Section codec_claims.
Implicit Types (g : EmotionGraph) (n : EmotionNode) (s t : cstring).

(** C1 as stated fails: weights are written with three decimals, so the
    weight 0.0004 of the edge a - b is read back as 0; the edge set does not
    keep "the same weights". *)
Lemma weight_rounded_on_reload :
  all_weights fine_weight = [w0_0004; w0_0004] ∧
  save_graph fine_weight
    = Some (lit "NODE a -0.500 5.000" ++ ch_newline :: lit "NODE b 0.000 5.000"
            ++ ch_newline :: lit "EDGE a b 0.000 " ++ ch_quote :: lit "walk"
            ++ [ch_quote; ch_newline]) ∧
  all_weights <$> (load_graph graph_new <$> save_graph fine_weight)
    = Some [F32.zero; F32.zero] ∧
  F32.eqb w0_0004 F32.zero = false.
Proof. by vm_compute. Qed.

(** What the saved text does not hold.  [back_edge] carries the procedure
    "walk" on the edge b -> a, stored at the higher-index end; only the
    record of a -> b is written, so after save and load no edge carries
    "walk". *)
Lemma procedure_lost_on_reload :
  all_procedures back_edge = [None; Some (lit "walk")] ∧
  save_graph back_edge
    = Some (lit "NODE a 0.000 5.000" ++ ch_newline :: lit "NODE b 0.000 5.000"
            ++ ch_newline :: lit "EDGE a b 1.000 "
            ++ [ch_quote; ch_quote; ch_newline]) ∧
  all_procedures <$> (load_graph graph_new <$> save_graph back_edge)
    = Some [Some []; None].
Proof. by vm_compute. Qed.

(** On the default data every valence, baseline and weight is a fixed point
    of the three-decimal text, so a round trip restores them exactly. *)
Lemma seed_numbers_reread_exactly :
  reread_atof ∘ valence <$> seed_defaults = valence <$> seed_defaults ∧
  reread_atof ∘ baseline_intensity <$> seed_defaults
    = baseline_intensity <$> seed_defaults ∧
  clamp_weight ∘ reread <$> all_weights seed_defaults = all_weights seed_defaults.
Proof. by vm_compute. Qed.

(** C6: where the code departs from the claim.  An edge without procedure
    is written as two quote characters, read back as the empty text and stored as a non-NULL
    procedure; the planner tests the pointer, so after a reload the edge
    gets the 0.80 discount although its procedure is empty: the cost of
    A - B drops from 0.95 to 0.76, and on the default data the cost from
    lonely to happy changes as well. *)
Theorem empty_procedure_discounted_after_reload :
  all_procedures plain_pair = [None; None] ∧
  run_dijkstra_personalized plain_pair 0 1
    = Some (F32.of_ratio 95 100, Some [0; 1]%nat) ∧
  (all_procedures <$> (load_graph graph_new <$> save_graph plain_pair))
    = Some [Some []; None] ∧
  ((λ g, run_dijkstra_personalized g 0 1)
     <$> (load_graph graph_new <$> save_graph plain_pair))
    = Some (Some (F32.of_ratio 76 100, Some [0; 1]%nat)) ∧
  adjusted_weight (mkNode (lit "B") F32.zero five [] []) (mkEdge 1 F32.one (Some []))
    = F32.of_ratio 76 100 ∧
  adjusted_weight (mkNode (lit "B") F32.zero five [] []) (mkEdge 1 F32.one None)
    = F32.of_ratio 95 100 ∧
  (fst <$> run_dijkstra_personalized seed_defaults 5 9)
    ≠ ((load_graph graph_new <$> save_graph seed_defaults)
         ≫= λ g, fst <$> run_dijkstra_personalized g 5 9).
Proof. split_and!; by vm_compute. Qed.
End codec_claims.

(** * Graph store: invariants and edge behaviour *)

Section store_invariants.
Implicit Types (g : EmotionGraph) (n : EmotionNode) (nm : cstring).

Lemma find_or_add_shape g nm val base :
  ∃ g' i, find_or_add g nm val base = (g', i) ∧ (i < length g')%nat ∧
    ((g' = g ∧ graph_find g nm = Some i) ∨
     (g' = g ++ [mkNode (take (MAX_NAME_LEN - 1) nm) val base [] []] ∧
      i = length g ∧ graph_find g nm = None)).
Proof.
  unfold find_or_add, graph_add_node. destruct (graph_find g nm) as [i|] eqn:E.
  - exists g, i. split_and!; [done|by eapply graph_find_lt|by left].
  - eexists _, _. split_and!; [done|rewrite length_app; simpl; lia|by right].
Qed.

Lemma graph_add_node_find_or_add g nm val base :
  graph_add_node g nm val base = find_or_add g nm val base.
Proof. unfold find_or_add, graph_add_node. by destruct (graph_find g nm). Qed.

Lemma take_name_valid nm : valid_name (take (MAX_NAME_LEN - 1) nm).
Proof.
  unfold valid_name, MAX_NAME_LEN. rewrite length_take. lia.
Qed.

Lemma graph_wf_snoc g n : graph_wf g → edges n = [] → graph_wf (g ++ [n]).
Proof.
  intros Hwf He u nu e Hu Hin. rewrite length_app. simpl.
  apply lookup_app_Some in Hu as [Hu|[_ Hu]].
  - pose proof (Hwf _ _ _ Hu Hin). lia.
  - apply list_lookup_singleton_Some in Hu as [_ <-]. rewrite He in Hin.
    by apply elem_of_nil in Hin.
Qed.

Lemma find_or_add_store_inv g nm val base :
  store_inv g → store_inv (find_or_add g nm val base).1.
Proof.
  intros [Hwf Hnb].
  destruct (find_or_add_shape g nm val base) as (g' & i & -> & _ & [[-> _]|[-> _]]);
    [done|]. split; [by apply graph_wf_snoc|].
  apply Forall_app. split; [done|]. apply Forall_singleton, take_name_valid.
Qed.

Lemma graph_wf_alter_edge g e i :
  graph_wf g → (to e < length g)%nat → graph_wf (alter (add_edge_to e) i g).
Proof.
  intros Hwf He u nu e' Hu Hin. rewrite length_alter.
  destruct (decide (i = u)) as [->|Hne].
  - rewrite list_lookup_alter_eq in Hu. destruct (g !! u) as [n|] eqn:En; [|done].
    simpl in Hu. simplify_eq. simpl in Hin.
    apply elem_of_app in Hin as [Hin|Hin%list_elem_of_singleton]; [|by subst].
    by eapply Hwf.
  - rewrite list_lookup_alter_ne in Hu by done. by eapply Hwf.
Qed.

Lemma names_bounded_same_names g g' :
  name <$> g' = name <$> g → names_bounded g → names_bounded g'.
Proof.
  unfold names_bounded. intros Hn Hb.
  apply (Forall_fmap name valid_name). rewrite Hn. by apply Forall_fmap.
Qed.

Lemma graph_wf_same_edges g g' :
  length g' = length g → (∀ i, edges_at g' i = edges_at g i) →
  graph_wf g → graph_wf g'.
Proof.
  intros Hlen Hed Hwf u nu e Hu Hin. rewrite Hlen.
  destruct (lookup_lt_is_Some_2 g u) as [n Hn];
    [apply lookup_lt_Some in Hu; lia|].
  apply (Hwf u n e Hn). specialize (Hed u). unfold edges_at in Hed.
  rewrite Hu, Hn in Hed. simpl in Hed. by rewrite <-Hed.
Qed.

Lemma edges_at_alter_tip g t i k :
  edges_at (alter (add_tip_to t) i g) k = edges_at g k.
Proof.
  unfold edges_at. destruct (decide (i = k)) as [->|Hne].
  - rewrite list_lookup_alter_eq. by destruct (g !! k).
  - by rewrite list_lookup_alter_ne.
Qed.

Lemma graph_add_edge_store_inv g nm nm' w proc :
  store_inv g → store_inv (graph_add_edge g nm nm' w proc).
Proof.
  intros Hinv. unfold graph_add_edge. destruct (_ && _); [done|].
  pose proof (find_or_add_store_inv g nm neg_half five Hinv) as H1.
  destruct (find_or_add_shape g nm neg_half five) as (g1 & u & E1 & Hu & _).
  rewrite E1 in *. simpl in H1.
  pose proof (find_or_add_store_inv g1 nm' F32.zero five H1) as H2.
  destruct (find_or_add_shape g1 nm' F32.zero five) as (g2 & v & E2 & Hv & Hcase).
  rewrite E2 in *. simpl in H2. destruct H2 as [Hwf Hnb].
  assert (u < length g2)%nat as Hu2.
  { destruct Hcase as [[-> _]|[-> _]]; [done|]. rewrite length_app. lia. }
  split.
  - apply graph_wf_alter_edge; [apply graph_wf_alter_edge|]; simpl;
      rewrite ?length_alter; done.
  - eapply names_bounded_same_names; [|done]. by rewrite !names_alter_edge.
Qed.

Lemma graph_add_tip_store_inv g nm t :
  store_inv g → store_inv (graph_add_tip g nm t).
Proof.
  intros Hinv. unfold graph_add_tip.
  pose proof (find_or_add_store_inv g nm neg_fifth five Hinv) as H1.
  destruct (find_or_add g nm neg_fifth five) as [g1 idx]. simpl in H1.
  destruct H1 as [Hwf Hnb]. split.
  - eapply graph_wf_same_edges; [apply length_alter| |done].
    intros i. apply edges_at_alter_tip.
  - eapply names_bounded_same_names; [|done]. by rewrite names_alter_tip.
Qed.

(** X1. The store invariants - every edge points at an existing node and
    every stored name fits the 47-character buffer - are kept by
    [graph_add_node], [graph_add_edge] and [graph_add_tip], whatever the
    arguments. *)
Theorem store_operations_keep_invariants g nm nm' val base w proc t :
  store_inv g →
  store_inv (graph_add_node g nm val base).1 ∧
  store_inv (graph_add_edge g nm nm' w proc) ∧
  store_inv (graph_add_tip g nm t).
Proof.
  intros Hinv. split_and!.
  - rewrite graph_add_node_find_or_add. by apply find_or_add_store_inv.
  - by apply graph_add_edge_store_inv.
  - by apply graph_add_tip_store_inv.
Qed.

Lemma store_operations_keep_invariants_witness :
  store_inv (graph_add_edge graph_new (lit "sad") (lit "calm") F32.one None).
Proof.
  apply (store_operations_keep_invariants graph_new (lit "sad") (lit "calm")
           F32.zero five F32.one None []).
  split; [by intros [|?] ? ? ?|constructor].
Defined.
End store_invariants.

Section store_behaviour.
Implicit Types (g : EmotionGraph) (n : EmotionNode) (nm : cstring).

(** X2. Insert then look up: for a name that fits the buffer,
    [graph_add_node] returns the index under which [graph_find] finds the
    name afterwards, a second call with any attributes changes nothing and
    returns the same index, and every name found before is still found at
    its index. *)
Theorem graph_add_node_then_find g nm val base val' base' :
  valid_name nm →
  graph_find (graph_add_node g nm val base).1 nm
    = Some (graph_add_node g nm val base).2 ∧
  graph_add_node (graph_add_node g nm val base).1 nm val' base'
    = graph_add_node g nm val base ∧
  ∀ other j, graph_find g other = Some j →
    graph_find (graph_add_node g nm val base).1 other = Some j.
Proof.
  intros Hv. rewrite !graph_add_node_find_or_add.
  destruct (find_or_add g nm val base) as [g' i] eqn:E. cbn [fst snd].
  pose proof (find_or_add_find _ _ _ _ _ _ Hv E) as Hfind.
  split_and!; [done| |].
  - unfold find_or_add at 1. by rewrite Hfind.
  - intros other j Hj.
    by apply (proj2 (proj2 (find_or_add_node_of _ _ _ _ _ _ other Hv E))).
Qed.

Lemma graph_add_node_then_find_witness :
  graph_find (graph_add_node graph_new (lit "sad") neg_half five).1 (lit "sad")
    = Some 0%nat.
Proof.
  destruct (graph_add_node_then_find graph_new (lit "sad") neg_half five
              F32.zero F32.one) as (H & _); [vm_compute; lia|exact H].
Defined.

Lemma graph_find_too_long g nm :
  names_bounded g → ¬ valid_name nm → graph_find g nm = None.
Proof.
  intros Hb Hlong. apply graph_find_None. intros n Hn Heq.
  unfold names_bounded in Hb. rewrite Forall_forall in Hb.
  apply Hlong. rewrite <-Heq. by apply Hb.
Qed.

(** X3. A name of 48 characters or more is stored cut to 47 characters and
    is never found again under its full text: in a graph whose names fit the
    buffer, every further [graph_add_node] with that name appends one more
    node, all carrying the same stored name. *)
Theorem long_name_is_added_again g nm val base k :
  names_bounded g → ¬ valid_name nm →
  graph_find (add_node_times k g nm val base) nm = None ∧
  name <$> add_node_times k g nm val base
    = (name <$> g) ++ replicate k (take (MAX_NAME_LEN - 1) nm).
Proof.
  intros Hb Hlong.
  assert (names_bounded (add_node_times k g nm val base) ∧
          name <$> add_node_times k g nm val base
            = (name <$> g) ++ replicate k (take (MAX_NAME_LEN - 1) nm)) as [Hbk Hk].
  { induction k as [|k [IHb IHn]]; [by rewrite app_nil_r|].
    change (add_node_times (S k) g nm val base)
      with (graph_add_node (add_node_times k g nm val base) nm val base).1.
    set (gk := add_node_times k g nm val base) in *.
    pose proof (graph_find_too_long gk nm IHb Hlong) as Hnone.
    unfold graph_add_node. rewrite Hnone. cbn [fst]. split.
    - apply Forall_app. split; [done|]. apply Forall_singleton, take_name_valid.
    - rewrite fmap_app, IHn, <-app_assoc. f_equal.
      change (S k) with (1 + k)%nat. rewrite Nat.add_comm, replicate_add. done. }
  split; [by apply graph_find_too_long|done].
Qed.

Lemma long_name_is_added_again_witness :
  name <$> add_node_times 2 graph_new (replicate 50 "a"%char) neg_half five
    = replicate 2 (replicate 47 "a"%char).
Proof.
  destruct (long_name_is_added_again graph_new (replicate 50 "a"%char)
              neg_half five 2) as [_ H].
  - constructor.
  - vm_compute. lia.
  - exact H.
Defined.

Lemma find_or_add_NoDup g nm val base :
  valid_name nm → NoDup (name <$> g) →
  NoDup (name <$> (find_or_add g nm val base).1).
Proof.
  intros Hv Hnd.
  destruct (find_or_add_cases g nm val base Hv) as [[E1 ->]|(i & E1 & ->)]; [|done].
  cbn [fst]. rewrite fmap_app. apply NoDup_app. split_and!; [done| |].
  - intros x (n & -> & Hn)%list_elem_of_fmap Hx.
    apply list_elem_of_singleton in Hx. simpl in Hx.
    by apply (proj1 (graph_find_None g nm) E1 n Hn).
  - apply NoDup_singleton.
Qed.

(** X4. Names stay unique: in a graph without duplicate names, none of
    [graph_add_node], [graph_add_edge] and [graph_add_tip] creates a
    duplicate, provided the names passed fit the name buffer. *)
Theorem store_operations_keep_names_unique g nm nm' val base w proc t :
  valid_name nm → valid_name nm' → NoDup (name <$> g) →
  NoDup (name <$> (graph_add_node g nm val base).1) ∧
  NoDup (name <$> graph_add_edge g nm nm' w proc) ∧
  NoDup (name <$> graph_add_tip g nm t).
Proof.
  intros Hv Hv' Hnd. split_and!.
  - rewrite graph_add_node_find_or_add. by apply find_or_add_NoDup.
  - unfold graph_add_edge. destruct (_ && _); [done|].
    pose proof (find_or_add_NoDup g nm neg_half five Hv Hnd) as H1.
    destruct (find_or_add g nm neg_half five) as [g1 u]. cbn [fst] in H1.
    pose proof (find_or_add_NoDup g1 nm' F32.zero five Hv' H1) as H2.
    destruct (find_or_add g1 nm' F32.zero five) as [g2 v]. cbn [fst] in H2.
    by rewrite !names_alter_edge.
  - unfold graph_add_tip.
    pose proof (find_or_add_NoDup g nm neg_fifth five Hv Hnd) as H1.
    destruct (find_or_add g nm neg_fifth five) as [g1 u]. cbn [fst] in H1.
    by rewrite names_alter_tip.
Qed.

Lemma store_operations_keep_names_unique_witness :
  NoDup (name <$> graph_add_edge graph_new (lit "sad") (lit "sad") F32.one None).
Proof.
  apply (store_operations_keep_names_unique graph_new (lit "sad") (lit "sad")
           F32.zero five F32.one None []); [vm_compute; lia..|constructor].
Defined.
End store_behaviour.

(** * Graph store: what an operation leaves alone *)

Section store_frame.
Implicit Types (g : EmotionGraph) (n : EmotionNode) (nm : cstring).

Lemma node_extends_refl n : node_extends n n.
Proof. by split_and!. Qed.

Lemma node_extends_trans n1 n2 n3 :
  node_extends n1 n2 → node_extends n2 n3 → node_extends n1 n3.
Proof.
  intros (? & ? & ?) (? & ? & ?). split_and!; [congruence|by etrans..].
Qed.

Lemma graph_extends_refl g : graph_extends g g.
Proof. split; [done|]. intros i n ?. exists n. split; [done|apply node_extends_refl]. Qed.

Lemma graph_extends_trans g1 g2 g3 :
  graph_extends g1 g2 → graph_extends g2 g3 → graph_extends g1 g3.
Proof.
  intros [Hl1 H1] [Hl2 H2]. split; [lia|]. intros i n Hn.
  destruct (H1 i n Hn) as (n2 & Hn2 & He2).
  destruct (H2 i n2 Hn2) as (n3 & Hn3 & He3).
  exists n3. split; [done|by eapply node_extends_trans].
Qed.

Lemma graph_extends_app g news : graph_extends g (g ++ news).
Proof.
  split; [rewrite length_app; lia|]. intros i n Hn. exists n.
  split; [by apply lookup_app_l_Some|apply node_extends_refl].
Qed.

Lemma graph_extends_alter g (h : EmotionNode → EmotionNode) i :
  (∀ n, node_extends n (h n)) → graph_extends g (alter h i g).
Proof.
  intros Hh. split; [by rewrite length_alter|]. intros k n Hn.
  destruct (decide (i = k)) as [->|Hik].
  - exists (h n). rewrite list_lookup_alter_eq, Hn. done.
  - exists n. rewrite list_lookup_alter_ne by done. split; [done|apply node_extends_refl].
Qed.

Lemma add_edge_to_extends e n : node_extends n (add_edge_to e n).
Proof. split_and!; [done..|]. by apply prefix_app_r. Qed.

Lemma add_tip_to_extends t n : node_extends n (add_tip_to t n).
Proof. split_and!; [done| |done]. by apply prefix_app_r. Qed.

Lemma set_valence_extends v n : node_extends n (set_valence v n).
Proof. by split_and!. Qed.

Lemma set_baseline_extends b n : node_extends n (set_baseline b n).
Proof. by split_and!. Qed.

Lemma find_or_add_extends g nm val base :
  graph_extends g (find_or_add g nm val base).1.
Proof.
  destruct (find_or_add_shape g nm val base) as (g' & i & -> & _ & [[-> _]|(-> & _)]);
    [apply graph_extends_refl|apply graph_extends_app].
Qed.

Lemma add_edge_at_lookup g u v w proc k :
  add_edge_at g u v w proc !! k =
  (λ n, mkNode (name n) (valence n) (baseline_intensity n)
          (edges n ++ added_at u v w proc k) (tips n)) <$> g !! k.
Proof.
  unfold add_edge_at, added_at.
  destruct (decide (v = k)) as [<-|Hk1].
  - rewrite list_lookup_alter_eq. destruct (decide (u = v)) as [->|Hk2].
    + rewrite list_lookup_alter_eq. destruct (g !! _) as [n|]; [|done].
      unfold add_edge_to. simpl. by rewrite <-app_assoc.
    + rewrite list_lookup_alter_ne by done. by destruct (g !! _).
  - rewrite list_lookup_alter_ne by done. destruct (decide (u = k)) as [<-|Hk2].
    + rewrite list_lookup_alter_eq. by destruct (g !! _).
    + rewrite list_lookup_alter_ne by done. destruct (g !! _) as [n|]; [|done].
      simpl. rewrite app_nil_r. by destruct n.
Qed.

(** [graph_add_edge] that is not refused: the missing endpoints are appended
    with their default attributes, then the two edges are stored. *)
Lemma graph_add_edge_shape g A B w proc :
  forbidden A B = false →
  ∃ news u v,
    graph_add_edge g A B w proc = add_edge_at (g ++ news) u v w proc ∧
    (u < length (g ++ news))%nat ∧ (v < length (g ++ news))%nat ∧
    (length news ≤ 2)%nat ∧
    Forall (λ n, n = fresh_node A neg_half ∨ n = fresh_node B F32.zero) news.
Proof.
  intros Hf. unfold graph_add_edge. fold (forbidden A B). rewrite Hf.
  destruct (find_or_add_shape g A neg_half five)
    as (g1 & u & -> & Hu & [[-> _]|(-> & -> & _)]);
  [destruct (find_or_add_shape g B F32.zero five)
     as (g2 & v & -> & Hv & [[-> _]|(-> & -> & _)])
  |destruct (find_or_add_shape (g ++ [fresh_node A neg_half]) B F32.zero five)
     as (g2 & v & E2 & Hv & [[-> _]|(-> & -> & _)]); unfold fresh_node in E2;
   rewrite E2].
  - exists [], u, v. rewrite app_nil_r. split_and!; [done..|simpl; lia|constructor].
  - exists [fresh_node B F32.zero], u, (length g).
    rewrite length_app in *. simpl in *.
    split_and!; [done|lia|lia|lia|]. apply Forall_singleton. by right.
  - exists [fresh_node A neg_half], (length g), v.
    split_and!; [done..|simpl; lia|]. apply Forall_singleton. by left.
  - exists [fresh_node A neg_half; fresh_node B F32.zero], (length g),
      (length (g ++ [fresh_node A neg_half])).
    replace (g ++ [fresh_node A neg_half; fresh_node B F32.zero])
      with ((g ++ [fresh_node A neg_half]) ++ [fresh_node B F32.zero])
      by (by rewrite <-app_assoc).
    rewrite !length_app in *. simpl in *.
    split_and!; [done|lia|lia|lia|].
    apply Forall_cons. split; [by left|]. apply Forall_singleton. by right.
Qed.

Lemma edge_count_cons n g :
  edge_count (n :: g) = (length (edges n) + edge_count g)%nat.
Proof. done. Qed.

Lemma edge_count_app g news :
  Forall (λ n, edges n = []) news → edge_count (g ++ news) = edge_count g.
Proof.
  intros Hn. induction g as [|n g IH].
  - induction Hn as [|n news Hn _ IH]; [done|].
    rewrite app_nil_l in *. by rewrite edge_count_cons, Hn, IH.
  - by rewrite <-app_comm_cons, !edge_count_cons, IH.
Qed.

Lemma edge_count_alter g e i :
  (i < length g)%nat →
  edge_count (alter (add_edge_to e) i g) = S (edge_count g).
Proof.
  revert i. induction g as [|n g IH]; intros [|i] Hi; simpl in Hi; try lia.
  - cbn [alter list_alter]. rewrite !edge_count_cons. unfold add_edge_to.
    cbn [edges]. rewrite length_app. simpl. lia.
  - cbn [alter list_alter]. fold (alter (add_edge_to e) i g).
    rewrite !edge_count_cons, IH by lia. lia.
Qed.

Lemma edge_count_add_edge_at g u v w proc :
  (u < length g)%nat → (v < length g)%nat →
  edge_count (add_edge_at g u v w proc) = (edge_count g + 2)%nat.
Proof.
  intros Hu Hv. unfold add_edge_at.
  rewrite edge_count_alter by (by rewrite length_alter).
  rewrite edge_count_alter by done. lia.
Qed.

Lemma fresh_nodes_empty A B (news : list EmotionNode) :
  Forall (λ n, n = fresh_node A neg_half ∨ n = fresh_node B F32.zero) news →
  Forall (λ n, edges n = []) news.
Proof. intros H. eapply Forall_impl; [exact H|]. by intros n [->| ->]. Qed.

Lemma edge_count_graph_add_edge g A B w proc :
  forbidden A B = false →
  edge_count (graph_add_edge g A B w proc) = (edge_count g + 2)%nat.
Proof.
  intros Hf. destruct (graph_add_edge_shape g A B w proc Hf)
    as (news & u & v & -> & Hu & Hv & Hlen & Hnews).
  rewrite edge_count_add_edge_at by done.
  rewrite edge_count_app; [done|by eapply fresh_nodes_empty].
Qed.

(** X5. [graph_add_edge] only adds: every node that was in the graph keeps
    its index, name, valence, baseline and tips, and its edges as a prefix of
    the new ones.  A call that is not refused adds exactly two edges and at
    most two nodes. *)
Theorem graph_add_edge_only_adds g A B w proc :
  graph_extends g (graph_add_edge g A B w proc) ∧
  (∀ i n, g !! i = Some n →
     ∃ n', graph_add_edge g A B w proc !! i = Some n' ∧
       valence n' = valence n ∧
       baseline_intensity n' = baseline_intensity n ∧ tips n' = tips n) ∧
  (forbidden A B = false →
     edge_count (graph_add_edge g A B w proc) = (edge_count g + 2)%nat ∧
     (length (graph_add_edge g A B w proc) ≤ length g + 2)%nat).
Proof.
  destruct (forbidden A B) eqn:Hf.
  - unfold graph_add_edge. fold (forbidden A B). rewrite Hf.
    split_and!; [apply graph_extends_refl| |done]. intros i n Hn. by exists n.
  - destruct (graph_add_edge_shape g A B w proc Hf)
      as (news & u & v & Hshape & Hu & Hv & Hlen & Hnews).
    rewrite Hshape. split_and!.
    + eapply graph_extends_trans; [apply (graph_extends_app g news)|].
      unfold add_edge_at.
      eapply graph_extends_trans; apply graph_extends_alter, add_edge_to_extends.
    + intros i n Hn. rewrite add_edge_at_lookup.
      rewrite (lookup_app_l_Some _ _ _ _ Hn). simpl. eauto.
    + intros _. split.
      * rewrite <-Hshape. by apply edge_count_graph_add_edge.
      * unfold add_edge_at. rewrite !length_alter, length_app. lia.
Qed.

(** X6. [graph_add_tip] puts the tip at the end of the tips of the node
    named, which it creates with valence -0.2 and baseline 5.0 when the name
    is new; every other node is left as it was, and no edge is added. *)
Theorem graph_add_tip_appends g nm t :
  valid_name nm →
  ∃ i n',
    graph_find (graph_add_tip g nm t) nm = Some i ∧
    graph_add_tip g nm t !! i = Some n' ∧
    tips n' = from_option tips [] (node_of g nm) ++ [t] ∧
    (graph_find g nm = None →
       i = length g ∧ valence n' = neg_fifth ∧
       baseline_intensity n' = five ∧ edges n' = []) ∧
    (∀ k, k ≠ i → graph_add_tip g nm t !! k = g !! k) ∧
    edge_count (graph_add_tip g nm t) = edge_count g.
Proof.
  intros Hv. unfold graph_add_tip.
  destruct (find_or_add_cases g nm neg_fifth five Hv) as [[E1 ->]|(i & E1 & ->)].
  - exists (length g), (add_tip_to t (mkNode nm neg_fifth five [] [])).
    assert ((g ++ [mkNode nm neg_fifth five [] []]) !! length g
            = Some (mkNode nm neg_fifth five [] [])) as Hl.
    { rewrite lookup_app_r by lia. by rewrite Nat.sub_diag. }
    split_and!.
    + erewrite graph_find_same_names by apply names_alter_tip.
      rewrite graph_find_snoc, E1. simpl. by rewrite decide_True.
    + by rewrite list_lookup_alter_eq, Hl.
    + unfold node_of. by rewrite E1.
    + done.
    + intros k Hk. rewrite list_lookup_alter_ne by done.
      destruct (decide (k < length g)%nat).
      * by rewrite lookup_app_l.
      * rewrite lookup_ge_None_2 by (rewrite length_app; simpl; lia).
        symmetry. apply lookup_ge_None_2. lia.
    + rewrite <-(edge_count_app g [mkNode nm neg_fifth five [] []]) by (by constructor).
      unfold edge_count. f_equal. apply list_eq. intros k.
      rewrite !list_lookup_fmap.
      destruct (decide (k = length g)) as [->|Hk].
      * by rewrite list_lookup_alter_eq, Hl.
      * by rewrite list_lookup_alter_ne.
  - pose proof (graph_find_lt _ _ _ E1) as Hlt.
    destruct (lookup_lt_is_Some_2 g i Hlt) as [n Hn].
    exists i, (add_tip_to t n). split_and!.
    + by erewrite graph_find_same_names by apply names_alter_tip.
    + by rewrite list_lookup_alter_eq, Hn.
    + unfold node_of. rewrite E1. simpl. by rewrite Hn.
    + by rewrite E1.
    + intros k Hk. by rewrite list_lookup_alter_ne.
    + unfold edge_count. f_equal. apply list_eq. intros k.
      rewrite !list_lookup_fmap.
      destruct (decide (k = i)) as [->|Hk].
      * by rewrite list_lookup_alter_eq, Hn.
      * by rewrite list_lookup_alter_ne.
Qed.

Lemma graph_add_tip_appends_witness :
  ∃ i n',
    graph_find (graph_add_tip graph_new (lit "sad") (lit "walk")) (lit "sad") = Some i ∧
    graph_add_tip graph_new (lit "sad") (lit "walk") !! i = Some n' ∧
    tips n' = from_option tips [] (node_of graph_new (lit "sad")) ++ [lit "walk"] ∧
    (graph_find graph_new (lit "sad") = None →
       i = length graph_new ∧ valence n' = neg_fifth ∧
       baseline_intensity n' = five ∧ edges n' = []) ∧
    (∀ k, k ≠ i → graph_add_tip graph_new (lit "sad") (lit "walk") !! k = graph_new !! k) ∧
    edge_count (graph_add_tip graph_new (lit "sad") (lit "walk")) = edge_count graph_new.
Proof.
  apply (graph_add_tip_appends graph_new (lit "sad") (lit "walk")).
  vm_compute. lia.
Defined.
End store_frame.

(** * Graph store: every edge has its mirror image *)

Section store_mirrored.
Implicit Types (g : EmotionGraph) (n : EmotionNode) (nm : cstring).

Lemma mirrored_same_edges g g' :
  (∀ i, edges_at g' i = edges_at g i) → mirrored g → mirrored g'.
Proof. intros He Hm u v w. unfold link_count. rewrite !He. apply Hm. Qed.

Lemma edges_at_app_fresh g news k :
  Forall (λ n, edges n = []) news → edges_at (g ++ news) k = edges_at g k.
Proof.
  intros Hn. unfold edges_at. destruct (decide (k < length g)%nat).
  - by rewrite lookup_app_l.
  - rewrite (lookup_ge_None_2 g k) by lia. rewrite lookup_app_r by lia.
    destruct (news !! _) as [n'|] eqn:E; [|done]. simpl.
    rewrite Forall_forall in Hn. by apply Hn, (list_elem_of_lookup_2 _ _ _ E).
Qed.

Lemma edges_at_alter_same g (h : EmotionNode → EmotionNode) i k :
  (∀ n, edges (h n) = edges n) → edges_at (alter h i g) k = edges_at g k.
Proof.
  intros Hh. unfold edges_at. destruct (decide (i = k)) as [->|Hik].
  - rewrite list_lookup_alter_eq. destruct (g !! k); [apply Hh|done].
  - by rewrite list_lookup_alter_ne.
Qed.

Lemma edges_at_add_edge_at g u v w proc k :
  (u < length g)%nat → (v < length g)%nat →
  edges_at (add_edge_at g u v w proc) k = edges_at g k ++ added_at u v w proc k.
Proof.
  intros Hu Hv. unfold edges_at. rewrite add_edge_at_lookup.
  destruct (g !! k) as [n|] eqn:E; [done|]. simpl.
  apply lookup_ge_None in E. unfold added_at.
  rewrite !decide_False by lia. done.
Qed.

Lemma find_or_add_mirrored g nm val base :
  mirrored g → mirrored (find_or_add g nm val base).1.
Proof.
  destruct (find_or_add_shape g nm val base) as (g' & i & -> & _ & [[-> _]|(-> & _)]);
    [done|].
  apply mirrored_same_edges. intros k. apply edges_at_app_fresh.
  by apply Forall_singleton.
Qed.

Lemma added_at_symmetric u v w proc x y w' :
  length (filter (λ e, to e = y ∧ weight e = w') (added_at u v w proc x)) =
  length (filter (λ e, to e = x ∧ weight e = w') (added_at u v w proc y)).
Proof.
  unfold added_at.
  destruct (decide (u = x)), (decide (v = x)), (decide (u = y)), (decide (v = y));
    subst; simpl; try done;
    rewrite ?filter_cons, ?filter_nil; simpl;
    repeat (case_decide; simpl); try done; exfalso; intuition congruence.
Qed.

Lemma add_edge_at_mirrored g u v w proc :
  (u < length g)%nat → (v < length g)%nat →
  mirrored g → mirrored (add_edge_at g u v w proc).
Proof.
  intros Hu Hv Hm x y w'. unfold link_count.
  rewrite !edges_at_add_edge_at by done.
  rewrite !filter_app, !length_app.
  rewrite (added_at_symmetric u v w proc x y w').
  unfold mirrored, link_count in Hm. by rewrite Hm.
Qed.

Lemma graph_add_edge_mirrored g A B w proc :
  mirrored g → mirrored (graph_add_edge g A B w proc).
Proof.
  intros Hm. destruct (forbidden A B) eqn:Hf.
  - unfold graph_add_edge. fold (forbidden A B). by rewrite Hf.
  - destruct (graph_add_edge_shape g A B w proc Hf)
      as (news & u & v & -> & Hu & Hv & _ & Hnews).
    apply add_edge_at_mirrored; [done..|].
    eapply mirrored_same_edges; [|done]. intros k.
    apply edges_at_app_fresh. by eapply fresh_nodes_empty.
Qed.

Lemma graph_add_tip_mirrored g nm t :
  mirrored g → mirrored (graph_add_tip g nm t).
Proof.
  intros Hm. unfold graph_add_tip.
  pose proof (find_or_add_mirrored g nm neg_fifth five Hm) as H1.
  destruct (find_or_add g nm neg_fifth five) as [g1 idx]. simpl in H1.
  eapply mirrored_same_edges; [|done]. intros k. by apply edges_at_alter_same.
Qed.

(** X7. The graph stays undirected: if every node [u] has as many edges to
    [v] with a given weight as [v] has to [u], this still holds after
    [graph_add_node], [graph_add_edge] and [graph_add_tip], whatever the
    arguments. *)
Theorem store_operations_keep_mirror_edges g nm nm' val base w proc t :
  mirrored g →
  mirrored (graph_add_node g nm val base).1 ∧
  mirrored (graph_add_edge g nm nm' w proc) ∧
  mirrored (graph_add_tip g nm t).
Proof.
  intros Hm. split_and!.
  - rewrite graph_add_node_find_or_add. by apply find_or_add_mirrored.
  - by apply graph_add_edge_mirrored.
  - by apply graph_add_tip_mirrored.
Qed.

Lemma store_operations_keep_mirror_edges_witness :
  mirrored (graph_add_edge graph_new (lit "sad") (lit "calm") F32.one None).
Proof.
  apply (store_operations_keep_mirror_edges graph_new (lit "sad") (lit "calm")
           F32.zero five F32.one None []).
  by intros u v w.
Defined.
End store_mirrored.

(** * Reading a file: what holds for every text *)

Section load_closed.
Variable P : EmotionGraph → Prop.
Hypothesis P_node : ∀ g nm val base, P g → P (graph_add_node g nm val base).1.
Hypothesis P_edge : ∀ g A B w proc, P g → P (graph_add_edge g A B w proc).
Hypothesis P_tip : ∀ g nm t, P g → P (graph_add_tip g nm t).
Hypothesis P_valence : ∀ g v i, P g → P (alter (set_valence v) i g).
Hypothesis P_baseline : ∀ g b i, P g → P (alter (set_baseline b) i g).

Lemma load_node_closed p g : P g → P (load_node p g).
Proof.
  intros Hg. unfold load_node. repeat case_match; subst; auto.
Qed.

Lemma load_tip_closed p g : P g → P (load_tip p g).
Proof. intros Hg. unfold load_tip. repeat case_match; subst; auto. Qed.

Lemma load_edge_closed p g : P g → P (load_edge p g).
Proof. intros Hg. unfold load_edge. repeat case_match; subst; auto. Qed.

Lemma load_line_closed line g : P g → P (load_line line g).
Proof.
  intros Hg. unfold load_line.
  repeat case_match; subst;
    auto using load_node_closed, load_tip_closed, load_edge_closed.
Qed.

Lemma load_lines_closed rounds f g : P g → P (load_lines rounds f g).
Proof.
  revert f g. induction rounds as [|k IH]; intros [|c f] g Hg; try done.
  cbn [load_lines]. destruct (fgets (MAX_LINE - 1) (c :: f)) as [line rest].
  by apply IH, load_line_closed.
Qed.

Lemma load_graph_closed f g : P g → P (load_graph g f).
Proof. apply load_lines_closed. Qed.
End load_closed.

Section load_any_file.
Implicit Types (g : EmotionGraph) (f : cstring).

(** X8. Whatever the file holds, [load_graph] only adds to the graph in
    memory: every node keeps its index and name, and its tips and edges
    stay in front of the ones read from the file. *)
Theorem load_graph_only_adds g f : graph_extends g (load_graph g f).
Proof.
  apply (load_graph_closed (graph_extends g)); [..|apply graph_extends_refl].
  - intros g' nm val base Hg. eapply graph_extends_trans; [done|].
    rewrite graph_add_node_find_or_add. apply find_or_add_extends.
  - intros g' A B w proc Hg. eapply graph_extends_trans; [done|].
    unfold graph_add_edge. destruct (_ && _); [apply graph_extends_refl|].
    pose proof (find_or_add_extends g' A neg_half five) as H1.
    destruct (find_or_add g' A neg_half five) as [g1 u]. simpl in H1.
    pose proof (find_or_add_extends g1 B F32.zero five) as H2.
    destruct (find_or_add g1 B F32.zero five) as [g2 v]. simpl in H2.
    eapply graph_extends_trans; [done|]. eapply graph_extends_trans; [done|].
    eapply graph_extends_trans; apply graph_extends_alter, add_edge_to_extends.
  - intros g' nm t Hg. eapply graph_extends_trans; [done|].
    unfold graph_add_tip.
    pose proof (find_or_add_extends g' nm neg_fifth five) as H1.
    destruct (find_or_add g' nm neg_fifth five) as [g1 u]. simpl in H1.
    eapply graph_extends_trans; [done|].
    apply graph_extends_alter, add_tip_to_extends.
  - intros g' v i Hg. eapply graph_extends_trans; [done|].
    apply graph_extends_alter, set_valence_extends.
  - intros g' b i Hg. eapply graph_extends_trans; [done|].
    apply graph_extends_alter, set_baseline_extends.
Qed.

Lemma alter_same_store_inv g (h : EmotionNode → EmotionNode) i :
  (∀ n, edges (h n) = edges n) → (∀ n, name (h n) = name n) →
  store_inv g → store_inv (alter h i g).
Proof.
  intros He Hn [Hwf Hnb]. split.
  - eapply graph_wf_same_edges; [apply length_alter| |done].
    intros k. by apply edges_at_alter_same.
  - eapply names_bounded_same_names; [|done].
    apply list_eq. intros k. rewrite !list_lookup_fmap.
    destruct (decide (i = k)) as [->|Hik].
    + rewrite list_lookup_alter_eq. destruct (g !! k); simpl; [by rewrite Hn|done].
    + by rewrite list_lookup_alter_ne.
Qed.

(** X9. Whatever the file holds, [load_graph] keeps the store consistent:
    edges still point at existing nodes, names still fit the name buffer,
    and every edge still has its mirror image. *)
Theorem load_graph_keeps_store_consistent g f :
  store_inv g → mirrored g →
  store_inv (load_graph g f) ∧ mirrored (load_graph g f).
Proof.
  intros Hinv Hm. split.
  - apply (load_graph_closed store_inv); [..|done].
    + intros. rewrite graph_add_node_find_or_add. by apply find_or_add_store_inv.
    + intros. by apply graph_add_edge_store_inv.
    + intros. by apply graph_add_tip_store_inv.
    + intros. by apply alter_same_store_inv.
    + intros. by apply alter_same_store_inv.
  - apply (load_graph_closed mirrored); [..|done].
    + intros. rewrite graph_add_node_find_or_add. by apply find_or_add_mirrored.
    + intros. by apply graph_add_edge_mirrored.
    + intros. by apply graph_add_tip_mirrored.
    + intros. eapply mirrored_same_edges; [|done].
      intros k. by apply edges_at_alter_same.
    + intros. eapply mirrored_same_edges; [|done].
      intros k. by apply edges_at_alter_same.
Qed.

Lemma load_graph_keeps_store_consistent_witness :
  store_inv (load_graph graph_new (lit "EDGE sad calm 2 junk")) ∧
  mirrored (load_graph graph_new (lit "EDGE sad calm 2 junk")).
Proof.
  apply (load_graph_keeps_store_consistent graph_new (lit "EDGE sad calm 2 junk")).
  - split; [by intros [|?] ? ? ?|constructor].
  - by intros u v w.
Defined.
End load_any_file.

(** * Planner: the path returned is a route of the graph *)

Section planner_routes.
Implicit Types (g : EmotionGraph) (st : dijkstra_state) (e : Edge).
Implicit Types (tr : nat → option (list Edge)).

Lemma graph_wf_Forall g :
  Forall (λ n, Forall (λ e, to e < length g)%nat (edges n)) g → graph_wf g.
Proof.
  intros H u nu e Hnu He. rewrite Forall_forall in H.
  specialize (H nu (list_elem_of_lookup_2 _ _ _ Hnu)).
  rewrite Forall_forall in H. by apply H.
Qed.

Lemma route_nil_inv g s v : route g s v [] → v = s.
Proof.
  inversion 1 as [|u nu es e _ _ _ Hv Hes]; [done|]. by destruct es.
Qed.

Lemma route_snoc_inv g s v es e : route g s v (es ++ [e]) → to e = v.
Proof.
  inversion 1 as [Hv Hes|u nu es' e' _ _ _ Hv Hes]; [by destruct es|].
  by apply app_inj_tail in Hes as [_ ->].
Qed.

Lemma route_nodes_snoc s es e :
  route_nodes s (es ++ [e]) = route_nodes s es ++ [to e].
Proof. unfold route_nodes. by rewrite fmap_app. Qed.

Lemma route_nodes_lt g s v es :
  graph_wf g → (s < length g)%nat → route g s v es →
  Forall (λ x, x < length g)%nat (route_nodes s es).
Proof.
  intros Hwf Hs. induction 1 as [|u nu es e _ IH Hnu He].
  - by apply Forall_singleton.
  - rewrite route_nodes_snoc. apply Forall_app. split; [done|].
    apply Forall_singleton. by eapply Hwf.
Qed.

Lemma route_cost_snoc g es e nv :
  g !! (to e) = Some nv →
  route_cost g (es ++ [e]) = F32.add (route_cost g es) (adjusted_weight nv e).
Proof.
  intros Hnv. unfold route_cost. rewrite foldl_app. simpl.
  unfold edge_cost. by rewrite Hnv.
Qed.

Lemma NoDup_bounded_length (l : list nat) n :
  NoDup l → Forall (λ x, x < n)%nat l → (length l ≤ n)%nat.
Proof.
  intros Hnd Hlt. transitivity (length (seq 0 n)); [|by rewrite length_seq].
  apply submseteq_length.
  apply NoDup_submseteq; [done|]. intros x Hx. apply elem_of_seq.
  rewrite Forall_forall in Hlt. specialize (Hlt x Hx). lia.
Qed.

Lemma select_min_unvisited n st u :
  select_min n st = Some u → visited st !! u = Some false.
Proof.
  unfold select_min.
  assert (∀ l acc,
    (∀ j, acc.1 = Some j → visited st !! j = Some false) →
    ∀ j, (foldl (select_step st) acc l).1 = Some j →
      visited st !! j = Some false) as Hfold.
  { induction l as [|i l IH]; intros acc Hacc; [done|].
    simpl. apply IH. unfold select_step.
    destruct (visited st !! i) as [[]|] eqn:Ev; [done| |done].
    destruct (dist st !! i) as [d|]; [|done].
    destruct (F32.ltb d acc.2); [|done].
    intros j [= <-]. done. }
  apply Hfold. by intros j [=].
Qed.

Lemma insert_true_lookup (vis : list bool) u x :
  (u < length vis)%nat →
  vis !! x = Some true → <[u := true]> vis !! x = Some true.
Proof.
  intros Hu Hx. destruct (decide (u = x)) as [->|Hne].
  - by rewrite list_lookup_insert_eq.
  - by rewrite list_lookup_insert_ne.
Qed.

(** Marking the selected node as visited. *)
Lemma mark_visited_inv g s st tr u :
  planner_inv g s st tr → select_min (length g) st = Some u →
  planner_inv g s (mkDS (dist st) (<[u := true]> (visited st)) (prev st)) tr ∧
  <[u := true]> (visited st) !! u = Some true ∧ is_Some (tr u).
Proof.
  intros (Hl1 & Hl2 & Hl3 & Hd & Hok & Hs & Hfirst) Hsel.
  pose proof (select_min_unvisited _ _ _ Hsel) as Hu.
  destruct (select_min_Some _ _ _ Hsel) as (d & Hdu & Hlt).
  assert (u < length (visited st))%nat as Hulen by (by eapply lookup_lt_Some).
  assert (is_Some (tr u)) as Htr.
  { destruct (Hd u d Hdu) as [->|?]; [|done].
    unfold F32.ltb in Hlt. by rewrite SFltb_irrefl in Hlt. }
  split_and!; [|by rewrite list_lookup_insert_eq|done].
  unfold planner_inv. cbn [dist visited prev].
  split_and!; [done|by rewrite length_insert|done|done| |done|].
  - intros v es Hv. destruct (Hok v es Hv) as (H1 & H2 & H3 & H4 & H5 & H6).
    unfold route_ok. cbn [dist visited prev]. split_and!; [done..| |done|].
    + intros x Hx Hne. by apply insert_true_lookup, H4.
    + intros es0 e Hes. destruct (H6 es0 e Hes) as (u0 & ? & ? & ?).
      exists u0. split_and!; [done..|]. by apply insert_true_lookup.
  - left. destruct Hfirst as [Hvs|Hnone].
    + by apply insert_true_lookup.
    + destruct (decide (u = s)) as [->|Hne]; [by rewrite list_lookup_insert_eq|].
      rewrite (Hnone u Hne) in Htr. by destruct Htr.
Qed.

(** One pass of the edge loop keeps the invariant; the route of [u] is the
    one its cost was computed along. *)
Lemma relax_edge_planner_inv g s st tr u nu es_u e :
  graph_wf g → planner_inv g s st tr →
  visited st !! u = Some true → tr u = Some es_u →
  g !! u = Some nu → e ∈ edges nu →
  ∃ st' tr', relax_edge g u st e = Some st' ∧ planner_inv g s st' tr' ∧
    visited st' !! u = Some true ∧ tr' u = Some es_u.
Proof.
  intros Hwf Hinv Hvu Htu Hnu He.
  pose proof Hinv as (Hl1 & Hl2 & Hl3 & Hd & Hok & Hs & Hfirst).
  pose proof (Hwf _ _ _ Hnu He) as Hlt.
  destruct (Hok u es_u Htu) as (Hr & Hdu & Hnd & Hvis & _ & _).
  unfold relax_edge.
  destruct (lookup_lt_is_Some_2 (visited st) (to e)) as [vis Hvv]; [lia|].
  rewrite Hvv. cbn [mbind option_bind].
  destruct vis; [by exists st, tr|].
  destruct (lookup_lt_is_Some_2 g (to e)) as [nv Hnv]; [lia|].
  rewrite Hnv, Hdu. cbn [mbind option_bind].
  destruct (lookup_lt_is_Some_2 (dist st) (to e)) as [dv Hdv]; [lia|].
  rewrite Hdv. cbn [mbind option_bind].
  destruct (F32.ltb _ dv); [|by exists st, tr].
  assert (u ≠ to e) as Hne by (intros ->; congruence).
  assert (visited st !! s = Some true) as Hvs.
  { destruct Hfirst as [?|Hnone]; [done|].
    destruct (decide (u = s)) as [<-|Hus]; [done|].
    rewrite (Hnone u Hus) in Htu. done. }
  assert (s ≠ to e) as Hsne by (intros ->; congruence).
  eexists _, (λ x, if decide (x = to e) then Some (es_u ++ [e]) else tr x).
  split; [done|]. split_and!; [|done|by rewrite decide_False].
  unfold planner_inv. cbn [dist visited prev].
  split_and!; [by rewrite length_insert|done|by rewrite length_insert| |
               |by rewrite decide_False|by left].
  - intros v d Hv. destruct (decide (v = to e)) as [->|Hv']; [by right|].
    rewrite list_lookup_insert_ne in Hv by done. by apply Hd.
  - intros v es Hv. destruct (decide (v = to e)) as [->|Hv'].
    + injection Hv as <-. unfold route_ok. cbn [dist visited prev]. split_and!.
      * by eapply route_snoc.
      * rewrite list_lookup_insert_eq by lia. f_equal. symmetry.
        by apply route_cost_snoc.
      * rewrite route_nodes_snoc. apply NoDup_app. split_and!; [done| |apply NoDup_singleton].
        intros x Hx Hx'. apply list_elem_of_singleton in Hx'. subst x.
        destruct (decide (to e = u)) as [Heq|Hneq]; [by rewrite Heq in Hne|].
        specialize (Hvis (to e) Hx Hneq). congruence.
      * intros x Hx Hxne. rewrite route_nodes_snoc in Hx.
        apply elem_of_app in Hx as [Hx|Hx];
          [|apply list_elem_of_singleton in Hx; done].
        destruct (decide (x = u)) as [->|Hxu]; [done|]. by apply Hvis.
      * intros Hnil. by destruct es_u.
      * intros es0 e0 Hes. apply app_inj_tail in Hes as [<- <-].
        exists u. split_and!; [by rewrite list_lookup_insert_eq by lia| |done].
        by rewrite decide_False.
    + destruct (Hok v es Hv) as (H1 & H2 & H3 & H4 & H5 & H6).
      unfold route_ok. cbn [dist visited prev].
      split_and!; [done| |done|done| |].
      * by rewrite list_lookup_insert_ne.
      * intros Hnil. rewrite list_lookup_insert_ne by done. by apply H5.
      * intros es0 e0 Hes. destruct (H6 es0 e0 Hes) as (u0 & Hp & Ht0 & Hv0).
        exists u0. split_and!; [by rewrite list_lookup_insert_ne| |done].
        rewrite decide_False; [done|]. intros ->. congruence.
Qed.

Lemma relax_edges_planner_inv g s st tr u nu es_u es :
  graph_wf g → planner_inv g s st tr →
  visited st !! u = Some true → tr u = Some es_u →
  g !! u = Some nu → es ⊆ edges nu →
  ∃ st' tr', relax_edges g u es st = Some st' ∧ planner_inv g s st' tr'.
Proof.
  intros Hwf Hinv Hvu Htu Hnu. revert st tr Hinv Hvu Htu.
  induction es as [|e es IH]; intros st tr Hinv Hvu Htu Hsub; [by exists st, tr|].
  cbn [relax_edges].
  destruct (relax_edge_planner_inv g s st tr u nu es_u e)
    as (st1 & tr1 & -> & Hinv1 & Hvu1 & Htu1); try done.
  { apply Hsub. by left. }
  cbn [mbind option_bind]. apply (IH st1 tr1); [done..|].
  intros x Hx. apply Hsub. by right.
Qed.

Lemma dijkstra_loop_planner_inv g s dest iters st tr :
  graph_wf g → planner_inv g s st tr →
  ∃ st' tr', dijkstra_loop g dest iters st = Some st' ∧ planner_inv g s st' tr'.
Proof.
  intros Hwf. revert st tr.
  induction iters as [|k IH]; intros st tr Hinv; [by exists st, tr|].
  cbn [dijkstra_loop].
  destruct (select_min (length g) st) as [u|] eqn:Esel; [|by exists st, tr].
  destruct (mark_visited_inv g s st tr u Hinv Esel) as (Hinv1 & Hvu & [es_u Htu]).
  case_bool_decide; [by eexists _, tr|].
  pose proof Hinv as (_ & Hl2 & _).
  destruct (lookup_lt_is_Some_2 g u) as [nu Hnu].
  { rewrite <-Hl2. apply select_min_unvisited in Esel. by eapply lookup_lt_Some. }
  rewrite Hnu. cbn [mbind option_bind].
  destruct (relax_edges_planner_inv g s _ tr u nu es_u (edges nu) Hwf Hinv1)
    as (st2 & tr2 & -> & Hinv2); [done..|].
  cbn [mbind option_bind]. by apply (IH st2 tr2).
Qed.

Lemma init_state_planner_inv g s :
  (s < length g)%nat →
  planner_inv g s (init_state (length g) s)
    (λ v, if decide (v = s) then Some [] else None).
Proof.
  intros Hs. unfold planner_inv, route_ok, init_state.
  cbn [dist visited prev]. split_and!.
  - by rewrite length_insert, length_replicate.
  - by rewrite length_replicate.
  - by rewrite length_replicate.
  - intros v d Hv. destruct (decide (v = s)) as [->|Hne]; [by right|].
    rewrite list_lookup_insert_ne in Hv by done.
    apply lookup_replicate in Hv as [-> _]. by left.
  - intros v es Hv. destruct (decide (v = s)) as [->|Hne]; [|done].
    injection Hv as <-. split_and!.
    + constructor.
    + rewrite list_lookup_insert_eq by (by rewrite length_replicate). done.
    + apply NoDup_singleton.
    + intros x Hx Hne. by apply list_elem_of_singleton in Hx.
    + intros _. by apply lookup_replicate_2.
    + intros [|??] ? ?; done.
  - by rewrite decide_True.
  - right. intros v Hne. by rewrite decide_False.
Qed.

Lemma walk_prev_None (prv : list (option nat)) room :
  walk_prev prv room None = Some [].
Proof. by destruct room. Qed.

(** Walking [prev] back from a node yields its route, and never needs more
    room than the route has nodes. *)
Lemma walk_prev_route g s st tr es v room :
  planner_inv g s st tr → tr v = Some es → (length es < room)%nat →
  walk_prev (prev st) room (Some v) = Some (rev (route_nodes s es)).
Proof.
  intros (_ & _ & _ & _ & Hok & _). revert v room.
  induction es as [|e es0 IH] using rev_ind; intros v room Hv Hroom;
    destruct (Hok v _ Hv) as (Hr & _ & _ & _ & Hnil & Hsnoc);
    destruct room as [|r]; simpl in Hroom; try lia; cbn [walk_prev].
  - rewrite Hnil by done. cbn [mbind option_bind].
    rewrite walk_prev_None. cbn [mbind option_bind].
    by rewrite (route_nil_inv _ _ _ Hr).
  - rewrite length_app in Hroom. simpl in Hroom.
    destruct (Hsnoc es0 e eq_refl) as (u & -> & Hu & _).
    cbn [mbind option_bind]. rewrite (IH u r Hu) by lia.
    cbn [mbind option_bind]. rewrite route_nodes_snoc, rev_unit.
    by rewrite (route_snoc_inv _ _ _ _ _ Hr).
Qed.

Lemma planner_inv_final g s d st tr es :
  graph_wf g → (s < length g)%nat → planner_inv g s st tr → tr d = Some es →
  route g s d es ∧ NoDup (route_nodes s es) ∧
  (length (route_nodes s es) ≤ length g)%nat ∧
  dist st !! d = Some (route_cost g es) ∧
  walk_prev (prev st) (length g) (Some d) = Some (rev (route_nodes s es)).
Proof.
  intros Hwf Hs Hinv Hd.
  pose proof Hinv as (_ & _ & _ & _ & Hok & _).
  destruct (Hok d es Hd) as (Hr & Hdist & Hnd & _).
  pose proof (NoDup_bounded_length _ _ Hnd (route_nodes_lt g s d es Hwf Hs Hr)) as Hlen.
  split_and!; [done..|]. eapply walk_prev_route; [done..|].
  unfold route_nodes in Hlen. simpl in Hlen. rewrite length_fmap in Hlen. lia.
Qed.

(** X10. On a graph whose edges point at existing nodes, and for indices
    in range, the planner always returns: either [FLT_MAX] with no path, or
    a path that starts at the source, follows stored edges to the goal,
    meets no node twice and so has at most as many entries as the graph has
    nodes, together with the cost of exactly that path: the adjusted weights
    of its edges added up from 0 in order. *)
Theorem planner_returns_a_route g (src dest : Z) :
  graph_wf g →
  0 ≤ src < Z.of_nat (length g) → 0 ≤ dest < Z.of_nat (length g) →
  run_dijkstra_personalized g src dest = Some (F32.FLT_MAX, None) ∨
  ∃ es, route g (Z.to_nat src) (Z.to_nat dest) es ∧
        NoDup (route_nodes (Z.to_nat src) es) ∧
        (length (route_nodes (Z.to_nat src) es) ≤ length g)%nat ∧
        run_dijkstra_personalized g src dest
          = Some (route_cost g es, Some (route_nodes (Z.to_nat src) es)).
Proof.
  intros Hwf Hs Hd. unfold run_dijkstra_personalized.
  rewrite bool_decide_false by lia. rewrite bool_decide_true by lia.
  destruct (dijkstra_loop_planner_inv g (Z.to_nat src) (Z.to_nat dest) (length g)
              (init_state (length g) (Z.to_nat src)) _ Hwf
              (init_state_planner_inv g (Z.to_nat src) ltac:(lia)))
    as (st & tr & -> & Hinv).
  cbn [mbind option_bind].
  pose proof Hinv as (Hl & _ & _ & Hdist & _).
  destruct (lookup_lt_is_Some_2 (dist st) (Z.to_nat dest)) as [dd Hdd]; [lia|].
  rewrite Hdd. cbn [mbind option_bind].
  destruct (F32.eqb dd F32.FLT_MAX) eqn:Eeq; [by left|]. right.
  destruct (Hdist _ _ Hdd) as [->|[es Hes]]; [by rewrite FLT_MAX_eqb in Eeq|].
  destruct (planner_inv_final g (Z.to_nat src) (Z.to_nat dest) st tr es)
    as (Hr & Hnd & Hlen & Hcost & Hwalk); [done|lia|done..|].
  exists es. split_and!; [done..|]. rewrite Hwalk. cbn [mbind option_bind].
  rewrite rev_involutive. congruence.
Qed.

Lemma planner_returns_a_route_witness :
  run_dijkstra_personalized detour 0 2 = Some (F32.FLT_MAX, None) ∨
  ∃ es, route detour (Z.to_nat 0) (Z.to_nat 2) es ∧
        NoDup (route_nodes (Z.to_nat 0) es) ∧
        (length (route_nodes (Z.to_nat 0) es) ≤ length detour)%nat ∧
        run_dijkstra_personalized detour 0 2
          = Some (route_cost detour es, Some (route_nodes (Z.to_nat 0) es)).
Proof.
  apply (planner_returns_a_route detour 0 2).
  - apply graph_wf_Forall. apply (bool_decide_unpack _). vm_compute. reflexivity.
  - vm_compute. split; [discriminate|reflexivity].
  - vm_compute. split; [discriminate|reflexivity].
Defined.

(** X11. Planning from a node to itself returns cost 0 and the one-node
    path, whatever edges the node has. *)
Theorem planner_source_is_goal g (src : Z) :
  graph_wf g → 0 ≤ src < Z.of_nat (length g) →
  run_dijkstra_personalized g src src = Some (F32.zero, Some [Z.to_nat src]).
Proof.
  intros Hwf Hs. unfold run_dijkstra_personalized.
  rewrite bool_decide_false by lia. rewrite bool_decide_true by lia.
  destruct (dijkstra_loop_planner_inv g (Z.to_nat src) (Z.to_nat src) (length g)
              (init_state (length g) (Z.to_nat src)) _ Hwf
              (init_state_planner_inv g (Z.to_nat src) ltac:(lia)))
    as (st & tr & -> & Hinv).
  cbn [mbind option_bind].
  pose proof Hinv as (_ & _ & _ & _ & _ & Htr & _).
  destruct (planner_inv_final g (Z.to_nat src) (Z.to_nat src) st tr [])
    as (_ & _ & _ & Hcost & Hwalk); [done|lia|done..|].
  rewrite Hcost. cbn [mbind option_bind].
  change (F32.eqb (route_cost g []) F32.FLT_MAX) with false. cbn iota.
  rewrite Hwalk. done.
Qed.

Lemma planner_source_is_goal_witness :
  run_dijkstra_personalized detour 1 1 = Some (F32.zero, Some [Z.to_nat 1]).
Proof.
  apply (planner_source_is_goal detour 1).
  - apply graph_wf_Forall. apply (bool_decide_unpack _). vm_compute. reflexivity.
  - vm_compute. split; [discriminate|reflexivity].
Defined.
Lemma planner_path_length g (src dest : Z) path c :
  graph_wf g →
  0 ≤ src < Z.of_nat (length g) → 0 ≤ dest < Z.of_nat (length g) →
  run_dijkstra_personalized g src dest = Some (c, Some path) →
  (length path ≤ length g)%nat.
Proof.
  intros Hwf Hs Hd. unfold run_dijkstra_personalized.
  rewrite bool_decide_false by lia. rewrite bool_decide_true by lia.
  destruct (dijkstra_loop_planner_inv g (Z.to_nat src) (Z.to_nat dest) (length g)
              (init_state (length g) (Z.to_nat src)) _ Hwf
              (init_state_planner_inv g (Z.to_nat src) ltac:(lia)))
    as (st & tr & -> & Hinv).
  cbn [mbind option_bind].
  pose proof Hinv as (Hl & _ & _ & Hdist & _).
  destruct (lookup_lt_is_Some_2 (dist st) (Z.to_nat dest)) as [dd Hdd]; [lia|].
  rewrite Hdd. cbn [mbind option_bind].
  destruct (F32.eqb dd F32.FLT_MAX) eqn:Eeq; [done|].
  destruct (Hdist _ _ Hdd) as [->|[es Hes]]; [by rewrite FLT_MAX_eqb in Eeq|].
  destruct (planner_inv_final g (Z.to_nat src) (Z.to_nat dest) st tr es)
    as (_ & _ & Hlen & _ & ->); [done|lia|done..|].
  cbn [mbind option_bind]. intros [= _ <-].
  rewrite length_rev, length_app, length_rev.
  unfold route_nodes in Hlen. simpl in *. lia.
Qed.
End planner_routes.

(** * The goal loop and the check-in keep the first cheapest candidate *)

Section first_cheapest.
Implicit Types (g : EmotionGraph) (p q : Prototype).

Lemma F32_ltb_trans a b c :
  F32.ltb a b = true → F32.ltb b c = true → F32.ltb a c = true.
Proof. apply SFltb_trans. Qed.

Lemma F32_ltb_irrefl a : F32.ltb a a = false.
Proof. apply SFltb_irrefl. Qed.

(** Nothing that was not below the old bound is below a smaller one. *)
Lemma F32_ltb_not_below a b c :
  F32.ltb a b = false → F32.ltb c b = true → F32.ltb a c = false.
Proof.
  intros Hab Hcb. destruct (F32.ltb a c) eqn:Hac; [|done].
  by rewrite (F32_ltb_trans a c b Hac Hcb) in Hab.
Qed.

Lemma F32_ltb_below_max a b :
  b = F32.FLT_MAX ∨ F32.ltb b F32.FLT_MAX = true →
  F32.ltb a b = true → F32.ltb a F32.FLT_MAX = true.
Proof. intros [->|Hb] Ha; [done|by eapply F32_ltb_trans]. Qed.

Lemma F32_ltb_max_not_below b :
  b = F32.FLT_MAX ∨ F32.ltb b F32.FLT_MAX = true →
  F32.ltb F32.FLT_MAX b = false.
Proof.
  intros [->|Hb]; [apply F32_ltb_irrefl|].
  destruct (F32.ltb F32.FLT_MAX b) eqn:E; [|done].
  pose proof (F32_ltb_trans _ _ _ E Hb) as Hmm.
  by rewrite F32_ltb_irrefl in Hmm.
Qed.

Lemma run_dijkstra_personalized_cases g (src dest : Z) :
  graph_wf g →
  0 ≤ src < Z.of_nat (length g) → 0 ≤ dest < Z.of_nat (length g) →
  run_dijkstra_personalized g src dest = Some (F32.FLT_MAX, None) ∨
  ∃ c path, run_dijkstra_personalized g src dest = Some (c, Some path).
Proof.
  intros Hwf Hs Hd. unfold run_dijkstra_personalized.
  rewrite bool_decide_false by lia. rewrite bool_decide_true by lia.
  destruct (dijkstra_loop_planner_inv g (Z.to_nat src) (Z.to_nat dest) (length g)
              (init_state (length g) (Z.to_nat src)) _ Hwf
              (init_state_planner_inv g (Z.to_nat src) ltac:(lia)))
    as (st & tr & -> & Hinv).
  cbn [mbind option_bind].
  pose proof Hinv as (Hl & _ & _ & Hdist & _).
  destruct (lookup_lt_is_Some_2 (dist st) (Z.to_nat dest)) as [dd Hdd]; [lia|].
  rewrite Hdd. cbn [mbind option_bind].
  destruct (F32.eqb dd F32.FLT_MAX) eqn:Eeq; [by left|]. right.
  destruct (Hdist _ _ Hdd) as [->|[es Hes]]; [by rewrite FLT_MAX_eqb in Eeq|].
  destruct (planner_inv_final g (Z.to_nat src) (Z.to_nat dest) st tr es)
    as (_ & _ & _ & _ & ->); [done|lia|done..|].
  cbn [mbind option_bind]. eauto.
Qed.

(** X12. The goal loop of the menu, on a graph whose edges point at
    existing nodes and that fits the 128-entry path buffers: the loop ends
    with a cost that no goal undercuts.  Either every goal was out of reach
    and the cost is still [FLT_MAX] with no goal chosen, or the goal chosen
    is the first one in the list with that cost and the path kept is the one
    the planner returned for it. *)
Theorem plan_route_keeps_first_cheapest g (src : Z) (goals : list Z) :
  graph_wf g → (length g ≤ 128)%nat →
  0 ≤ src < Z.of_nat (length g) →
  Forall (λ goal, 0 ≤ goal < Z.of_nat (length g)) goals →
  ∃ best_cost best_goal best_path,
    plan_route g src goals = Some (best_cost, best_goal, best_path) ∧
    (best_cost = F32.FLT_MAX ∨ F32.ltb best_cost F32.FLT_MAX = true) ∧
    (∀ goal, goal ∈ goals →
       ∃ c path, run_dijkstra_personalized g src goal = Some (c, path) ∧
                 F32.ltb c best_cost = false) ∧
    ((best_goal = None ∧ best_cost = F32.FLT_MAX ∧ best_path = []) ∨
     ∃ k goal, goals !! k = Some goal ∧ best_goal = Some goal ∧
       run_dijkstra_personalized g src goal = Some (best_cost, Some best_path) ∧
       (length best_path ≤ 128)%nat ∧
       ∀ j goal' c path, (j < k)%nat → goals !! j = Some goal' →
         run_dijkstra_personalized g src goal' = Some (c, path) → c ≠ best_cost).
Proof.
  intros Hwf Hsize Hs. unfold plan_route.
  induction goals as [|x goals IH] using rev_ind; intros Hgoals.
  { exists F32.FLT_MAX, None, []. split_and!; [done|by left| |by left].
    intros goal Hin. by apply elem_of_nil in Hin. }
  apply Forall_app in Hgoals as [Hgoals Hx]. rewrite Forall_singleton in Hx.
  destruct (IH Hgoals) as (bc & bg & bp & Hrun & HA & HB & HC).
  rewrite foldl_app, Hrun. cbn [foldl plan_step mbind option_bind].
  assert (∀ cx px, run_dijkstra_personalized g src x = Some (cx, px) →
            F32.ltb cx bc = false →
            ∀ goal, goal ∈ goals ++ [x] →
              ∃ c path, run_dijkstra_personalized g src goal = Some (c, path) ∧
                        F32.ltb c bc = false) as HB_keep.
  { intros cx px Hx' Hlt goal [Hin|Hin%list_elem_of_singleton]%elem_of_app;
      [by apply HB|]. subst goal. eauto. }
  assert ((bg = None ∧ bc = F32.FLT_MAX ∧ bp = []) ∨
     ∃ k goal, (goals ++ [x]) !! k = Some goal ∧ bg = Some goal ∧
       run_dijkstra_personalized g src goal = Some (bc, Some bp) ∧
       (length bp ≤ 128)%nat ∧
       ∀ j goal' c path, (j < k)%nat → (goals ++ [x]) !! j = Some goal' →
         run_dijkstra_personalized g src goal' = Some (c, path) → c ≠ bc) as HC_keep.
  { destruct HC as [?|(k & goal & Hk & ? & ? & ? & Hfirst)]; [by left|right].
    exists k, goal. split_and!; [by apply lookup_app_l_Some|done..|].
    intros j goal' c path Hj Hj'. apply (Hfirst j goal' c path Hj).
    rewrite lookup_app_l in Hj'; [done|]. apply lookup_lt_Some in Hk. lia. }
  destruct (run_dijkstra_personalized_cases g src x Hwf Hs Hx)
    as [Hx'|(c & path & Hx')]; rewrite Hx'; cbn [mbind option_bind].
  - rewrite (F32_ltb_max_not_below bc HA).
    exists bc, bg, bp. split_and!; [done..| |done].
    eapply HB_keep; [done|]. by apply F32_ltb_max_not_below.
  - destruct (F32.ltb c bc) eqn:Hlt.
    + exists c, (Some x), path. cbn [default]. split_and!; [done| | |].
      * right. by eapply F32_ltb_below_max.
      * intros goal [Hin|Hin%list_elem_of_singleton]%elem_of_app.
        -- destruct (HB goal Hin) as (c' & p' & Hrun' & Hlt').
           exists c', p'. split; [done|]. by eapply F32_ltb_not_below.
        -- subst goal. exists c, (Some path). split; [done|apply F32_ltb_irrefl].
      * right. exists (length goals), x. split_and!; [|done|done| |].
        -- rewrite lookup_app_r by lia. by rewrite Nat.sub_diag.
        -- pose proof (planner_path_length g src x path c Hwf Hs Hx Hx'). lia.
        -- intros j goal' c' p' Hj Hj' Hrun' ->.
           rewrite lookup_app_l in Hj' by done.
           destruct (HB goal' (list_elem_of_lookup_2 _ _ _ Hj'))
             as (c'' & p'' & Hrun'' & Hlt'').
           rewrite Hrun' in Hrun''. injection Hrun'' as <- <-. congruence.
    + exists bc, bg, bp. split_and!; [done..| |done]. by eapply HB_keep.
Qed.

Lemma plan_route_keeps_first_cheapest_witness :
  ∃ best_cost best_goal best_path,
    plan_route detour 0 [2; 1] = Some (best_cost, best_goal, best_path) ∧
    (best_cost = F32.FLT_MAX ∨ F32.ltb best_cost F32.FLT_MAX = true) ∧
    (∀ goal, goal ∈ [2; 1] →
       ∃ c path, run_dijkstra_personalized detour 0 goal = Some (c, path) ∧
                 F32.ltb c best_cost = false) ∧
    ((best_goal = None ∧ best_cost = F32.FLT_MAX ∧ best_path = []) ∨
     ∃ k goal, [2; 1] !! k = Some goal ∧ best_goal = Some goal ∧
       run_dijkstra_personalized detour 0 goal = Some (best_cost, Some best_path) ∧
       (length best_path ≤ 128)%nat ∧
       ∀ j goal' c path, (j < k)%nat → [2; 1] !! j = Some goal' →
         run_dijkstra_personalized detour 0 goal' = Some (c, path) →
         c ≠ best_cost).
Proof.
  apply (plan_route_keeps_first_cheapest detour 0 [2; 1]).
  - apply graph_wf_Forall. apply (bool_decide_unpack _). vm_compute. reflexivity.
  - vm_compute. lia.
  - vm_compute. split; [discriminate|reflexivity].
  - apply (bool_decide_unpack _). vm_compute. reflexivity.
Defined.

Lemma choose_loop_spec s o a sd done rest bestd best :
  (∀ q, q ∈ done → F32.ltb (proto_dist s o a sd q) bestd = false) →
  ((bestd = F32.FLT_MAX ∧ best = 0%nat) ∨
   ∃ p, done !! best = Some p ∧ proto_dist s o a sd p = bestd ∧
        F32.ltb bestd F32.FLT_MAX = true ∧
        ∀ j q, (j < best)%nat → done !! j = Some q →
          proto_dist s o a sd q ≠ proto_dist s o a sd p) →
  let r := choose_loop s o a sd rest (length done) bestd best in
  (r = 0%nat ∧
   ∀ q, q ∈ done ++ rest → F32.ltb (proto_dist s o a sd q) F32.FLT_MAX = false) ∨
  ∃ p, (done ++ rest) !! r = Some p ∧
       F32.ltb (proto_dist s o a sd p) F32.FLT_MAX = true ∧
       (∀ q, q ∈ done ++ rest →
          F32.ltb (proto_dist s o a sd q) (proto_dist s o a sd p) = false) ∧
       ∀ j q, (j < r)%nat → (done ++ rest) !! j = Some q →
         proto_dist s o a sd q ≠ proto_dist s o a sd p.
Proof.
  revert done bestd best.
  induction rest as [|p rest IH]; intros done bestd best Hlow Hbest; cbn zeta.
  { cbn [choose_loop]. rewrite app_nil_r.
    destruct Hbest as [[-> ->]|(p & Hp & <- & Hlt & Hfirst)]; [by left|right].
    by exists p. }
  cbn [choose_loop].
  assert (bestd = F32.FLT_MAX ∨ F32.ltb bestd F32.FLT_MAX = true) as Hmax.
  { destruct Hbest as [[-> _]|(? & _ & _ & ? & _)]; [by left|by right]. }
  replace (S (length done)) with (length (done ++ [p]))
    by (rewrite length_app; simpl; lia).
  replace (done ++ p :: rest) with ((done ++ [p]) ++ rest)
    by (by rewrite <-app_assoc).
  destruct (F32.ltb (proto_dist s o a sd p) bestd) eqn:Hlt; apply IH.
  - intros q [Hq|Hq%list_elem_of_singleton]%elem_of_app.
    + by eapply F32_ltb_not_below; [apply Hlow|].
    + subst q. apply F32_ltb_irrefl.
  - right. exists p. split_and!.
    + rewrite lookup_app_r by lia. by rewrite Nat.sub_diag.
    + done.
    + by eapply F32_ltb_below_max.
    + intros j q Hj Hq Heq. rewrite lookup_app_l in Hq by lia.
      specialize (Hlow q (list_elem_of_lookup_2 _ _ _ Hq)). congruence.
  - intros q [Hq|Hq%list_elem_of_singleton]%elem_of_app; [by apply Hlow|].
    by subst q.
  - destruct Hbest as [?|(p0 & Hp0 & Hd0 & Hlt0 & Hfirst)]; [by left|right].
    exists p0. split_and!; [by apply lookup_app_l_Some|done..|].
    intros j q Hj Hq. apply (Hfirst j q Hj).
    rewrite lookup_app_l in Hq; [done|]. apply lookup_lt_Some in Hp0. lia.
Qed.

(** X13. [choose_closest_prototype] returns the index of a prototype that
    no other prototype undercuts in distance, and the first one at that
    distance; when no prototype is closer than [FLT_MAX] (none at all, for
    instance) it returns 0. *)
Theorem choose_closest_prototype_first_nearest s o a sd (protos : list Prototype) :
  (choose_closest_prototype s o a sd protos = 0%nat ∧
   ∀ q, q ∈ protos → F32.ltb (proto_dist s o a sd q) F32.FLT_MAX = false) ∨
  ∃ p, protos !! choose_closest_prototype s o a sd protos = Some p ∧
       F32.ltb (proto_dist s o a sd p) F32.FLT_MAX = true ∧
       (∀ q, q ∈ protos →
          F32.ltb (proto_dist s o a sd q) (proto_dist s o a sd p) = false) ∧
       ∀ j q, (j < choose_closest_prototype s o a sd protos)%nat →
         protos !! j = Some q →
         proto_dist s o a sd q ≠ proto_dist s o a sd p.
Proof.
  apply (choose_loop_spec s o a sd [] protos F32.FLT_MAX 0).
  - intros q Hq. by apply elem_of_nil in Hq.
  - by left.
Qed.
End first_cheapest.

(** * Quoted text, keyboard lines and the file that is written *)

Section codec_bounds.
Implicit Types (s p rest : cstring) (g : EmotionGraph).

Lemma parse_quoted_loop_two c d p bi :
  parse_quoted_loop (c :: d :: p) bi =
  if bool_decide (c = ch_quote) then ([], c :: d :: p)
  else if bool_decide (c = ch_backslash) then
    if bool_decide (MAX_LINE - 1 ≤ S bi)%nat then ([d], p)
    else let '(b, r) := parse_quoted_loop p (S bi) in (d :: b, r)
  else
    if bool_decide (MAX_LINE - 1 ≤ S bi)%nat then ([c], d :: p)
    else let '(b, r) := parse_quoted_loop (d :: p) (S bi) in (c :: b, r).
Proof. done. Qed.

Lemma parse_quoted_loop_bounds n p bi :
  (length p ≤ n)%nat → (bi < MAX_LINE - 1)%nat →
  (bi + length (parse_quoted_loop p bi).1 ≤ MAX_LINE - 1)%nat ∧
  (parse_quoted_loop p bi).2 `suffix_of` p.
Proof.
  revert p bi. induction n as [|n IH]; intros p bi Hn Hbi.
  { destruct p; [|simpl in Hn; lia]. cbn [parse_quoted_loop fst snd length].
    split; [lia|done]. }
  destruct p as [|c [|d p]].
  - cbn [parse_quoted_loop fst snd length]. split; [lia|done].
  - cbn [parse_quoted_loop].
    case_bool_decide; cbn [fst snd length]; (split; [lia|]);
      [done|by apply suffix_cons_r].
  - cbn [length] in Hn. rewrite parse_quoted_loop_two.
    case_bool_decide; [cbn [fst snd length]; split; [lia|done]|].
    case_bool_decide.
    + case_bool_decide;
        [cbn [fst snd length]; split; [lia|by do 2 apply suffix_cons_r]|].
      destruct (IH p (S bi)) as [Hlen Hsuf]; [lia..|].
      destruct (parse_quoted_loop p (S bi)) as [b r]. cbn [fst snd length] in *.
      split; [lia|by do 2 apply suffix_cons_r].
    + case_bool_decide;
        [cbn [fst snd length]; split; [lia|by apply suffix_cons_r]|].
      destruct (IH (d :: p) (S bi)) as [Hlen Hsuf]; [cbn [length]; lia|lia|].
      destruct (parse_quoted_loop (d :: p) (S bi)) as [b r].
      cbn [fst snd length] in *. split; [lia|by apply suffix_cons_r].
Qed.

(** X14. Whatever text follows the opening quote, [parse_quoted] stores at
    most [MAX_LINE - 1] characters in its buffer, and the end pointer it
    reports lies inside the text it was given. *)
Theorem parse_quoted_fits_buffer s t rest :
  parse_quoted s = Some (t, rest) →
  (length t ≤ MAX_LINE - 1)%nat ∧ rest `suffix_of` s.
Proof.
  unfold parse_quoted. destruct s as [|c p]; [done|].
  case_bool_decide; [|done].
  destruct (parse_quoted_loop_bounds (length p) p 0) as [Hlen Hsuf];
    [done|unfold MAX_LINE; lia|].
  destruct (parse_quoted_loop p 0) as [b r]. simpl in *.
  intros [= <- <-]. split; [lia|]. apply suffix_cons_r.
  destruct r as [|d r']; [done|]. case_bool_decide; [|done].
  etrans; [|done]. by apply suffix_cons_r.
Qed.

Lemma parse_quoted_fits_buffer_witness :
  (length (lit "walk") ≤ MAX_LINE - 1)%nat ∧
  lit " rest" `suffix_of` (fwrite_quoted (lit "walk") ++ lit " rest").
Proof.
  apply (parse_quoted_fits_buffer (fwrite_quoted (lit "walk") ++ lit " rest")).
  reflexivity.
Defined.

Lemma fgets_spec room f :
  (fgets room f).1 ++ (fgets room f).2 = f ∧
  (length (fgets room f).1 ≤ room)%nat ∧
  ((ch_newline ∉ (fgets room f).1) ∨
   ∃ body, (fgets room f).1 = body ++ [ch_newline] ∧ ch_newline ∉ body).
Proof.
  revert f. induction room as [|k IH]; intros [|c f]; cbn [fgets];
    try (simpl; split_and!; [done|lia|left; apply not_elem_of_nil]).
  case_bool_decide as Hc.
  - subst c. simpl. split_and!; [done|lia|]. right. exists [].
    split; [done|apply not_elem_of_nil].
  - destruct (IH f) as (Happ & Hlen & Hnl).
    destruct (fgets k f) as [l r]. simpl in *. split_and!; [by rewrite Happ|lia|].
    destruct Hnl as [Hnl|(body & -> & Hbody)].
    + left. by apply not_elem_of_cons.
    + right. exists (c :: body). split; [done|by apply not_elem_of_cons].
Qed.

Lemma skip_ws_spec s :
  skip_ws s `suffix_of` s ∧ ∀ c, head (skip_ws s) = Some c → isspace c = false.
Proof.
  induction s as [|c s [IH1 IH2]]; simpl; [done|].
  destruct (isspace c) eqn:Ec.
  - split; [by apply suffix_cons_r|done].
  - split; [done|]. simpl. by intros ? [= <-].
Qed.

(** X15. For a buffer of at least one character, [read_line_trim] never
    fills more than [size - 1] characters of it; what it leaves there has no
    newline and does not start with white space; the input it has not
    consumed is a suffix of the input, so a line longer than the buffer is
    continued by the next read. *)
Theorem read_line_trim_fits size stdin :
  (0 < size)%nat →
  (length (read_line_trim size stdin).1 ≤ size - 1)%nat ∧
  (ch_newline ∉ (read_line_trim size stdin).1) ∧
  (∀ c, head (read_line_trim size stdin).1 = Some c → isspace c = false) ∧
  ∃ line, stdin = line ++ (read_line_trim size stdin).2 ∧
          (length line ≤ size - 1)%nat.
Proof.
  intros _. unfold read_line_trim. destruct stdin as [|c0 f0].
  { simpl. split_and!; [lia|apply not_elem_of_nil|done|].
    exists []. split; [done|simpl; lia]. }
  destruct (fgets_spec (size - 1) (c0 :: f0)) as (Happ & Hlen & Hnl).
  destruct (fgets (size - 1) (c0 :: f0)) as [line rest]. cbn [fst snd] in *.
  destruct (skip_ws_spec (chomp line)) as [Hsuf Hhead].
  assert ((length (chomp line) ≤ length line)%nat ∧ ch_newline ∉ chomp line)
    as [Hcl Hcn].
  { destruct Hnl as [Hnl|(body & -> & Hbody)].
    - unfold chomp. destruct (last line) as [c|] eqn:El; [|done].
      rewrite bool_decide_false; [done|]. intros ->. apply Hnl.
      apply last_Some in El as [l' ->]. apply elem_of_app. right. by left.
    - rewrite chomp_line, length_app. simpl. split; [lia|done]. }
  split_and!.
  - apply suffix_length in Hsuf. lia.
  - intros Hin. apply Hcn. destruct Hsuf as [k ->]. apply elem_of_app. by right.
  - done.
  - by exists line.
Qed.

Lemma read_line_trim_fits_witness :
  (length (read_line_trim MAX_NAME_LEN (lit "  sad and tired")).1
     ≤ MAX_NAME_LEN - 1)%nat ∧
  (ch_newline ∉ (read_line_trim MAX_NAME_LEN (lit "  sad and tired")).1) ∧
  (∀ c, head (read_line_trim MAX_NAME_LEN (lit "  sad and tired")).1 = Some c →
     isspace c = false) ∧
  ∃ line, lit "  sad and tired"
            = line ++ (read_line_trim MAX_NAME_LEN (lit "  sad and tired")).2 ∧
          (length line ≤ MAX_NAME_LEN - 1)%nat.
Proof.
  apply (read_line_trim_fits MAX_NAME_LEN (lit "  sad and tired")).
  vm_compute. lia.
Defined.

(** X22. At the end of the input [read_int_in_range] never returns:
    however many rounds it is given, it is still asking for a number. *)
Theorem read_int_in_range_spins_at_end_of_input rounds lo hi :
  read_int_in_range rounds lo hi [] = Asking.
Proof. induction rounds as [|k IH]; [done|]. cbn. exact IH. Qed.

(** X23. When [read_int_in_range] returns, the number lies between [lo] and
    [hi], and the input left unread is a suffix of the input. *)
Theorem read_int_in_range_returns_in_range rounds lo hi stdin val rest :
  read_int_in_range rounds lo hi stdin = Returned val rest →
  lo ≤ val ≤ hi ∧ rest `suffix_of` stdin.
Proof.
  revert stdin. induction rounds as [|k IH]; intros stdin; [done|].
  cbn [read_int_in_range].
  destruct (read_line_trim_fits 128 stdin) as (_ & _ & _ & line & Hline & _); [lia|].
  destruct (read_line_trim 128 stdin) as [buf rest']. cbn [fst snd] in Hline.
  assert (rest' `suffix_of` stdin) as Hsuf by (by exists line).
  assert (read_int_in_range k lo hi rest' = Returned val rest →
          lo ≤ val ≤ hi ∧ rest `suffix_of` stdin) as Hnext.
  { intros [? ?]%IH. split; [done|by etrans]. }
  destruct (sscanf_d buf) as [[v|]|]; [|done..].
  case_bool_decide; [|done]. by intros [= <- <-].
Qed.

Lemma read_int_in_range_returns_in_range_witness :
  0 ≤ 7 ≤ 8 ∧
  lit "next" `suffix_of`
    (lit "nine" ++ ch_newline :: lit " 7" ++ ch_newline :: lit "next").
Proof.
  apply (read_int_in_range_returns_in_range 2 0 8
           (lit "nine" ++ ch_newline :: lit " 7" ++ ch_newline :: lit "next")).
  reflexivity.
Defined.

Lemma save_graph_wf g :
  graph_wf g →
  save_graph g =
    Some (mjoin (node_block <$> g) ++ mjoin (saved_edge_text g <$> saved_edges g)).
Proof.
  intros Hwf. unfold save_graph, saved_edges.
  rewrite (save_edges_from_spec g 0 g); [done|done|].
  intros j n e Hn He _. by eapply Hwf.
Qed.

Lemma saved_edges_from_same i (ns ns' : list EmotionNode) :
  length ns' = length ns →
  (∀ k, filter (λ e, i + k < to e)%nat (from_option edges [] (ns' !! k))
      = filter (λ e, i + k < to e)%nat (from_option edges [] (ns !! k))) →
  saved_edges_from i ns' = saved_edges_from i ns.
Proof.
  revert i ns'. induction ns as [|n ns IH]; intros i [|n' ns'] Hlen Hsame;
    try done. cbn [saved_edges_from]. f_equal.
  - specialize (Hsame 0%nat). simpl in Hsame. rewrite Nat.add_0_r in Hsame.
    by rewrite Hsame.
  - apply IH; [by injection Hlen|]. intros k. specialize (Hsame (S k)).
    simpl in Hsame. by rewrite <-Nat.add_succ_comm in Hsame.
Qed.

(** [save_graph] looks at the name, the numbers and the tips of a node, and
    at the edges it stores toward a higher index, at nothing else. *)
Lemma save_graph_same_forward g g' :
  graph_wf g → graph_wf g' →
  name <$> g' = name <$> g → node_block <$> g' = node_block <$> g →
  (∀ k, filter (λ e, k < to e)%nat (edges_at g' k)
      = filter (λ e, k < to e)%nat (edges_at g k)) →
  save_graph g' = save_graph g.
Proof.
  intros Hwf Hwf' Hnames Hblocks Hfwd.
  rewrite !save_graph_wf by done. rewrite Hblocks. do 3 f_equal.
  unfold saved_edges. rewrite (saved_edges_from_same 0 g g').
  - apply list_fmap_ext. intros _ [i e] _. unfold saved_edge_text, name_at.
    cbn [fst snd].
    assert (∀ k, from_option name [] (g' !! k) = from_option name [] (g !! k)) as Hk.
    { intros k. apply (f_equal (λ l, l !! k)) in Hnames.
      rewrite !list_lookup_fmap in Hnames.
      destruct (g' !! k), (g !! k); simpl in *; congruence. }
    by rewrite !Hk.
  - rewrite <-(length_fmap name g'), Hnames. by rewrite length_fmap.
  - intros k. apply (Hfwd k).
Qed.

Lemma node_block_alter g (h : EmotionNode → EmotionNode) i :
  (∀ n, node_block (h n) = node_block n) →
  node_block <$> alter h i g = node_block <$> g.
Proof.
  intros Hh. apply list_eq. intros k. rewrite !list_lookup_fmap.
  destruct (decide (i = k)) as [->|Hik].
  - rewrite list_lookup_alter_eq. destruct (g !! k); simpl; [by rewrite Hh|done].
  - by rewrite list_lookup_alter_ne.
Qed.

(** X16. A transition from an emotion to itself is stored in memory, two
    edges at the same node, but [save_graph] writes the same file as before
    it was added: the transition does not survive a save and reload. *)
Theorem self_transition_is_not_saved g A u w proc :
  graph_wf g → graph_find g A = Some u →
  edge_count (graph_add_edge g A A w proc) = (edge_count g + 2)%nat ∧
  save_graph (graph_add_edge g A A w proc) = save_graph g.
Proof.
  intros Hwf Hu.
  assert (forbidden A A = false) as Hf.
  { destruct (forbidden A A) eqn:E; [|done].
    apply forbidden_spec in E as [-> Hpos].
    by apply positive_goal_not_overwhelmed in Hpos. }
  split; [by apply edge_count_graph_add_edge|].
  rewrite (graph_add_edge_at g A A u u w proc) by done.
  pose proof (graph_find_lt _ _ _ Hu) as Hlt.
  apply save_graph_same_forward; [done| | | |].
  - unfold add_edge_at. apply graph_wf_alter_edge; [by apply graph_wf_alter_edge|].
    simpl. by rewrite length_alter.
  - unfold add_edge_at. by rewrite !names_alter_edge.
  - unfold add_edge_at. by rewrite !node_block_alter.
  - intros k. rewrite edges_at_add_edge_at, filter_app by done.
    unfold added_at. destruct (decide (u = k)) as [->|Hne]; simpl.
    + rewrite !filter_cons_False by (simpl; lia). by rewrite filter_nil, app_nil_r.
    + by rewrite filter_nil, app_nil_r.
Qed.

Lemma self_transition_is_not_saved_witness :
  edge_count (graph_add_edge detour (lit "U") (lit "U") two None)
    = (edge_count detour + 2)%nat ∧
  save_graph (graph_add_edge detour (lit "U") (lit "U") two None)
    = save_graph detour.
Proof.
  apply (self_transition_is_not_saved detour (lit "U") 1 two None).
  - apply graph_wf_Forall. apply (bool_decide_unpack _). vm_compute. reflexivity.
  - reflexivity.
Defined.

(** X17. The record that [save_graph] writes for an edge stored at
    "overwhelmed" toward a positive goal is skipped when the file is read:
    [load_graph] leaves the graph as it is on that line. *)
Theorem forbidden_record_is_skipped g P w proc :
  P ∈ positive_goals → fits_line (edge_text overwhelmed P w proc) →
  load_line (edge_text overwhelmed P w proc) g = g.
Proof.
  intros HP Hfit. rewrite load_line_edge; [| |..|done].
  - unfold graph_add_edge. fold (forbidden overwhelmed P).
    by rewrite (proj2 (forbidden_spec overwhelmed P)).
  - apply (bool_decide_unpack _). by vm_compute.
  - revert HP. unfold positive_goals. rewrite !elem_of_cons, elem_of_nil.
    intros [->|[->|[->|[->|[]]]]]; apply (bool_decide_unpack _); by vm_compute.
Qed.

Lemma forbidden_record_is_skipped_witness :
  load_line (edge_text overwhelmed (lit "calm") two None) detour = detour.
Proof.
  apply (forbidden_record_is_skipped detour (lit "calm") two None).
  - apply (bool_decide_unpack _). by vm_compute.
  - vm_compute. lia.
Defined.
End codec_bounds.

(** * Menu option 5 *)

Section menu_option_5.
Implicit Types (g : EmotionGraph) (n : EmotionNode) (e : Edge).

Lemma find_edge_Some es v found :
  find_edge es v = Some found →
  ∃ e, es !! found = Some e ∧ to e = v ∧
       ∀ j e', (j < found)%nat → es !! j = Some e' → to e' ≠ v.
Proof.
  unfold find_edge. destruct (list_find _ es) as [[i e]|] eqn:E; [|done].
  intros [= <-]. apply list_find_Some in E as (He & Hto & Hfirst).
  exists e. split_and!; [done..|]. intros j e' Hj He'. by eapply Hfirst.
Qed.

Lemma menu_action_edit g from to_ yn w proc_buf u v nu found :
  from ≠ [] → to_ ≠ [] → forbidden from to_ = false →
  graph_find g from = Some u → graph_find g to_ = Some v →
  g !! u = Some nu → find_edge (edges nu) v = Some found →
  menu_action g from to_ yn w proc_buf
    = Some (alter (edit_edge found (entered proc_buf)) u g).
Proof.
  intros Hfrom Hto Hf Hu Hv Hnu Hfound. unfold menu_action.
  rewrite bool_decide_false by tauto. fold (forbidden from to_). rewrite Hf.
  unfold find_or_add. rewrite Hu, Hv, Hnu. cbn [mbind option_bind].
  by rewrite Hfound.
Qed.

Lemma edges_at_edit g found proc u nu k :
  g !! u = Some nu →
  edges_at (alter (edit_edge found proc) u g) k =
  if decide (k = u) then alter (set_procedure proc) found (edges nu)
  else edges_at g k.
Proof.
  intros Hnu. unfold edges_at. destruct (decide (k = u)) as [->|Hne].
  - by rewrite list_lookup_alter_eq, Hnu.
  - by rewrite list_lookup_alter_ne.
Qed.

Lemma filter_alter_out {A} (P : A → Prop) `{!∀ x, Decision (P x)}
    (f : A → A) (l : list A) i x :
  l !! i = Some x → ¬ P x → ¬ P (f x) → filter P (alter f i l) = filter P l.
Proof.
  revert i. induction l as [|y l IH]; intros [|i] Hi Hx Hfx; simplify_eq/=.
  - by rewrite !filter_cons_False.
  - rewrite !filter_cons. by erewrite IH.
Qed.

(** X18. Editing the action of an existing transition replaces the action
    of the first edge stored from the first emotion to the second, and of
    that edge only: its weight stays, every other edge and node stays, in
    particular the mirror edge stored at the second emotion.  A blank line
    removes the action. *)
Theorem menu_action_edits_one_edge g from to_ yn w proc_buf u v nu found :
  from ≠ [] → to_ ≠ [] → forbidden from to_ = false →
  graph_find g from = Some u → graph_find g to_ = Some v →
  g !! u = Some nu → find_edge (edges nu) v = Some found →
  ∃ g' e,
    menu_action g from to_ yn w proc_buf = Some g' ∧
    edges nu !! found = Some e ∧ to e = v ∧
    (∀ j e', (j < found)%nat → edges nu !! j = Some e' → to e' ≠ v) ∧
    g' !! u = Some (mkNode (name nu) (valence nu) (baseline_intensity nu)
                      (<[found := mkEdge v (weight e) (entered proc_buf)]> (edges nu))
                      (tips nu)) ∧
    (∀ k, k ≠ u → g' !! k = g !! k) ∧
    (proc_buf = [] → procedure <$> edges_at g' u !! found = Some None).
Proof.
  intros Hfrom Hto Hf Hu Hv Hnu Hfound.
  destruct (find_edge_Some _ _ _ Hfound) as (e & He & Hte & Hfirst).
  eexists _, e. split; [by eapply menu_action_edit|].
  assert (alter (set_procedure (entered proc_buf)) found (edges nu)
          = <[found := mkEdge v (weight e) (entered proc_buf)]> (edges nu)) as Halt.
  { apply list_eq. intros k. destruct (decide (found = k)) as [<-|Hne].
    - rewrite list_lookup_alter_eq, He.
      rewrite list_lookup_insert_eq by (by eapply lookup_lt_Some).
      unfold set_procedure. simpl. by rewrite Hte.
    - by rewrite list_lookup_alter_ne, list_lookup_insert_ne. }
  split_and!; [done..| | |].
  - rewrite list_lookup_alter_eq, Hnu. simpl. unfold edit_edge. by rewrite Halt.
  - intros k Hk. by rewrite list_lookup_alter_ne.
  - intros ->. rewrite (edges_at_edit g found _ u nu u Hnu), decide_True by done.
    rewrite list_lookup_alter_eq, He. done.
Qed.

Lemma menu_action_edits_one_edge_witness :
  ∃ g' e,
    menu_action detour (lit "V") (lit "S") [] 0 (lit "walk") = Some g' ∧
    edges_at detour 2 !! 0%nat = Some e ∧ to e = 0%nat ∧
    (∀ j e', (j < 0)%nat → edges_at detour 2 !! j = Some e' → to e' ≠ 0%nat) ∧
    g' !! 2%nat = Some (mkNode (lit "V") F32.one five
                      (<[0%nat := mkEdge 0 (weight e) (entered (lit "walk"))]>
                         (edges_at detour 2))
                      []) ∧
    (∀ k, k ≠ 2%nat → g' !! k = detour !! k) ∧
    (lit "walk" = [] → procedure <$> edges_at g' 2 !! 0%nat = Some None).
Proof.
  apply (menu_action_edits_one_edge detour (lit "V") (lit "S") [] 0 (lit "walk")
           2 0 (mkNode (lit "V") F32.one five (edges_at detour 2) []) 0);
    by vm_compute.
Defined.

(** X19. When the first emotion of the transition has the higher index (it
    was created after the second), the edited action lives on an edge that
    [save_graph] does not write: the file saved after the edit is the file
    saved before it. *)
Theorem menu_action_edit_is_not_saved g from to_ yn w proc_buf u v nu found :
  graph_wf g →
  from ≠ [] → to_ ≠ [] → forbidden from to_ = false →
  graph_find g from = Some u → graph_find g to_ = Some v → (v ≤ u)%nat →
  g !! u = Some nu → find_edge (edges nu) v = Some found →
  ∃ g', menu_action g from to_ yn w proc_buf = Some g' ∧
        save_graph g' = save_graph g.
Proof.
  intros Hwf Hfrom Hto Hf Hu Hv Hle Hnu Hfound.
  destruct (find_edge_Some _ _ _ Hfound) as (e & He & Hte & _).
  eexists. split; [by eapply menu_action_edit|].
  apply save_graph_same_forward; [done| | | |].
  - intros k nk e' Hk He'. rewrite length_alter.
    destruct (decide (k = u)) as [->|Hne].
    + rewrite list_lookup_alter_eq, Hnu in Hk. injection Hk as <-.
      cbn [edit_edge edges] in He'.
      apply list_elem_of_lookup in He' as [j Hj].
      destruct (decide (found = j)) as [<-|Hfj].
      * rewrite list_lookup_alter_eq, He in Hj. injection Hj as <-. simpl.
        eapply Hwf; [done|]. by eapply list_elem_of_lookup_2.
      * rewrite list_lookup_alter_ne in Hj by done.
        eapply Hwf; [done|]. by eapply list_elem_of_lookup_2.
    + rewrite list_lookup_alter_ne in Hk by done. by eapply Hwf.
  - apply list_eq. intros k. rewrite !list_lookup_fmap.
    destruct (decide (u = k)) as [<-|Hne].
    + by rewrite list_lookup_alter_eq, Hnu.
    + by rewrite list_lookup_alter_ne.
  - by apply node_block_alter.
  - intros k. rewrite (edges_at_edit g found _ u nu k Hnu).
    destruct (decide (k = u)) as [->|Hne]; [|done].
    unfold edges_at. rewrite Hnu. simpl.
    apply (filter_alter_out _ _ _ _ e); [done|lia|simpl; lia].
Qed.

Lemma menu_action_edit_is_not_saved_witness :
  ∃ g', menu_action detour (lit "V") (lit "S") [] 0 (lit "walk") = Some g' ∧
        save_graph g' = save_graph detour.
Proof.
  apply (menu_action_edit_is_not_saved detour (lit "V") (lit "S") [] 0 (lit "walk")
           2 0 (mkNode (lit "V") F32.one five (edges_at detour 2) []) 0).
  - apply graph_wf_Forall. apply (bool_decide_unpack _). vm_compute. reflexivity.
  - by vm_compute.
  - by vm_compute.
  - by vm_compute.
  - by vm_compute.
  - by vm_compute.
  - vm_compute. lia.
  - by vm_compute.
  - by vm_compute.
Defined.

(** X20. For a blocked pair the menu offers the detour through
    "grounded"; every confirmation stores four more edges, also when the
    two links exist already, and a refusal changes nothing. *)
Theorem menu_action_detour_adds_four_edges g to_ yn w proc_buf :
  to_ ∈ positive_goals →
  ∃ g', menu_action g overwhelmed to_ yn w proc_buf = Some g' ∧
        if says_yes yn then edge_count g' = (edge_count g + 4)%nat else g' = g.
Proof.
  intros Hpos. unfold menu_action.
  rewrite bool_decide_false.
  2:{ intros [? | ->]; [done|]. revert Hpos. unfold positive_goals.
      rewrite !elem_of_cons, elem_of_nil. intros [?|[?|[?|[?|[]]]]]; done. }
  fold (forbidden overwhelmed to_).
  rewrite (proj2 (forbidden_spec overwhelmed to_)) by done.
  destruct (says_yes yn); [|by eexists]. eexists. split; [done|].
  rewrite !edge_count_graph_add_edge; [lia|done|].
  destruct (forbidden grounded to_) eqn:E; [|done].
  by apply forbidden_spec in E as [? _].
Qed.

Lemma menu_action_detour_adds_four_edges_witness :
  ∃ g', menu_action detour overwhelmed (lit "calm") (lit "yes") 0 [] = Some g' ∧
        if says_yes (lit "yes") then edge_count g' = (edge_count detour + 4)%nat
        else g' = detour.
Proof.
  apply (menu_action_detour_adds_four_edges detour (lit "calm") (lit "yes") 0 []).
  apply (bool_decide_unpack _). by vm_compute.
Defined.
End menu_option_5.

(** * Menu options 1 and 2 *)

Section menu_plan_lemmas.
Implicit Types (g : EmotionGraph) (nm emo : cstring).

Lemma reach_no_edges g s v : edges_at g s = [] → reach g s v → v = s.
Proof.
  intros Hs. induction 1 as [|u nu e _ -> Hnu He]; [done|].
  unfold edges_at in Hs. rewrite Hnu in Hs. simpl in Hs. rewrite Hs in He.
  by apply elem_of_nil in He.
Qed.

(** What the loop over the goal names keeps: the source keeps its index and
    has no edge, and the goal indices are in range and differ from it. *)
Lemma ensure_goals_inv emo s nms g idxs :
  Forall (λ nm, valid_name nm ∧ nm ≠ emo) nms →
  graph_wf g → graph_find g emo = Some s → edges_at g s = [] →
  Forall (λ i, 0 ≤ i < Z.of_nat (length g) ∧ Z.to_nat i ≠ s) idxs →
  let r := foldl ensure_goal (g, idxs) nms in
  graph_wf r.1 ∧ graph_find r.1 emo = Some s ∧ edges_at r.1 s = [] ∧
  Forall (λ i, 0 ≤ i < Z.of_nat (length r.1) ∧ Z.to_nat i ≠ s) r.2.
Proof.
  intros Hnms. revert g idxs.
  induction Hnms as [|nm nms [Hv Hne] _ IH]; intros g idxs Hwf Hs He Hidx;
    [done|].
  cbn [foldl]. pose proof (graph_find_lt _ _ _ Hs) as Hslt.
  assert (valid_name nm) as Hv' by done. unfold valid_name in Hv'.
  apply IH; unfold ensure_goal, ensure_node, index_of, graph_add_node;
    cbn [fst snd]; destruct (graph_find g nm) as [j|] eqn:Ej; cbn [fst snd];
    try done.
  - by apply graph_wf_snoc.
  - by rewrite graph_find_snoc, Hs.
  - unfold edges_at in *. by rewrite lookup_app_l.
  - apply Forall_app. split; [done|]. apply Forall_singleton.
    rewrite Ej. simpl. pose proof (graph_find_lt _ _ _ Ej).
    split; [lia|]. rewrite Nat2Z.id. intros ->.
    apply graph_find_Some in Ej as (n1 & Hn1 & Hnm1 & _).
    apply graph_find_Some in Hs as (n2 & Hn2 & Hnm2 & _). congruence.
  - apply Forall_app. split.
    + eapply Forall_impl; [done|]. intros i [Hi ?]. split; [|done].
      rewrite length_app. simpl. lia.
    + apply Forall_singleton. rewrite graph_find_snoc, Ej. cbn [name].
      rewrite take_ge by (unfold MAX_NAME_LEN in *; lia).
      rewrite decide_True by done. simpl.
      rewrite length_app. simpl. split; [lia|]. rewrite Nat2Z.id. lia.
Qed.

(** X21. An emotion that the graph does not know, and that is not a goal
    itself, never gets a plan: the menu adds a node without edges for it,
    the goal loop ends with [FLT_MAX] and no goal, which is the "no
    available path" answer, and the node stays in the graph. *)
Theorem unknown_emotion_gets_no_plan g emo base :
  graph_wf g → valid_name emo → emo ∉ goal_names → graph_find g emo = None →
  (menu_plan g emo base).2 = Some (F32.FLT_MAX, None, []) ∧
  graph_find (menu_plan g emo base).1 emo = Some (length g) ∧
  edges_at (menu_plan g emo base).1 (length g) = [].
Proof.
  intros Hwf Hv Hgoal Hnone. unfold menu_plan.
  set (g1 := ensure_node g emo neg_fifth base).
  assert (g1 = g ++ [mkNode emo neg_fifth base [] []]) as Hg1.
  { unfold g1, ensure_node, graph_add_node. rewrite Hnone. cbn [fst].
    by rewrite take_ge by (unfold valid_name in Hv; lia). }
  assert (graph_find g1 emo = Some (length g)) as Hs.
  { rewrite Hg1, graph_find_snoc, Hnone. simpl. by rewrite decide_True. }
  destruct (ensure_goals_inv emo (length g) goal_names g1 []) as (Hwf2 & Hs2 & He2 & Hidx).
  - unfold goal_names in *. rewrite !not_elem_of_cons in Hgoal.
    destruct Hgoal as (? & ? & ? & ? & _).
    repeat (apply Forall_cons; split; [split; [vm_compute; lia|done]|]).
    apply Forall_nil_2.
  - rewrite Hg1. by apply graph_wf_snoc.
  - done.
  - unfold edges_at. rewrite Hg1, lookup_app_r by lia. by rewrite Nat.sub_diag.
  - apply Forall_nil_2.
  - unfold index_of. rewrite Hs. cbn [from_option].
    destruct (foldl ensure_goal (g1, []) goal_names) as [g2 goal_idx].
    cbn [fst snd] in *. split_and!; [|done..].
    pose proof (graph_find_lt _ _ _ Hs2) as Hlt.
    apply plan_route_no_path; [done|lia|]. intros goal Hin.
    rewrite Forall_forall in Hidx. destruct (Hidx goal Hin) as [Hrange Hne].
    split; [done|]. rewrite Nat2Z.id. intros Hreach.
    by apply reach_no_edges in Hreach.
Qed.

Lemma unknown_emotion_gets_no_plan_witness :
  (menu_plan detour (lit "bored") five).2 = Some (F32.FLT_MAX, None, []) ∧
  graph_find (menu_plan detour (lit "bored") five).1 (lit "bored")
    = Some (length detour) ∧
  edges_at (menu_plan detour (lit "bored") five).1 (length detour) = [].
Proof.
  apply (unknown_emotion_gets_no_plan detour (lit "bored") five).
  - apply graph_wf_Forall. apply (bool_decide_unpack _). vm_compute. reflexivity.
  - vm_compute. lia.
  - apply (bool_decide_unpack _). by vm_compute.
  - reflexivity.
Defined.
End menu_plan_lemmas.

(** * Binary floating point: what rounding to nearest gives

    [SpecFloat] computes; these lemmas say what the result is worth.  The
    value of a mantissa [m] at exponent [e] is [inject_Z m * bpow e]. *)

Section powers.

Lemma bpow_pos e : (0 < bpow e)%Q.
Proof. apply Qpower_0_lt. reflexivity. Qed.

Lemma bpow_add a b : (bpow (a + b) == bpow a * bpow b)%Q.
Proof. apply Qpower_plus. discriminate. Qed.

Lemma bpow_Z n : 0 ≤ n → (bpow n == inject_Z (2 ^ n))%Q.
Proof. intros Hn. unfold bpow. by rewrite Zpower_Qpower. Qed.

Lemma bpow_le a b : a ≤ b → (bpow a <= bpow b)%Q.
Proof. intros H. apply Qpower_le_compat_l; [done|]. discriminate. Qed.

Lemma bpow_lt_inv a b : (bpow a < bpow b)%Q → a < b.
Proof. intros H. eapply Qpower_lt_compat_l_inv; [exact H|reflexivity]. Qed.

Lemma bpow_0 : (bpow 0 == 1)%Q.
Proof. reflexivity. Qed.

Lemma bpow_opp_r a : (bpow a * bpow (- a) == 1)%Q.
Proof. rewrite <-bpow_add, Z.add_opp_diag_r. reflexivity. Qed.

(** [digits2_pos p] is the number of bits of [p]. *)
Lemma digits2_pos_bounds p :
  2 ^ (Zpos (digits2_pos p) - 1) ≤ Zpos p < 2 ^ Zpos (digits2_pos p).
Proof.
  induction p as [p IH|p IH|]; cbn [digits2_pos].
  - rewrite Pos2Z.inj_succ, (Pos2Z.inj_xI p).
    set (d := Zpos (digits2_pos p)) in *.
    replace (Z.succ d - 1) with d by lia.
    replace d with (Z.succ (d - 1)) at 1 by lia.
    rewrite !Z.pow_succ_r by lia. clearbody d.
    generalize dependent (Zpos p). intros P IH. lia.
  - rewrite Pos2Z.inj_succ, (Pos2Z.inj_xO p).
    set (d := Zpos (digits2_pos p)) in *.
    replace (Z.succ d - 1) with d by lia.
    replace d with (Z.succ (d - 1)) at 1 by lia.
    rewrite !Z.pow_succ_r by lia. clearbody d.
    generalize dependent (Zpos p). intros P IH. lia.
  - simpl. lia.
Qed.

Lemma Zdigits2_bounds z :
  0 < z → 2 ^ (Zdigits2 z - 1) ≤ z < 2 ^ Zdigits2 z ∧ 1 ≤ Zdigits2 z.
Proof.
  destruct z as [|p|p]; try lia. intros _. cbn [Zdigits2].
  split; [apply digits2_pos_bounds|lia].
Qed.

Lemma Zdigits2_unique z k :
  1 ≤ k → 2 ^ (k - 1) ≤ z < 2 ^ k → Zdigits2 z = k.
Proof.
  intros Hk [Hlo Hhi].
  assert (0 < z) as Hz by (pose proof (Z.pow_pos_nonneg 2 (k - 1)); lia).
  destruct (Zdigits2_bounds z Hz) as [[Hlo' Hhi'] Hd].
  destruct (Z.lt_trichotomy (Zdigits2 z) k) as [H|[H|H]]; [|done|].
  - pose proof (Z.pow_le_mono_r 2 (Zdigits2 z) (k - 1)). lia.
  - pose proof (Z.pow_le_mono_r 2 k (Zdigits2 z - 1)). lia.
Qed.

Lemma Zdigits2_le z k : 0 < z → z < 2 ^ k → 0 ≤ k → Zdigits2 z ≤ k.
Proof.
  intros Hz Hlt Hk. destruct (Zdigits2_bounds z Hz) as [[Hlo' Hhi'] Hd].
  destruct (Z.le_gt_cases (Zdigits2 z) k) as [H|H]; [done|].
  pose proof (Z.pow_le_mono_r 2 k (Zdigits2 z - 1)). lia.
Qed.

Lemma Zdigits2_ge z k : 2 ^ (k - 1) ≤ z → 1 ≤ k → k ≤ Zdigits2 z.
Proof.
  intros Hlo Hk.
  assert (0 < z) as Hz by (pose proof (Z.pow_pos_nonneg 2 (k - 1)); lia).
  destruct (Zdigits2_bounds z Hz) as [[Hlo' Hhi'] Hd].
  destruct (Z.le_gt_cases k (Zdigits2 z)) as [H|H]; [done|].
  pose proof (Z.pow_le_mono_r 2 (Zdigits2 z) (k - 1)). lia.
Qed.
End powers.

Section shifting.

Lemma inject_Z_xO p : (inject_Z (Zpos p~0) == 2 * inject_Z (Zpos p))%Q.
Proof. rewrite (Pos2Z.inj_xO p), inject_Z_mult. reflexivity. Qed.

Lemma inject_Z_xI p : (inject_Z (Zpos p~1) == 2 * inject_Z (Zpos p) + 1)%Q.
Proof. rewrite (Pos2Z.inj_xI p), inject_Z_plus, inject_Z_mult. reflexivity. Qed.

Lemma inbetween_bounds m l t :
  inbetween m l t → (inject_Z m <= t ∧ t < inject_Z m + 1)%Q.
Proof. destruct l as [|[]]; simpl; intros H; split; lra. Qed.

Lemma inbetween_proper m l t t' :
  (t == t')%Q → inbetween m l t → inbetween m l t'.
Proof. intros Heq. destruct l as [|[]]; cbn [inbetween]; rewrite Heq; done. Qed.

Lemma loc_of_shr_record_of_loc m l :
  loc_of_shr_record (shr_record_of_loc m l) = l ∧
  shr_m (shr_record_of_loc m l) = m.
Proof. by destruct l as [|[]]. Qed.

(** One shift to the right halves the value; the record keeps track of
    where the exact value lies. *)
Lemma shr_1_inbetween mrs t :
  0 ≤ shr_m mrs →
  inbetween (shr_m mrs) (loc_of_shr_record mrs) t →
  0 ≤ shr_m (shr_1 mrs) ∧
  inbetween (shr_m (shr_1 mrs)) (loc_of_shr_record (shr_1 mrs)) (t * bpow (-1)).
Proof.
  assert (bpow (-1) == 1 # 2)%Q as Hh by reflexivity.
  destruct mrs as [m r s]. cbn [shr_m]. intros Hm.
  destruct m as [|[p|p|]|]; [| | | |lia];
    destruct r, s; cbn [shr_1 orb shr_m loc_of_shr_record inbetween];
    rewrite ?inject_Z_xO, ?inject_Z_xI, Hh;
    change (inject_Z 0) with 0%Q; change (inject_Z 1) with 1%Q;
    intros H; (split; [lia|]); lra.
Qed.

Lemma iter_pos_shr_1 n mrs t :
  0 ≤ shr_m mrs →
  inbetween (shr_m mrs) (loc_of_shr_record mrs) t →
  0 ≤ shr_m (SpecFloat.iter_pos shr_1 n mrs) ∧
  inbetween (shr_m (SpecFloat.iter_pos shr_1 n mrs))
    (loc_of_shr_record (SpecFloat.iter_pos shr_1 n mrs)) (t * bpow (- Zpos n)).
Proof.
  revert mrs t. induction n as [n IH|n IH|]; intros mrs t Hm Hin; cbn [SpecFloat.iter_pos].
  - destruct (shr_1_inbetween mrs t Hm Hin) as [Hm1 Hin1].
    destruct (IH _ _ Hm1 Hin1) as [Hm2 Hin2].
    destruct (IH _ _ Hm2 Hin2) as [Hm3 Hin3]. split; [done|].
    assert (t * bpow (-1) * bpow (- Zpos n) * bpow (- Zpos n)
            == t * bpow (- Zpos n~1))%Q as Heq.
    { rewrite (Pos2Z.inj_xI n).
      replace (- (2 * Zpos n + 1)) with (-1 + (- Zpos n + - Zpos n)) by lia.
      rewrite !bpow_add. ring. }
    by eapply inbetween_proper.
  - destruct (IH _ _ Hm Hin) as [Hm2 Hin2].
    destruct (IH _ _ Hm2 Hin2) as [Hm3 Hin3]. split; [done|].
    assert (t * bpow (- Zpos n) * bpow (- Zpos n)
            == t * bpow (- Zpos n~0))%Q as Heq.
    { rewrite (Pos2Z.inj_xO n).
      replace (- (2 * Zpos n)) with (- Zpos n + - Zpos n) by lia.
      rewrite !bpow_add. ring. }
    by eapply inbetween_proper.
  - by apply shr_1_inbetween.
Qed.

(** [shr] by [n] steps: the exponent moves to [e + n] when [n] is positive. *)
Lemma shr_inbetween m l e n t :
  0 ≤ m → 0 ≤ n → inbetween m l t →
  ∃ mrs, shr (shr_record_of_loc m l) e n = (mrs, e + n) ∧ 0 ≤ shr_m mrs ∧
    inbetween (shr_m mrs) (loc_of_shr_record mrs) (t * bpow (- n)).
Proof.
  intros Hm Hn Hin. destruct (loc_of_shr_record_of_loc m l) as [Hl Hm'].
  destruct n as [|p|p]; [| |lia].
  - eexists. split; [by rewrite Z.add_0_r|]. rewrite Hl, Hm'. split; [done|].
    eapply inbetween_proper; [|done]. change (bpow (- 0)) with 1%Q. ring.
  - eexists. split; [done|]. apply iter_pos_shr_1; by rewrite ?Hl, ?Hm'.
Qed.

(** [round_nearest_even] picks a neighbour at most half a unit away. *)
Lemma round_nearest_even_spec m l t :
  inbetween m l t →
  m ≤ round_nearest_even m l ≤ m + 1 ∧
  (Qabs (t - inject_Z (round_nearest_even m l)) <= 1 # 2)%Q.
Proof.
  intros Hin. destruct l as [|[]]; cbn [round_nearest_even inbetween] in *.
  - split; [lia|]. apply Qabs_Qle_condition. lra.
  - destruct (Z.even m); (split; [lia|]); apply Qabs_Qle_condition;
      rewrite ?inject_Z_plus; change (inject_Z 1) with 1%Q; lra.
  - split; [lia|]. apply Qabs_Qle_condition. lra.
  - split; [lia|]. apply Qabs_Qle_condition.
    rewrite inject_Z_plus. change (inject_Z 1) with 1%Q. lra.
Qed.

Lemma shr_1_m m : 0 ≤ m →
  shr_m (shr_1 (Build_shr_record m false false)) = m / 2.
Proof.
  intros Hm. destruct m as [|[p|p|]|]; cbn [shr_1 shr_m orb]; [done| | |done|lia].
  - rewrite (Pos2Z.inj_xI p). apply Z.div_unique with 1; lia.
  - rewrite (Pos2Z.inj_xO p). apply Z.div_unique with 0; lia.
Qed.
End shifting.

Section rounding.
Variables prec emax : Z.
Hypothesis Hprec : 0 < prec.

Lemma inject_Z_le x y : x ≤ y → (inject_Z x <= inject_Z y)%Q.
Proof. by rewrite <-Zle_Qle. Qed.

Lemma inject_Z_lt x y : x < y → (inject_Z x < inject_Z y)%Q.
Proof. by rewrite <-Zlt_Qlt. Qed.

Lemma inject_Z_le_inv x y : (inject_Z x <= inject_Z y)%Q → x ≤ y.
Proof. by rewrite <-Zle_Qle. Qed.

Lemma inject_Z_lt_inv x y : (inject_Z x < inject_Z y)%Q → x < y.
Proof. by rewrite <-Zlt_Qlt. Qed.

Lemma pow2_split : 2 ^ prec = 2 * 2 ^ (prec - 1) ∧ 0 < 2 ^ (prec - 1).
Proof.
  split; [|apply Z.pow_pos_nonneg; lia].
  replace prec with (Z.succ (prec - 1)) at 1 by lia.
  by rewrite Z.pow_succ_r by lia.
Qed.

Lemma inject_Z_plus1 m : (inject_Z (m + 1) == inject_Z m + 1)%Q.
Proof. rewrite inject_Z_plus. reflexivity. Qed.

Lemma inject_Z_pow2 n : 0 ≤ n → (inject_Z (2 ^ n) == bpow n)%Q.
Proof. intros. by rewrite bpow_Z. Qed.

Lemma Q_scale_le x y z : (0 < z → x * z <= y * z → x <= y)%Q.
Proof. intros Hz H. by apply Qmult_lt_0_le_reg_r in H. Qed.

(** [binary_round_aux] on a mantissa of at least [prec] bits, in the normal
    range and below the overflow threshold: the result is finite with a
    mantissa of [prec] bits, and it is worth the integer [m2] nearest to the
    input scaled to the exponent of its binade. *)
Lemma binary_round_aux_spec s mx ex lx t :
  0 < mx → inbetween mx lx t →
  prec ≤ Zdigits2 mx →
  emin prec emax ≤ Zdigits2 mx + ex - prec →
  (t * bpow ex <= inject_Z (2 ^ prec - 1) * bpow (emax - prec))%Q →
  ∃ m3 e3 m2,
    binary_round_aux prec emax s mx ex lx = S754_finite s m3 e3 ∧
    bounded prec emax m3 e3 = true ∧
    Zdigits2 (Zpos m3) = prec ∧
    Zdigits2 mx + ex ≤ prec + e3 ≤ Zdigits2 mx + ex + 1 ∧
    (inject_Z (Zpos m3) * bpow e3
       == inject_Z m2 * bpow (Zdigits2 mx + ex - prec))%Q ∧
    (Qabs (t * bpow ex * bpow (- (Zdigits2 mx + ex - prec)) - inject_Z m2)
       <= 1 # 2)%Q.
Proof.
  intros Hmx Hin Hd Hnorm Hov.
  destruct (Zdigits2_bounds mx Hmx) as [[Hlo Hhi] _].
  set (d := Zdigits2 mx) in *. set (e1 := d + ex - prec) in *.
  assert (fexp prec emax (d + ex) = e1) as Hfexp.
  { unfold fexp. fold e1. lia. }
  destruct (inbetween_bounds _ _ _ Hin) as [Ht1 Ht2].
  (* the value lies in the binade of [d + ex] *)
  assert (bpow (d - 1) <= t)%Q as Htlo.
  { rewrite <-inject_Z_pow2 by lia. eapply Qle_trans; [|exact Ht1]. by apply inject_Z_le. }
  assert (t < bpow d)%Q as Hthi.
  { rewrite <-inject_Z_pow2 by lia. eapply Qlt_le_trans; [exact Ht2|].
    rewrite <-inject_Z_plus1. apply inject_Z_le. lia. }
  (* first shift *)
  unfold binary_round_aux, shr_fexp. fold d. rewrite Hfexp.
  destruct (shr_inbetween mx lx ex (e1 - ex) t) as (mrs1 & -> & Hm1 & Hin1);
    [lia|unfold e1; lia|done|].
  replace (ex + (e1 - ex)) with e1 by lia.
  set (m1 := shr_m mrs1) in *. set (l1 := loc_of_shr_record mrs1) in *.
  set (τ := (t * bpow (- (e1 - ex)))%Q) in *.
  destruct (inbetween_bounds _ _ _ Hin1) as [Hτ1 Hτ2].
  assert (bpow (prec - 1) <= τ)%Q as Hτlo.
  { assert (bpow (prec - 1) == bpow (d - 1) * bpow (- (e1 - ex)))%Q as ->.
    { rewrite <-bpow_add. by replace (d - 1 + - (e1 - ex)) with (prec - 1)
        by (unfold e1; lia). }
    apply Qmult_le_compat_r; [done|]. apply Qlt_le_weak, bpow_pos. }
  assert (τ < bpow prec)%Q as Hτhi.
  { assert (bpow prec == bpow d * bpow (- (e1 - ex)))%Q as ->.
    { rewrite <-bpow_add. by replace (d + - (e1 - ex)) with prec
        by (unfold e1; lia). }
    apply Qmult_lt_compat_r; [apply bpow_pos|done]. }
  assert (2 ^ (prec - 1) ≤ m1 < 2 ^ prec) as Hm1b.
  { split.
    - assert (inject_Z (2 ^ (prec - 1)) < inject_Z (m1 + 1))%Q as H.
      { rewrite inject_Z_pow2 by lia. rewrite inject_Z_plus1.
        eapply Qle_lt_trans; [exact Hτlo|exact Hτ2]. }
      apply inject_Z_lt_inv in H. lia.
    - apply inject_Z_lt_inv. rewrite inject_Z_pow2 by lia.
      eapply Qle_lt_trans; [exact Hτ1|exact Hτhi]. }
  destruct (round_nearest_even_spec m1 l1 τ Hin1) as [Hm2 Habs].
  set (m2 := round_nearest_even m1 l1) in *.
  (* no overflow *)
  assert (d + ex ≤ emax ∧ (d + ex = emax → m2 < 2 ^ prec)) as [Hle Htop].
  { assert (inject_Z (2 ^ prec - 1) * bpow (emax - prec) < bpow emax)%Q as Hmax.
    { assert (bpow emax == bpow prec * bpow (emax - prec))%Q as ->.
      { rewrite <-bpow_add. by replace (prec + (emax - prec)) with emax by lia. }
      apply Qmult_lt_compat_r; [apply bpow_pos|].
      rewrite <-inject_Z_pow2 by lia. apply inject_Z_lt. lia. }
    assert (d - 1 + ex < emax) as Hlt.
    { apply bpow_lt_inv. rewrite bpow_add.
      eapply Qle_lt_trans; [|exact Hmax]. eapply Qle_trans; [|exact Hov].
      apply Qmult_le_compat_r; [done|]. apply Qlt_le_weak, bpow_pos. }
    split; [lia|]. intros Heq.
    assert (τ <= inject_Z (2 ^ prec - 1))%Q as Hτmax.
    { apply (Q_scale_le _ _ (bpow e1)); [apply bpow_pos|].
      replace (emax - prec) with e1 in Hov by (unfold e1; lia).
      eapply Qle_trans; [|exact Hov]. unfold τ. rewrite <-Qmult_assoc, <-bpow_add.
      replace (- (e1 - ex) + e1) with ex by lia. apply Qle_refl. }
    apply Qabs_Qle_condition in Habs as [Ha1 Ha2].
    assert (inject_Z m2 < inject_Z (2 ^ prec - 1 + 1))%Q as H.
    { rewrite inject_Z_plus1. lra. }
    apply inject_Z_lt_inv in H. lia. }
  assert (Qabs (t * bpow ex * bpow (- e1) - inject_Z m2) <= 1 # 2)%Q as Hnear.
  { assert (t * bpow ex * bpow (- e1) == τ)%Q as ->; [|done].
    unfold τ. rewrite <-Qmult_assoc, <-bpow_add.
    by replace (ex + - e1) with (- (e1 - ex)) by lia. }
  (* second shift *)
  destruct (Z.eq_dec m2 (2 ^ prec)) as [Hcarry|Hnocarry].
  - assert (Zdigits2 m2 = prec + 1) as Hd2.
    { apply Zdigits2_unique; [lia|]. rewrite Hcarry.
      replace (prec + 1 - 1) with prec by lia.
      replace (prec + 1) with (Z.succ prec) by lia.
      rewrite (Z.pow_succ_r 2 prec) by lia. pose proof pow2_split. lia. }
    rewrite Hd2. assert (fexp prec emax (prec + 1 + e1) = e1 + 1) as ->.
    { unfold fexp. unfold e1 in *. lia. }
    replace (e1 + 1 - e1) with 1 by lia.
    cbn [shr shr_record_of_loc SpecFloat.iter_pos]. rewrite shr_1_m by lia.
    destruct pow2_split as [Hsplit Hpos].
    assert (m2 / 2 = 2 ^ (prec - 1)) as ->.
    { rewrite Hcarry, Hsplit. rewrite Z.mul_comm, Z.div_mul by lia. done. }
    destruct (2 ^ (prec - 1)) as [|m3|] eqn:Em3; [lia| |lia].
    assert (Zdigits2 (Zpos m3) = prec) as Hd3.
    { apply Zdigits2_unique; [lia|]. rewrite Hsplit. lia. }
    rewrite (proj2 (Z.leb_le (e1 + 1) (emax - prec))) by (unfold e1; lia).
    exists m3, (e1 + 1), m2.
    split_and!; [done| |done|unfold e1; lia|unfold e1; lia| |].
    + unfold bounded, canonical_mantissa. cbn [Zdigits2] in Hd3. rewrite Hd3.
      apply andb_true_iff. split; [|apply Z.leb_le; unfold e1; lia].
      apply Z.eqb_eq. unfold fexp. unfold e1 in *. lia.
    + rewrite Hcarry, Hsplit, inject_Z_mult, bpow_add.
      change (bpow 1) with 2%Q. change (inject_Z 2) with 2%Q. ring.
    + done.
  - assert (Zdigits2 m2 = prec) as Hd2 by (apply Zdigits2_unique; lia).
    rewrite Hd2. assert (fexp prec emax (prec + e1) = e1) as ->.
    { unfold fexp. unfold e1 in *. lia. }
    rewrite Z.sub_diag. cbn [shr shr_record_of_loc shr_m].
    destruct m2 as [|m3|] eqn:Em2; [lia| |lia].
    rewrite (proj2 (Z.leb_le e1 (emax - prec))) by (unfold e1; lia).
    exists m3, e1, (Zpos m3).
    split_and!; [done| |done|unfold e1; lia|unfold e1; lia|done|].
    + unfold bounded, canonical_mantissa. cbn [Zdigits2] in Hd2. rewrite Hd2.
      apply andb_true_iff. split; [|apply Z.leb_le; unfold e1; lia].
      apply Z.eqb_eq. unfold fexp. unfold e1 in *. lia.
    + done.
Qed.

Lemma Qabs_scale a c : (0 < c → Qabs (a * c) == Qabs a * c)%Q.
Proof.
  intros Hc. rewrite Qabs_Qmult. rewrite (Qabs_pos c); [reflexivity|].
  by apply Qlt_le_weak.
Qed.

Lemma nearest_int u m k :
  (Qabs (u - inject_Z m) <= 1 # 2)%Q →
  (Qabs (u - inject_Z m) <= Qabs (u - inject_Z k))%Q.
Proof.
  intros Hm. destruct (Z.lt_trichotomy k m) as [Hk|[->|Hk]].
  - assert (inject_Z k <= inject_Z m - 1)%Q as Hle.
    { assert (inject_Z (k + 1) <= inject_Z m)%Q as H by (apply inject_Z_le; lia).
      rewrite inject_Z_plus1 in H. lra. }
    apply Qabs_Qle_condition in Hm as [H1 H2].
    eapply Qle_trans; [|apply Qle_Qabs]. apply Qabs_Qle_condition. split; lra.
  - apply Qle_refl.
  - assert (inject_Z m + 1 <= inject_Z k)%Q as Hle.
    { rewrite <-inject_Z_plus1. apply inject_Z_le. lia. }
    apply Qabs_Qle_condition in Hm as [H1 H2].
    rewrite (Qabs_Qminus u (inject_Z k)).
    eapply Qle_trans; [|apply Qle_Qabs]. apply Qabs_Qle_condition. split; lra.
Qed.

(** A value rounded to the nearest multiple of [2^e1] in the binade of
    [prec - 1 + e1] is at least as close as any number with at most [prec]
    significant bits. *)
Lemma round_is_nearest V e1 m2 mz ez :
  (Qabs (V * bpow (- e1) - inject_Z m2) <= 1 # 2)%Q →
  (bpow (prec - 1 + e1) <= V)%Q →
  0 ≤ mz → mz < 2 ^ prec →
  (Qabs (V - inject_Z m2 * bpow e1) <= Qabs (V - inject_Z mz * bpow ez))%Q.
Proof.
  intros Hhalf Hlow Hmz Hbits.
  set (u := (V * bpow (- e1))%Q) in *.
  assert (V == u * bpow e1)%Q as HV.
  { unfold u. rewrite <-Qmult_assoc, (Qmult_comm (bpow (- e1))), bpow_opp_r. ring. }
  assert (∀ k, Qabs (V - inject_Z m2 * bpow e1)
               <= Qabs (V - inject_Z k * bpow e1))%Q as Hmult.
  { intros k.
    assert (∀ j, V - inject_Z j * bpow e1 == (u - inject_Z j) * bpow e1)%Q as Hj.
    { intros j. rewrite HV. ring. }
    rewrite !Hj, !Qabs_scale by apply bpow_pos.
    apply Qmult_le_compat_r; [by apply nearest_int|].
    apply Qlt_le_weak, bpow_pos. }
  destruct (Z.le_gt_cases e1 ez) as [Hge|Hlt].
  - assert (inject_Z mz * bpow ez == inject_Z (mz * 2 ^ (ez - e1)) * bpow e1)%Q
      as ->; [|apply Hmult].
    rewrite inject_Z_mult, inject_Z_pow2 by lia.
    rewrite <-Qmult_assoc, <-bpow_add. by replace (ez - e1 + e1) with ez by lia.
  - assert (inject_Z mz * bpow ez <= bpow (prec - 1 + e1))%Q as HZ.
    { eapply Qle_trans.
      - apply Qmult_le_compat_r; [|apply Qlt_le_weak, bpow_pos].
        apply inject_Z_le. apply Z.lt_le_incl, Hbits.
      - rewrite inject_Z_pow2 by lia. rewrite <-bpow_add. apply bpow_le. lia. }
    eapply Qle_trans; [apply (Hmult (2 ^ (prec - 1)))|].
    assert (inject_Z (2 ^ (prec - 1)) * bpow e1 == bpow (prec - 1 + e1))%Q as ->.
    { rewrite inject_Z_pow2 by lia. by rewrite <-bpow_add. }
    rewrite !Qabs_pos by lra. lra.
Qed.

(** Hence no number of [prec] bits, at whatever exponent, is closer to the
    input than the result, and the result is within half a unit of the last
    place. *)
Lemma binary_round_aux_nearest s mx ex lx t :
  0 < mx → inbetween mx lx t →
  prec ≤ Zdigits2 mx →
  emin prec emax ≤ Zdigits2 mx + ex - prec →
  (t * bpow ex <= inject_Z (2 ^ prec - 1) * bpow (emax - prec))%Q →
  ∃ m3 e3,
    binary_round_aux prec emax s mx ex lx = S754_finite s m3 e3 ∧
    bounded prec emax m3 e3 = true ∧
    Zdigits2 (Zpos m3) = prec ∧
    Zdigits2 mx + ex ≤ prec + e3 ∧
    (bpow (Zdigits2 mx + ex - 1) <= t * bpow ex)%Q ∧
    (Qabs (t * bpow ex - inject_Z (Zpos m3) * bpow e3)
       <= bpow (Zdigits2 mx + ex - prec) * (1 # 2))%Q ∧
    ∀ mz ez, 0 ≤ mz → mz < 2 ^ prec →
      (Qabs (t * bpow ex - inject_Z (Zpos m3) * bpow e3)
         <= Qabs (t * bpow ex - inject_Z mz * bpow ez))%Q.
Proof.
  intros Hmx Hin Hd Hnorm Hov.
  destruct (binary_round_aux_spec s mx ex lx t Hmx Hin Hd Hnorm Hov)
    as (m3 & e3 & m2 & Hr & Hb & Hd3 & He3 & Hval & Hnear).
  destruct (Zdigits2_bounds mx Hmx) as [[Hlo _] _].
  destruct (inbetween_bounds _ _ _ Hin) as [Ht1 _].
  assert (bpow (Zdigits2 mx + ex - 1) <= t * bpow ex)%Q as Hbin.
  { assert (bpow (Zdigits2 mx + ex - 1) == bpow (Zdigits2 mx - 1) * bpow ex)%Q
      as ->.
    { rewrite <-bpow_add. by replace (Zdigits2 mx - 1 + ex)
        with (Zdigits2 mx + ex - 1) by lia. }
    apply Qmult_le_compat_r; [|apply Qlt_le_weak, bpow_pos].
    rewrite <-inject_Z_pow2 by lia. eapply Qle_trans; [|exact Ht1].
    by apply inject_Z_le. }
  exists m3, e3. split_and!; [done..|lia|done| |].
  - rewrite Hval. set (e1 := Zdigits2 mx + ex - prec) in *.
    assert (t * bpow ex - inject_Z m2 * bpow e1
            == (t * bpow ex * bpow (- e1) - inject_Z m2) * bpow e1)%Q as ->.
    { rewrite <-(Qmult_1_r (t * bpow ex)) at 1. rewrite <-(bpow_opp_r e1). ring. }
    rewrite Qabs_scale by apply bpow_pos. rewrite (Qmult_comm (bpow e1)).
    apply Qmult_le_compat_r; [done|]. apply Qlt_le_weak, bpow_pos.
  - intros mz ez Hmz Hbits. rewrite Hval.
    apply round_is_nearest; [done| |done..].
    by replace (prec - 1 + (Zdigits2 mx + ex - prec))
      with (Zdigits2 mx + ex - 1) by lia.
Qed.

(** What [bounded] says of a mantissa and an exponent. *)
Lemma bounded_facts m e :
  bounded prec emax m e = true →
  Zpos m < 2 ^ prec ∧ e ≤ emax - prec ∧ emin prec emax ≤ e ∧
  (inject_Z (Zpos m) * bpow e <= inject_Z (2 ^ prec - 1) * bpow (emax - prec))%Q.
Proof.
  unfold bounded, canonical_mantissa. intros [Hc He]%andb_true_iff.
  apply Z.eqb_eq in Hc. apply Z.leb_le in He.
  destruct (Zdigits2_bounds (Zpos m)) as [[Hlo Hhi] Hd]; [done|].
  cbn [Zdigits2] in *. unfold fexp in Hc.
  assert (Zpos (digits2_pos m) ≤ prec) as Hdig by lia.
  assert (Zpos m < 2 ^ prec) as Hlt.
  { eapply Z.lt_le_trans; [exact Hhi|]. apply Z.pow_le_mono_r; lia. }
  split_and!; [done|done|lia|].
  eapply Qle_trans.
  - apply Qmult_le_compat_r; [|apply Qlt_le_weak, bpow_pos].
    apply (inject_Z_le _ (2 ^ prec - 1)). lia.
  - apply Qmult_le_l; [|by apply bpow_le].
    apply (inject_Z_lt 0). pose proof pow2_split. lia.
Qed.

(** The conversion of a number with more bits than the format holds. *)
Lemma binary_round_nearest s m e :
  prec ≤ Zdigits2 (Zpos m) →
  emin prec emax ≤ Zdigits2 (Zpos m) + e - prec →
  (inject_Z (Zpos m) * bpow e <= inject_Z (2 ^ prec - 1) * bpow (emax - prec))%Q →
  ∃ m3 e3,
    binary_round prec emax s m e = S754_finite s m3 e3 ∧
    bounded prec emax m3 e3 = true ∧
    Zdigits2 (Zpos m) + e ≤ prec + e3 ∧
    ∀ mz ez, 0 ≤ mz → mz < 2 ^ prec →
      (Qabs (inject_Z (Zpos m) * bpow e - inject_Z (Zpos m3) * bpow e3)
         <= Qabs (inject_Z (Zpos m) * bpow e - inject_Z mz * bpow ez))%Q.
Proof.
  intros Hd Hnorm Hov. unfold binary_round, shl_align.
  change (Zpos (digits2_pos m)) with (Zdigits2 (Zpos m)).
  assert (fexp prec emax (Zdigits2 (Zpos m) + e) = Zdigits2 (Zpos m) + e - prec)
    as -> by (unfold fexp; lia).
  destruct (Zdigits2 (Zpos m) + e - prec - e) as [| |p] eqn:E; [| |lia];
    destruct (binary_round_aux_nearest s (Zpos m) e loc_Exact (inject_Z (Zpos m)))
      as (m3 & e3 & Hr & Hb & _ & He3 & _ & _ & Hn); try done; by exists m3, e3.
Qed.

Hypothesis Hemax : 12 ≤ emax.

Lemma pow2_1024 k : 0 ≤ k → 2 ^ (k + 10) = 1024 * 2 ^ k.
Proof. intros Hk. rewrite Z.pow_add_r by lia. change (2 ^ 10) with 1024. lia. Qed.

(** [T / 1000] correctly rounded: what reading a three-decimal text does.
    [b] is the binade of the quotient. *)
Lemma SFdiv_thousand_nearest s T :
  (inject_Z (Zpos T) * (1 # 1000)
     <= inject_Z (2 ^ prec - 1) * bpow (emax - prec))%Q →
  ∃ m3 e3 b,
    SFdiv prec emax (S754_finite s T 0) (S754_finite false 1000 0)
      = S754_finite s m3 e3 ∧
    bounded prec emax m3 e3 = true ∧
    Zdigits2 (Zpos m3) = prec ∧
    -9 ≤ b ∧ b ≤ prec + e3 ∧
    (bpow (b - 1) <= inject_Z (Zpos T) * (1 # 1000))%Q ∧
    (Qabs (inject_Z (Zpos T) * (1 # 1000) - inject_Z (Zpos m3) * bpow e3)
       <= bpow (b - prec) * (1 # 2))%Q ∧
    ∀ mz ez, 0 ≤ mz → mz < 2 ^ prec →
      (Qabs (inject_Z (Zpos T) * (1 # 1000) - inject_Z (Zpos m3) * bpow e3)
         <= Qabs (inject_Z (Zpos T) * (1 # 1000) - inject_Z mz * bpow ez))%Q.
Proof.
  intros Hov. cbn [SFdiv]. unfold SFdiv_core_binary.
  change (Zdigits2 1000) with 10. rewrite !Z.add_0_r, Z.sub_diag, !Z.sub_0_l.
  destruct (Zdigits2_bounds (Zpos T)) as [[Hlo Hhi] Hd1]; [done|].
  set (d1 := Zdigits2 (Zpos T)) in *.
  set (e' := Z.min (fexp prec emax (d1 - 10)) 0).
  assert (emin prec emax ≤ e' ∧ e' ≤ d1 - 10 - prec ∧ e' ≤ 0) as (He1 & He2 & He3).
  { unfold e', fexp, emin. lia. }
  set (m' := match - e' with Z0 => Zpos T | Zpos _ => Z.shiftl (Zpos T) (- e')
             | Zneg _ => 0 end).
  assert (m' = Zpos T * 2 ^ (- e')) as Hm'.
  { unfold m'. destruct (- e') as [|p|p] eqn:E; [|by rewrite Z.shiftl_mul_pow2|lia].
    simpl. lia. }
  pose proof (Z_div_mod m' 1000 eq_refl) as Hdiv.
  destruct (Z.div_eucl m' 1000) as [q r]. destruct Hdiv as [Hqr Hr].
  change (Z.even 1000) with true. cbn iota. rewrite xorb_false_r.
  (* the quotient has enough bits *)
  assert (2 ^ (d1 - 1 - e') ≤ m') as Hm'lo.
  { rewrite Hm'. replace (d1 - 1 - e') with ((d1 - 1) + - e') by lia.
    rewrite Z.pow_add_r by lia. apply Z.mul_le_mono_nonneg_r; [|done].
    apply Z.pow_nonneg. lia. }
  assert (2 ^ (d1 - e' - 11) ≤ q) as Hqlo.
  { replace (d1 - 1 - e') with ((d1 - e' - 11) + 10) in Hm'lo by lia.
    rewrite pow2_1024 in Hm'lo by lia. lia. }
  assert (2 ^ (prec - 1) ≤ q) as Hqprec.
  { eapply Z.le_trans; [|exact Hqlo]. apply Z.pow_le_mono_r; lia. }
  assert (0 < q) as Hq by (pose proof pow2_split; lia).
  assert (prec ≤ Zdigits2 q) as Hdq by (apply Zdigits2_ge; lia).
  assert (d1 - e' - 10 ≤ Zdigits2 q) as Hdq'.
  { apply Zdigits2_ge; [|lia]. by replace (d1 - e' - 10 - 1) with (d1 - e' - 11) by lia. }
  set (t := (inject_Z m' * (1 # 1000))%Q).
  assert (inject_Z m' == 1000 * inject_Z q + inject_Z r)%Q as HmQ.
  { rewrite Hqr, inject_Z_plus, inject_Z_mult. reflexivity. }
  assert (inbetween q (new_location_even 1000 r) t) as Hin.
  { unfold new_location_even, t. destruct (Z.eqb_spec r 0) as [->|Hne].
    - cbn [inbetween]. rewrite HmQ. change (inject_Z 0) with 0%Q. field.
    - assert (0 < inject_Z r ∧ inject_Z r < 1000)%Q as [Hr1 Hr2].
      { split; [apply (inject_Z_lt 0)|apply (inject_Z_lt _ 1000)]; lia. }
      destruct (Z.compare_spec (2 * r) 1000) as [Hc|Hc|Hc]; cbn [inbetween].
      + assert (inject_Z r == 500)%Q as Hr5.
        { assert (r = 500) as -> by lia. reflexivity. }
        rewrite HmQ, Hr5. field.
      + assert (inject_Z r < 500)%Q by (apply (inject_Z_lt _ 500); lia).
        rewrite HmQ. split; lra.
      + assert (500 < inject_Z r)%Q by (apply (inject_Z_lt 500); lia).
        rewrite HmQ. split; lra. }
  assert (t * bpow e' == inject_Z (Zpos T) * (1 # 1000))%Q as HV.
  { unfold t. rewrite Hm', inject_Z_mult, inject_Z_pow2 by lia.
    rewrite <-(Qmult_1_r (inject_Z (Zpos T) * (1 # 1000))), <-(bpow_opp_r e'). ring. }
  destruct (binary_round_aux_nearest s q e' (new_location_even 1000 r) t)
    as (m3 & e3 & Hres & Hb & Hd3 & He3' & Hbin & Hulp & Hn);
    [done|done|done|lia| |].
  { by rewrite HV. }
  exists m3, e3, (Zdigits2 q + e').
  split_and!; [done|done|done|lia|done|by rewrite <-HV|by rewrite <-HV|].
  intros mz ez Hmz Hbits. rewrite <-HV. by apply Hn.
Qed.
End rounding.

(** * Numbers as text: what is printed is what is read *)

Section digits_back.

(** The digits of a number, read as [strtod] reads them, give the number. *)
Lemma of_uint_acc_chars u acc :
  Npos (Pos.of_uint_acc u acc)
  = foldl (λ a c, a * 10 + digit_val c)%N (Npos acc) (uint_chars u).
Proof.
  revert acc. induction u as [|u IH|u IH|u IH|u IH|u IH|u IH|u IH|u IH|u IH|u IH];
    intros acc; cbn [Pos.of_uint_acc uint_chars foldl]; [done|..];
    rewrite IH; f_equal; unfold digit_val; cbn; lia.
Qed.

Lemma of_uint_chars u : Pos.of_uint u = N_of_digits (uint_chars u).
Proof.
  unfold N_of_digits.
  induction u as [|u IH|u IH|u IH|u IH|u IH|u IH|u IH|u IH|u IH|u IH];
    cbn [Pos.of_uint uint_chars foldl]; [done|exact IH|..];
    by rewrite of_uint_acc_chars.
Qed.

Lemma N_of_digits_of_N n : N_of_digits (digits_of_N n) = n.
Proof.
  unfold digits_of_N. rewrite <-of_uint_chars.
  apply (DecimalN.Unsigned.of_to n).
Qed.

Lemma N_of_digits_app D F :
  N_of_digits (D ++ F) = foldl (λ a c, a * 10 + digit_val c)%N (N_of_digits D) F.
Proof. unfold N_of_digits. by rewrite foldl_app. Qed.

Lemma digit_val_char d : (d < 10)%N → digit_val (digit_char d) = d.
Proof.
  intros Hd. unfold digit_val, digit_char.
  rewrite N_ascii_embedding by lia. lia.
Qed.

Lemma N_of_digits_fmt3 q :
  N_of_digits (digits_of_N (q / 1000) ++
    [digit_char (q / 100 mod 10); digit_char (q / 10 mod 10); digit_char (q mod 10)])
  = q.
Proof.
  rewrite N_of_digits_app, N_of_digits_of_N. cbn [foldl].
  rewrite !digit_val_char by (apply N.mod_lt; lia).
  change 1000%N with (10 * 10 * 10)%N. change 100%N with (10 * 10)%N.
  rewrite <-!N.Div0.div_div.
  pose proof (N.div_mod' q 10). pose proof (N.div_mod' (q / 10) 10).
  pose proof (N.div_mod' (q / 10 / 10) 10). lia.
Qed.

(** The text [%.3f] prints for a value that is not zero is read as its
    thousandths with the exponent -3. *)
Lemma scan_numeral_finite s m e rest :
  field_end rest →
  scan_numeral (fmt3 (S754_finite s m e) ++ rest)
    = Some (Num_dec s (thousandths m e) (-3), rest).
Proof.
  intros Hrest. cbn [fmt3]. rewrite <-!app_assoc. cbn [app].
  rewrite (scan_numeral_decimal s _
    [digit_char (thousandths m e / 100 mod 10);
     digit_char (thousandths m e / 10 mod 10);
     digit_char (thousandths m e mod 10)] rest);
    [|apply digits_of_N_nonempty|apply digits_of_N_digits| |done].
  - by rewrite N_of_digits_fmt3.
  - repeat constructor; apply digit_char_digit; by apply N.mod_lt.
Qed.

End digits_back.

Section three_decimals.

Lemma nearest_even_unique z T T' : nearest_even z T → nearest_even z T' → T = T'.
Proof.
  intros H H'.
  assert (Qabs (z - inject_Z T) <= 1 # 2)%Q as Hle.
  { destruct H as [H|[H _]]; [by apply Qlt_le_weak|rewrite H; apply Qle_refl]. }
  assert (Qabs (z - inject_Z T') <= 1 # 2)%Q as Hle'.
  { destruct H' as [H'|[H' _]]; [by apply Qlt_le_weak|rewrite H'; apply Qle_refl]. }
  apply Qabs_Qle_condition in Hle as [Hl1 Hl2].
  apply Qabs_Qle_condition in Hle' as [Hl1' Hl2'].
  destruct (Z.lt_trichotomy T T') as [Hlt|[->|Hlt]]; [|done|]; exfalso.
  - assert (inject_Z (T + 1) <= inject_Z T')%Q as Hs by (apply inject_Z_le; lia).
    rewrite inject_Z_plus in Hs. change (inject_Z 1) with 1%Q in Hs.
    assert (z - inject_Z T == 1 # 2)%Q as E by lra.
    assert (z - inject_Z T' == - (1 # 2))%Q as E' by lra.
    assert (T' = T + 1) as ->.
    { apply Z.le_antisymm; [|lia]. apply inject_Z_le_inv.
      rewrite inject_Z_plus. change (inject_Z 1) with 1%Q. lra. }
    destruct H as [H|[_ Hev]]; [rewrite E in H; by vm_compute in H|].
    destruct H' as [H'|[_ Hev']]; [rewrite E' in H'; by vm_compute in H'|].
    rewrite Z.even_add in Hev'. rewrite Hev in Hev'. done.
  - assert (inject_Z (T' + 1) <= inject_Z T)%Q as Hs by (apply inject_Z_le; lia).
    rewrite inject_Z_plus in Hs. change (inject_Z 1) with 1%Q in Hs.
    assert (z - inject_Z T' == 1 # 2)%Q as E' by lra.
    assert (z - inject_Z T == - (1 # 2))%Q as E by lra.
    assert (T = T' + 1) as ->.
    { apply Z.le_antisymm; [|lia]. apply inject_Z_le_inv.
      rewrite inject_Z_plus. change (inject_Z 1) with 1%Q. lra. }
    destruct H as [H|[_ Hev]]; [rewrite E in H; by vm_compute in H|].
    destruct H' as [H'|[_ Hev']]; [rewrite E' in H'; by vm_compute in H'|].
    rewrite Z.even_add in Hev. rewrite Hev' in Hev. done.
Qed.

(** A value at least as close to [T] as a value that rounds to [T] rounds
    to [T] as well. *)
Lemma nearest_even_closer z z' T :
  nearest_even z T →
  (Qabs (z' - inject_Z T) <= Qabs (z - inject_Z T))%Q →
  nearest_even z' T.
Proof.
  intros [H|[H Hev]] Hle.
  - left. eapply Qle_lt_trans; [exact Hle|exact H].
  - rewrite H in Hle. apply Qle_lt_or_eq in Hle as [Hlt|Heq]; [by left|by right].
Qed.

Lemma inject_Z_abs k : (inject_Z (Z.abs k) == Qabs (inject_Z k))%Q.
Proof. apply (Zabs_Qabs k 1). Qed.

Lemma nearest_even_ratio num den T :
  0 < den →
  (Z.abs (2 * num - 2 * T * den) < den ∨
   (Z.abs (2 * num - 2 * T * den) = den ∧ Z.even T = true)) →
  nearest_even (inject_Z num / inject_Z den) T.
Proof.
  intros Hden H.
  assert (0 < inject_Z den)%Q as Hd by (by apply (inject_Z_lt 0)).
  assert (Qabs (inject_Z num / inject_Z den - inject_Z T) * (2 * inject_Z den)
          == inject_Z (Z.abs (2 * num - 2 * T * den)))%Q as E.
  { rewrite <-Qabs_scale by lra.
    rewrite inject_Z_abs. apply Qabs_wd.
    replace (2 * num - 2 * T * den) with (2 * num + - (2 * T * den)) by lia.
    rewrite inject_Z_plus, inject_Z_opp, !inject_Z_mult.
    change (inject_Z 2) with 2%Q.
    field. lra. }
  destruct H as [H|[H Hev]]; [left|right; split; [|done]].
  - apply inject_Z_lt in H. rewrite <-E in H.
    apply Qmult_lt_r with (z := (2 * inject_Z den)%Q); [lra|].
    eapply Qlt_le_trans; [exact H|]. apply Qle_lteq. right. ring.
  - rewrite H in E.
    apply Qmult_inj_r with (z := (2 * inject_Z den)%Q); [lra|].
    rewrite E. ring.
Qed.

Lemma even_of_N n : Z.even (Z.of_N n) = N.even n.
Proof. by destruct n as [|[p|p|]]. Qed.

Lemma round_half_even_div_spec num den :
  let T := Z.of_N (round_half_even_div num den) in
  Z.abs (2 * Z.of_N num - 2 * T * Zpos den) < Zpos den ∨
  (Z.abs (2 * Z.of_N num - 2 * T * Zpos den) = Zpos den ∧ Z.even T = true).
Proof.
  unfold round_half_even_div.
  pose proof (N.div_mod' num (Npos den)) as Hdm.
  pose proof (N.mod_lt num (Npos den) ltac:(done)) as Hr.
  set (q := (num / Npos den)%N) in *. set (r := (num mod Npos den)%N) in *.
  destruct (N.compare_spec (2 * r) (Npos den)) as [E|E|E]; cbn zeta.
  - destruct (N.even q) eqn:Ev.
    + right. split; [lia|]. by rewrite even_of_N.
    + right. split; [lia|].
      rewrite N2Z.inj_add, Z.even_add, even_of_N, Ev. done.
  - left. lia.
  - left. lia.
Qed.

Lemma thousandths_spec m e :
  nearest_even (1000 * (inject_Z (Zpos m) * bpow e)) (Z.of_N (thousandths m e)).
Proof.
  destruct e as [|p|p]; cbn [thousandths].
  - left. rewrite N2Z.inj_mul, inject_Z_mult. cbn [Z.of_N].
    change (inject_Z 1000) with 1000%Q.
    assert (1000 * (inject_Z (Zpos m) * bpow 0) - inject_Z (Zpos m) * 1000 == 0)%Q
      as -> by (rewrite bpow_0; ring). done.
  - left. rewrite !N2Z.inj_mul, N2Z.inj_pow, !inject_Z_mult. cbn [Z.of_N].
    rewrite bpow_Z by done. change (inject_Z 1000) with 1000%Q.
    assert (1000 * (inject_Z (Zpos m) * inject_Z (2 ^ Zpos p))
            - inject_Z (Zpos m) * inject_Z (2 ^ Zpos p) * 1000 == 0)%Q
      as -> by ring. done.
  - pose proof (round_half_even_div_spec (Npos m * 1000) (2 ^ p)) as H.
    cbn zeta in H. apply nearest_even_ratio in H; [|done].
    eapply nearest_even_closer; [exact H|]. apply Qle_lteq. right.
    apply Qabs_wd. apply Qplus_inj_r.
    rewrite N2Z.inj_mul, inject_Z_mult. cbn [Z.of_N].
    rewrite Pos2Z.inj_pow.
    change (bpow (Zneg p)) with (/ bpow (Zpos p))%Q. rewrite bpow_Z by done.
    change (inject_Z 1000) with 1000%Q.
    assert (0 < inject_Z (2 ^ Zpos p))%Q
      by (apply (inject_Z_lt 0); by apply Z.pow_pos_nonneg).
    field. lra.
Qed.
End three_decimals.

Section reread_same_text.
Implicit Types (s : bool) (m : positive) (e : Z).

Lemma Qabs_cases t :
  ((0 <= t)%Q ∧ (Qabs t == t)%Q) ∨ ((t <= 0)%Q ∧ (Qabs t == - t)%Q).
Proof.
  destruct (Qlt_le_dec t 0) as [H|H].
  - right. split; [by apply Qlt_le_weak|]. apply Qabs_neg. by apply Qlt_le_weak.
  - left. split; [done|]. by apply Qabs_pos.
Qed.

Lemma fmt3_closer s m e m' e' :
  (Qabs (1000 * (inject_Z (Zpos m') * bpow e') - inject_Z (Z.of_N (thousandths m e)))
     <= Qabs (1000 * (inject_Z (Zpos m) * bpow e) - inject_Z (Z.of_N (thousandths m e))))%Q →
  fmt3 (S754_finite s m' e') = fmt3 (S754_finite s m e).
Proof.
  intros H. apply (nearest_even_closer _ _ _ (thousandths_spec m e)) in H.
  pose proof (nearest_even_unique _ _ _ H (thousandths_spec m' e')) as E.
  apply N2Z.inj in E. cbn [fmt3]. by rewrite E.
Qed.

Lemma reread_finite s m e :
  reread (S754_finite s m e)
  = round_numeral F32.prec F32.emax (Num_dec s (thousandths m e) (-3)).
Proof.
  unfold reread, scan_float. rewrite <-(app_nil_r (fmt3 _)).
  by rewrite scan_numeral_finite by apply field_end_nil.
Qed.

Lemma reread_atof_finite s m e :
  reread_atof (S754_finite s m e)
  = double_to_float (round_numeral 53 1024 (Num_dec s (thousandths m e) (-3))).
Proof.
  unfold reread_atof, atof. rewrite <-(app_nil_r (fmt3 _)).
  by rewrite scan_numeral_finite by apply field_end_nil.
Qed.

(** A binary32 value with a fraction part is below [2^23]; the others are
    written without rounding. *)
Lemma whole_or_small m e :
  bounded F32.prec F32.emax m e = true →
  (1000 * (inject_Z (Zpos m) * bpow e) == inject_Z (Z.of_N (thousandths m e)))%Q ∨
  (e < 0 ∧ (inject_Z (Zpos m) * bpow e <= inject_Z (2 ^ 23))%Q).
Proof.
  intros Hb. destruct (bounded_facts F32.prec F32.emax ltac:(done) m e Hb)
    as (Hm & _ & _ & _).
  destruct (Z.lt_ge_cases e 0) as [He|He].
  - right. split; [done|].
    assert (bpow e <= 1 # 2)%Q as Hh by (apply (bpow_le e (-1)); lia).
    assert (inject_Z (Zpos m) <= inject_Z (2 ^ 24))%Q as Hi
      by (apply inject_Z_le; unfold F32.prec in Hm; lia).
    assert (0 < inject_Z (Zpos m))%Q as Hp by (by apply (inject_Z_lt 0)).
    pose proof (bpow_pos e) as Hbp.
    eapply Qle_trans; [apply Qmult_le_l; [exact Hp|exact Hh]|].
    eapply Qle_trans; [apply Qmult_le_compat_r; [exact Hi|done]|].
    by vm_compute.
  - left. pose proof (thousandths_spec m e) as Hs.
    destruct e as [|p|p]; [| |lia]; cbn [thousandths].
    + rewrite N2Z.inj_mul, inject_Z_mult. cbn [Z.of_N]. rewrite bpow_0.
      change (inject_Z 1000) with 1000%Q. ring.
    + rewrite !N2Z.inj_mul, N2Z.inj_pow, !inject_Z_mult. cbn [Z.of_N].
      rewrite bpow_Z by done. change (inject_Z 1000) with 1000%Q. ring.
Qed.

Lemma thousandths_half m e :
  (Qabs (1000 * (inject_Z (Zpos m) * bpow e) - inject_Z (Z.of_N (thousandths m e)))
     <= 1 # 2)%Q.
Proof.
  destruct (thousandths_spec m e) as [H|[H _]];
    [by apply Qlt_le_weak|rewrite H; apply Qle_refl].
Qed.

Lemma Qabs_le_zero a b : (Qabs a <= Qabs b)%Q → (b == 0)%Q → (a == 0)%Q.
Proof.
  intros H E. rewrite E in H. change (Qabs 0) with 0%Q in H.
  apply Qabs_Qle_condition in H as [??]. lra.
Qed.

Lemma grid_le A B g slack :
  (0 < g)%Q → (slack < g)%Q →
  (inject_Z (Z.abs B) * g <= inject_Z (Z.abs A) * g + slack)%Q →
  Z.abs B ≤ Z.abs A.
Proof.
  intros Hg Hs H.
  assert (inject_Z (Z.abs B) * g < inject_Z (Z.abs A + 1) * g)%Q as Hlt.
  { rewrite inject_Z_plus. change (inject_Z 1) with 1%Q. lra. }
  apply Qmult_lt_r in Hlt; [|done]. apply inject_Z_lt_inv in Hlt. lia.
Qed.

Lemma on_grid m e T g :
  g ≤ e → g ≤ 0 →
  (1000 * (inject_Z (Zpos m) * bpow e) - inject_Z T
   == inject_Z (1000 * Zpos m * 2 ^ (e - g) - T * 2 ^ (- g)) * bpow g)%Q.
Proof.
  intros He Hg.
  replace (1000 * Zpos m * 2 ^ (e - g) - T * 2 ^ (- g))
    with (1000 * Zpos m * 2 ^ (e - g) + - (T * 2 ^ (- g))) by lia.
  rewrite inject_Z_plus, inject_Z_opp, !inject_Z_mult.
  rewrite !inject_Z_pow2 by lia. change (inject_Z 1000) with 1000%Q.
  assert (bpow e == bpow (e - g) * bpow g)%Q as ->
    by (rewrite <-bpow_add; by replace (e - g + g) with e by lia).
  pose proof (bpow_opp_r g) as Ho. rewrite Qmult_comm in Ho.
  assert (inject_Z T == inject_Z T * (bpow (- g) * bpow g))%Q as E
    by (rewrite Ho; ring).
  rewrite E at 1. ring.
Qed.

Lemma scale_thousand y T :
  (Qabs (1000 * y - inject_Z T) == 1000 * Qabs (inject_Z T * (1 # 1000) - y))%Q.
Proof.
  transitivity (Qabs ((inject_Z T * (1 # 1000) - y) * 1000)).
  { rewrite <-Qabs_opp. apply Qabs_wd. field. }
  rewrite Qabs_scale by done. ring.
Qed.

(** [%.3f] then [%f] on a value that is not zero: the sign is kept and the
    text of the value read back is the text read. *)
Lemma reread_finite_cases s m e :
  bounded F32.prec F32.emax m e = true →
  (reread (S754_finite s m e) = S754_zero s ∨
   ∃ m3 e3, reread (S754_finite s m e) = S754_finite s m3 e3) ∧
  fmt3 (reread (S754_finite s m e)) = fmt3 (S754_finite s m e).
Proof.
  intros Hb. rewrite reread_finite.
  destruct (thousandths m e) as [|T] eqn:ET.
  { cbn [round_numeral fmt3]. rewrite ET. split; [by left|by destruct s]. }
  cbn [round_numeral]. change (10 ^ 3)%positive with 1000%positive.
  pose proof (thousandths_half m e) as Hh. rewrite ET in Hh. cbn [Z.of_N] in Hh.
  destruct (bounded_facts F32.prec F32.emax ltac:(done) m e Hb)
    as (Hm & _ & _ & Hmax).
  assert (inject_Z (Zpos T) * (1 # 1000)
          <= inject_Z (2 ^ F32.prec - 1) * bpow (F32.emax - F32.prec))%Q as Hov.
  { destruct (whole_or_small m e Hb) as [Hw|[_ Hs]].
    - rewrite ET in Hw. cbn [Z.of_N] in Hw. rewrite <-Hw.
      eapply Qle_trans; [|exact Hmax]. apply Qle_lteq. right. field.
    - rewrite scale_thousand in Hh.
      apply Qle_trans with (inject_Z (2 ^ 23) + 1)%Q; [|by vm_compute].
      revert Hh Hs. generalize (inject_Z (2 ^ 23)) (inject_Z (Zpos m) * bpow e)%Q
        (inject_Z (Zpos T)). intros K X V Hh Hs.
      destruct (Qabs_cases (V * (1 # 1000) - X)) as [[? E]|[? E]];
        rewrite E in Hh; lra. }
  destruct (SFdiv_thousand_nearest F32.prec F32.emax ltac:(done) ltac:(done) s T Hov)
    as (m3 & e3 & b & -> & _ & _ & _ & _ & _ & _ & Hn).
  split; [right; eauto|].
  apply fmt3_closer. rewrite ET. cbn [Z.of_N]. rewrite !scale_thousand.
  apply Qmult_le_l; [done|]. apply Hn; [done|done].
Qed.

Lemma reread_same_text x :
  valid_binary F32.prec F32.emax x = true → fmt3 (reread x) = fmt3 x.
Proof.
  destruct x as [s|s| |s m e]; [by destruct s|by destruct s|done|].
  intros Hb. by apply reread_finite_cases.
Qed.

(** The weight [graph_add_edge] stores for a weight read back: for a weight
    that is not negative, the clamp changes nothing. *)
Lemma clamp_reread_same_text w :
  valid_binary F32.prec F32.emax w = true → clamp_weight w = w →
  fmt3 (clamp_weight (reread w)) = fmt3 w.
Proof.
  intros Hb Hc.
  assert (clamp_weight (reread w) = reread w) as ->; [|by apply reread_same_text].
  destruct w as [s|s| |s m e]; [by destruct s|by destruct s|done|].
  destruct s; [done|].
  destruct (reread_finite_cases false m e Hb) as [[->|(m3 & e3 & ->)] _]; done.
Qed.

Lemma Qabs_via_double V X Y Y64 :
  (Qabs (Y64 - Y) <= Qabs (Y64 - X))%Q →
  (Qabs (V - Y) <= Qabs (V - X) + 2 * Qabs (V - Y64))%Q.
Proof.
  intros H.
  destruct (Qabs_cases (Y64 - Y)) as [[? E1]|[? E1]]; rewrite E1 in H;
  destruct (Qabs_cases (Y64 - X)) as [[? E2]|[? E2]]; rewrite E2 in H;
  destruct (Qabs_cases (V - Y)) as [[? E3]|[? E3]]; rewrite E3;
  destruct (Qabs_cases (V - X)) as [[? E4]|[? E4]]; rewrite E4;
  destruct (Qabs_cases (V - Y64)) as [[? E5]|[? E5]]; rewrite E5; lra.
Qed.

(** [%.3f], then [atof] and the conversion to [float]: rounding twice does
    not change the text either. *)
Lemma reread_atof_same_text x :
  valid_binary F32.prec F32.emax x = true → fmt3 (reread_atof x) = fmt3 x.
Proof.
  destruct x as [s|s| |s m e]; [by destruct s|by destruct s|done|].
  cbn [valid_binary]. intros Hb. rewrite reread_atof_finite.
  destruct (thousandths m e) as [|T] eqn:ET.
  { cbn [round_numeral double_to_float fmt3]. rewrite ET. by destruct s. }
  cbn [round_numeral]. change (10 ^ 3)%positive with 1000%positive.
  pose proof (thousandths_half m e) as Hh. rewrite ET in Hh. cbn [Z.of_N] in Hh.
  rewrite scale_thousand in Hh.
  destruct (bounded_facts F32.prec F32.emax ltac:(done) m e Hb)
    as (Hm & _ & _ & Hmax).
  pose proof (whole_or_small m e Hb) as Hws. rewrite ET in Hws. cbn [Z.of_N] in Hws.
  set (X := (inject_Z (Zpos m) * bpow e)%Q) in *.
  set (V := (inject_Z (Zpos T) * (1 # 1000))%Q) in *.
  assert (1000 * X == inject_Z (Zpos T) → V == X)%Q as HVX.
  { intros Hw. unfold V. rewrite <-Hw. field. }
  assert (V <= X + 1)%Q as HV1.
  { destruct (Qabs_cases (V - X)) as [[? E]|[? E]]; rewrite E in Hh; lra. }
  assert (V <= inject_Z (2 ^ 53 - 1) * bpow (1024 - 53))%Q as Hov.
  { eapply Qle_trans; [exact HV1|].
    apply Qle_trans
      with (inject_Z (2 ^ F32.prec - 1) * bpow (F32.emax - F32.prec) + 1)%Q;
      [lra|by vm_compute]. }
  destruct (SFdiv_thousand_nearest 53 1024 ltac:(done) ltac:(done) s T Hov)
    as (m64 & e64 & b & -> & _ & Hd64 & Hb9 & Hbe & Hbin & Hulp & Hn64).
  cbn [double_to_float]. fold V in Hbin, Hulp, Hn64.
  set (Y64 := (inject_Z (Zpos m64) * bpow e64)%Q) in *.
  pose proof (Hn64 (Zpos m) e ltac:(done) ltac:(unfold F32.prec in Hm; lia)) as HnX.
  fold X in HnX.
  assert (Y64 <= inject_Z (2 ^ F32.prec - 1) * bpow (F32.emax - F32.prec))%Q as Hov32.
  { destruct Hws as [Hw|[_ Hs]].
    - apply HVX in Hw. apply Qabs_le_zero in HnX; [|lra].
      eapply Qle_trans; [|exact Hmax]. lra.
    - apply Qle_trans with (inject_Z (2 ^ 23) + 1)%Q; [|by vm_compute].
      revert HnX Hh Hs. generalize (inject_Z (2 ^ 23)). intros K HnX Hh Hs.
      destruct (Qabs_cases (V - X)) as [[? E]|[? E]]; rewrite E in Hh, HnX;
      destruct (Qabs_cases (V - Y64)) as [[? E']|[? E']]; rewrite E' in HnX; lra. }
  destruct (binary_round_nearest F32.prec F32.emax ltac:(done) s m64 e64)
    as (m3 & e3 & -> & _ & He3 & Hn32).
  { rewrite Hd64. done. }
  { rewrite Hd64. unfold emin, F32.prec, F32.emax. lia. }
  { exact Hov32. }
  fold Y64 in Hn32. rewrite Hd64 in He3. unfold F32.prec in He3.
  pose proof (Hn32 (Zpos m) e ltac:(done) Hm) as HnY. fold X in HnY.
  set (Y := (inject_Z (Zpos m3) * bpow e3)%Q) in *.
  apply fmt3_closer. rewrite ET. cbn [Z.of_N]. fold X Y.
  destruct Hws as [Hw|[He Hs]].
  { apply HVX in Hw. apply Qabs_le_zero in HnX; [|lra].
    apply Qabs_le_zero in HnY; [|lra].
    apply Qle_lteq. right. apply Qabs_wd. lra. }
  (* the value has a fraction part: both errors lie on a common grid *)
  pose proof (Qabs_via_double V X Y Y64 HnY) as Htri.
  set (g := Z.min e e3).
  pose proof (on_grid m e (Zpos T) g ltac:(lia) ltac:(lia)) as EA.
  pose proof (on_grid m3 e3 (Zpos T) g ltac:(lia) ltac:(lia)) as EB.
  fold X in EA. fold Y in EB.
  set (A := 1000 * Zpos m * 2 ^ (e - g) - Zpos T * 2 ^ (- g)) in *.
  set (B := 1000 * Zpos m3 * 2 ^ (e3 - g) - Zpos T * 2 ^ (- g)) in *.
  pose proof (bpow_pos g) as Hg.
  assert (Qabs (1000 * X - inject_Z (Zpos T)) == inject_Z (Z.abs A) * bpow g)%Q as EA'.
  { rewrite EA, Qabs_scale by done. by rewrite inject_Z_abs. }
  assert (Qabs (1000 * Y - inject_Z (Zpos T)) == inject_Z (Z.abs B) * bpow g)%Q as EB'.
  { rewrite EB, Qabs_scale by done. by rewrite inject_Z_abs. }
  rewrite EA', EB'. apply Qmult_le_compat_r; [|by apply Qlt_le_weak].
  apply inject_Z_le.
  apply (grid_le A B (bpow g) (2000 * Qabs (V - Y64))); [done| |].
  - (* the slack of the first rounding is below the grid step *)
    assert (1 # 1000 <= V)%Q as HVlo.
    { unfold V. assert (1 <= inject_Z (Zpos T))%Q by (apply (inject_Z_le 1); lia).
      lra. }
    assert (X < bpow (24 + e))%Q as HXhi.
    { unfold X. rewrite bpow_add, <-(inject_Z_pow2 24) by done.
      apply Qmult_lt_compat_r; [apply bpow_pos|]. by apply inject_Z_lt. }
    assert (bpow (b - 1) < bpow (25 + e))%Q as Hlt.
    { assert (bpow (25 + e) == 2 * bpow (24 + e))%Q as ->.
      { replace (25 + e) with (1 + (24 + e)) by lia. by rewrite bpow_add. }
      destruct (Qabs_cases (V - X)) as [[? E]|[? E]]; rewrite E in Hh; lra. }
    apply bpow_lt_inv in Hlt.
    assert (bpow (b - 43) <= bpow g)%Q as Hgrid by (apply bpow_le; lia).
    assert (bpow (b - 43) == 1024 * bpow (b - 53))%Q as E43.
    { replace (b - 43) with (10 + (b - 53)) by lia. by rewrite bpow_add. }
    pose proof (bpow_pos (b - 53)). lra.
  - rewrite <-EA', <-EB', !scale_thousand. fold V. lra.
Qed.
End reread_same_text.

Section same_text.

Lemma scan_numeral_printed x :
  scan_numeral (fmt3 x) = Some (printed_numeral x, []).
Proof.
  destruct x as [s|s| |s m e]; [by destruct s|by destruct s|done|].
  rewrite <-(app_nil_r (fmt3 _)). apply scan_numeral_finite, field_end_nil.
Qed.

(** Two numbers with the same three-decimal text are at most 0.001 apart. *)
Lemma same_text_within_a_thousandth x y :
  fmt3 x = fmt3 y → (Qabs (float_value x - float_value y) <= 1 # 1000)%Q.
Proof.
  intros H. pose proof (scan_numeral_printed x) as Hx.
  rewrite H, scan_numeral_printed in Hx. injection Hx as Hx.
  assert (∀ (s : bool) (m : positive) (e : Z),
    Qabs ((if s then -1 else 1) * (inject_Z (Zpos m) * bpow e) * 1000
          - (if s then -1 else 1) * inject_Z (Z.of_N (thousandths m e))) <= 1 # 2)%Q
    as Hhalf.
  { intros s m e. pose proof (thousandths_half m e) as Hh.
    destruct s.
    - rewrite <-Qabs_opp. eapply Qle_trans; [|exact Hh].
      apply Qle_lteq. right. apply Qabs_wd. ring.
    - eapply Qle_trans; [|exact Hh]. apply Qle_lteq. right. apply Qabs_wd. ring. }
  assert (∀ v v' T : Q,
    Qabs (v * 1000 - T) <= 1 # 2 → Qabs (v' * 1000 - T) <= 1 # 2 →
    Qabs (v - v') <= 1 # 1000)%Q as Hclose.
  { intros v v' T [??]%Qabs_Qle_condition [??]%Qabs_Qle_condition.
    apply Qabs_Qle_condition. split; lra. }
  destruct x as [s|s| |s m e], y as [s'|s'| |s' m' e'];
    cbn [printed_numeral float_value] in *; try done;
    injection Hx as Hs HT; subst s'.
  - pose proof (Hhalf s m' e') as Hh. rewrite HT in Hh.
    eapply Hclose; [|exact Hh]. destruct s; by vm_compute.
  - pose proof (Hhalf s m e) as Hh. rewrite <-HT in Hh.
    eapply Hclose; [exact Hh|]. destruct s; by vm_compute.
  - pose proof (Hhalf s m e) as Hh. rewrite <-HT in Hh.
    eapply Hclose; [exact Hh|apply Hhalf].
Qed.
End same_text.

(** * Persistence: the round trips *)

Section round_trips.
Implicit Types (g : EmotionGraph) (n : EmotionNode) (s t : cstring).

Lemma same_text_to_3_decimals x y : fmt3 x = fmt3 y → same_to_3_decimals x y.
Proof. intros H. split; [done|]. by apply same_text_within_a_thousandth. Qed.

Lemma edges_at_elem g i (e : Edge) :
  e ∈ edges_at g i ↔ ∃ n, g !! i = Some n ∧ e ∈ edges n.
Proof.
  unfold edges_at. destruct (g !! i) as [n|]; simpl.
  - split; [by exists n|]. by intros (? & [= <-] & ?).
  - rewrite elem_of_nil. split; [done|]. by intros (? & ? & _).
Qed.

Lemma link_count_pos g u v w :
  (0 < link_count g u v w)%nat ↔
  ∃ e, e ∈ edges_at g u ∧ to e = v ∧ weight e = w.
Proof.
  unfold link_count. split.
  - destruct (filter _ _) as [|e l] eqn:E; [simpl; lia|]. intros _.
    assert (e ∈ filter (λ e, to e = v ∧ weight e = w) (edges_at g u)) as He
      by (rewrite E; left).
    apply list_elem_of_filter in He as [[??] ?]. by exists e.
  - intros (e & He & Hv & Hw).
    assert (e ∈ filter (λ e, to e = v ∧ weight e = w) (edges_at g u)) as Hin
      by (by apply list_elem_of_filter).
    destruct (filter _ _); [by apply elem_of_nil in Hin|simpl; lia].
Qed.

(** In a mirrored graph every edge has a twin at its target. *)
Lemma mirrored_twin g u (e : Edge) :
  mirrored g → e ∈ edges_at g u →
  ∃ e2, e2 ∈ edges_at g (to e) ∧ to e2 = u ∧ weight e2 = weight e.
Proof.
  intros Hm He. apply link_count_pos. rewrite <-Hm. apply link_count_pos.
  by exists e.
Qed.






(** C1, amended. For a graph whose numbers are [float]s, whose names are
    distinct tokens of at most 47 characters without white space or quote,
    whose tips and procedures hold no newline, whose records fit a line, and
    whose edges stored at the lower-index end do not run from "overwhelmed"
    to a positive goal: the file written by [save_graph], loaded into an
    empty graph, gives the same node names in the same order, the same tips
    in order, and a valence and a baseline that are the saved ones up to
    rounding at three decimals: they print with [%.3f] as the saved ones do
    and are at most 0.001 away (they are the values read back from that
    text).  The edges loaded are those of the edges stored at their
    lower-index end, in both directions: each such edge gives an edge to the
    same target with its procedure text, and a mirror edge without procedure
    at the target, and every edge loaded is one of these.  Their weight is
    the one read back from three decimals and clamped at 0; for a saved
    weight that is not negative it is the saved weight up to rounding at
    three decimals.  In a graph where every edge has its mirror image, as in
    every graph the store builds, this is the whole edge set whatever the
    direction: every edge between two different nodes is loaded at the same
    node, to the same target, with the weight read back, and every edge
    loaded is such an edge. *)
Theorem save_load_round_trip g :
  persistable g → binary32_numbers g →
  ∃ f,
    save_graph g = Some f ∧
    name <$> load_graph graph_new f = name <$> g ∧
    tips <$> load_graph graph_new f = tips <$> g ∧
    valence <$> load_graph graph_new f = reread_atof ∘ valence <$> g ∧
    baseline_intensity <$> load_graph graph_new f
      = reread_atof ∘ baseline_intensity <$> g ∧
    Forall2 (λ n2 n, same_to_3_decimals (valence n2) (valence n) ∧
                     same_to_3_decimals (baseline_intensity n2) (baseline_intensity n))
      (load_graph graph_new f) g ∧
    (∀ i n e,
       g !! i = Some n → e ∈ edges n → (i < to e)%nat →
       (∃ e', e' ∈ edges_at (load_graph graph_new f) i ∧
              to e' = to e ∧
              weight e' = clamp_weight (reread (weight e)) ∧
              (clamp_weight (weight e) = weight e →
                 same_to_3_decimals (weight e') (weight e)) ∧
              ∀ pr, procedure e = Some pr → procedure e' = Some pr) ∧
       mkEdge i (clamp_weight (reread (weight e))) None
         ∈ edges_at (load_graph graph_new f) (to e)) ∧
    (∀ k e',
       e' ∈ edges_at (load_graph graph_new f) k →
       ∃ i n e,
         g !! i = Some n ∧ e ∈ edges n ∧ (i < to e)%nat ∧
         weight e' = clamp_weight (reread (weight e)) ∧
         (clamp_weight (weight e) = weight e →
            same_to_3_decimals (weight e') (weight e)) ∧
         ((k = i ∧ to e' = to e ∧
           ∀ pr, procedure e = Some pr → procedure e' = Some pr) ∨
          (k = to e ∧ to e' = i ∧ procedure e' = None))) ∧
    (mirrored g →
       (∀ k e,
          e ∈ edges_at g k → to e ≠ k →
          ∃ e', e' ∈ edges_at (load_graph graph_new f) k ∧ to e' = to e ∧
                weight e' = clamp_weight (reread (weight e))) ∧
       (∀ k e',
          e' ∈ edges_at (load_graph graph_new f) k →
          ∃ e, e ∈ edges_at g k ∧ to e = to e' ∧ to e ≠ k ∧
               weight e' = clamp_weight (reread (weight e)))).
Proof.
  intros Hp Hnum. destruct (load_saved_graph g Hp) as (f & Hsave & Hload).
  exists f. unfold graph_new. rewrite Hload.
  destruct (reload_image_fields g) as (H1 & H2 & H3 & H4).
  unfold binary32_numbers in Hnum. rewrite Forall_forall in Hnum.
  assert (∀ i n e, g !! i = Some n → e ∈ edges n →
            clamp_weight (weight e) = weight e →
            same_to_3_decimals (clamp_weight (reread (weight e))) (weight e)) as Hw.
  { intros i n e Hn He Hc. apply same_text_to_3_decimals.
    apply clamp_reread_same_text; [|done].
    destruct (Hnum n) as (_ & _ & Hes); [by eapply list_elem_of_lookup_2|].
    rewrite Forall_forall in Hes. by apply Hes. }
  split_and!; try done.
  - apply Forall2_same_length_lookup. split.
    { unfold reload_image. by rewrite length_imap. }
    intros k n2 n Hn2 Hn. rewrite reload_image_lookup, Hn in Hn2.
    injection Hn2 as <-. cbn [valence baseline_intensity].
    destruct (Hnum n) as (Hv & Hb & _); [by eapply list_elem_of_lookup_2|].
    split; by apply same_text_to_3_decimals, reread_atof_same_text.
  - intros i n e Hn He Hlt.
    pose proof (persistable_wf g Hp i n e Hn He Hlt) as Hto.
    apply lookup_lt_Some in Hn as Hi. split.
    + exists (reloaded_forward (i, e)). split_and!; try done.
      * apply reload_image_edges. split; [done|]. exists i, n, e.
        split_and!; try done. by left.
      * by apply (Hw i n).
      * intros pr Hpr. unfold reloaded_forward. simpl. by rewrite Hpr.
    + apply reload_image_edges. split; [done|]. exists i, n, e.
      split_and!; try done. by right.
  - intros k e' (Hk & i & n & e & Hn & He & Hlt & Hcase)%reload_image_edges.
    exists i, n, e. split_and!; [done..| | |].
    + by destruct Hcase as [[_ ->]|[_ ->]].
    + intros Hc. destruct Hcase as [[_ ->]|[_ ->]]; by apply (Hw i n).
    + destruct Hcase as [[-> ->]|[<- ->]]; [left|right]; split_and!; try done.
      intros pr Hpr. unfold reloaded_forward. simpl. by rewrite Hpr.
  - intros Hm. split.
    + intros k e He Hloop.
      destruct (decide (k < to e)%nat) as [Hlt|Hge].
      * apply edges_at_elem in He as (n & Hn & He).
        pose proof (persistable_wf g Hp k n e Hn He Hlt) as Hto.
        apply lookup_lt_Some in Hn as Hk.
        exists (reloaded_forward (k, e)). split_and!; try done.
        apply reload_image_edges. split; [done|]. exists k, n, e.
        split_and!; try done. by left.
      * destruct (mirrored_twin g k e Hm He) as (e2 & He2 & Hto2 & Hw2).
        apply edges_at_elem in He as (n & Hn & He).
        apply lookup_lt_Some in Hn as Hk.
        apply edges_at_elem in He2 as (n2 & Hn2 & He2).
        exists (reloaded_mirror (to e, e2)). split_and!.
        -- apply reload_image_edges. split; [done|]. exists (to e), n2, e2.
           split_and!; [done|done|lia|]. by right.
        -- done.
        -- unfold reloaded_mirror. simpl. by rewrite Hw2.
    + intros k e' (Hk & i & n & e & Hn & He & Hlt & Hcase)%reload_image_edges.
      destruct Hcase as [[-> ->]|[<- ->]].
      * exists e. split_and!; [|done|simpl; lia|done].
        apply edges_at_elem. eauto.
      * destruct (mirrored_twin g i e Hm) as (e2 & He2 & Hto2 & Hw2);
          [apply edges_at_elem; eauto|].
        exists e2. split_and!; [done|done|lia|].
        unfold reloaded_mirror. simpl. by rewrite Hw2.
Qed.

Lemma save_load_round_trip_witness :
  ∃ f,
    save_graph seed_defaults = Some f ∧
    name <$> load_graph graph_new f = name <$> seed_defaults ∧
    tips <$> load_graph graph_new f = tips <$> seed_defaults ∧
    Forall2 (λ n2 n, same_to_3_decimals (valence n2) (valence n) ∧
                     same_to_3_decimals (baseline_intensity n2) (baseline_intensity n))
      (load_graph graph_new f) seed_defaults.
Proof.
  destruct (save_load_round_trip seed_defaults)
    as (f & H1 & H2 & H3 & _ & _ & H4 & _).
  - apply (bool_decide_unpack _). vm_compute. exact I.
  - apply (bool_decide_unpack _). vm_compute. exact I.
  - exists f. split_and!; assumption.
Defined.

End round_trips.
